(** * Entity PDF viewer: the scan-and-index engine

    A shallow embedding of [src/EntityViewer.tsx] (and of the store
    helpers of [src/db.ts]): the boundary-aware matcher, the snippet
    computation, the match store, the scan loop with its cooperative
    cancellation, and the render entry point. *)

From Stdlib Require Import ZArith List Bool Lia Sorted Ascii PrimFloat.
From stdpp Require Import gmap list strings.

Local Open Scope Z_scope.

Set Warnings "-register-all".

(** ** JavaScript strings

    A JavaScript string is a sequence of UTF-16 code units; [length],
    [substring] and the regular-expression engine (without the [u] flag)
    all work on code units. *)

Abbreviation jsstring := (list Z).

(** Code units of an ASCII literal, for writing constants and examples. *)
Fixpoint str (s : string) : jsstring :=
  match s with
  | EmptyString => []
  | String a r => Z.of_nat (nat_of_ascii a) :: str r
  end.

Definition jslength (s : jsstring) : Z := Z.of_nat (length s).

(** [String.prototype.substring(a, b)]: both arguments are clamped to
    [0 .. length], swapped when out of order; it never throws. *)
Definition substring (s : jsstring) (a b : Z) : jsstring :=
  let len := jslength s in
  let a' := Z.min (Z.max a 0) len in
  let b' := Z.min (Z.max b 0) len in
  let from := Z.min a' b' in
  let to := Z.max a' b' in
  take (Z.to_nat (to - from)) (drop (Z.to_nat from) s).

(** ** The Matcher: [escapeRegExp], [createExactMatchRegex] and the
    fragment of the regular-expression engine they reach *)

Module Matcher.

(** The character class of [escapeRegExp]: [. * + ? ^ $ { } ( ) | [ ] \]. *)
Definition isSpecial (c : Z) : bool :=
  (c =? 46) || (c =? 42) || (c =? 43) || (c =? 63) || (c =? 94) ||
  (c =? 36) || (c =? 123) || (c =? 125) || (c =? 40) || (c =? 41) ||
  (c =? 124) || (c =? 91) || (c =? 93) || (c =? 92).

(** [string.replace(/[.*+?^${}()|[\]\\]/g, '\\$&')]: every special
    character is replaced by a backslash followed by itself. *)
Definition escapeRegExp (s : jsstring) : jsstring :=
  flat_map (fun c => if isSpecial c then [92; c] else [c]) s.

(** [\w] without the [u] flag: ASCII letters, digits and underscore. *)
Definition isWordChar (c : Z) : bool :=
  ((48 <=? c) && (c <=? 57)) || ((65 <=? c) && (c <=? 90)) ||
  ((97 <=? c) && (c <=? 122)) || (c =? 95).

(** [/^\w/.test(entity)] and [/\w$/.test(entity)]. *)
Definition startsWithWord (entity : jsstring) : bool :=
  match entity with
  | c :: _ => isWordChar c
  | [] => false
  end.

Definition endsWithWord (entity : jsstring) : bool :=
  match last entity with
  | Some c => isWordChar c
  | None => false
  end.

(** *** Patterns

    The pattern grammar, restricted to what the patterns built here can
    contain: the assertion [\b], an escaped syntax character, and a
    plain pattern character.  Everything else ([None]) is either a
    [SyntaxError] of the [RegExp] constructor or a construct that is not
    modelled. *)

Inductive Node :=
  | WordBoundary
  | Char (c : Z).

(** SyntaxCharacter of the pattern grammar: [^ $ \ . * + ? ( ) [ ] { } |]. *)
Definition isSyntaxChar (c : Z) : bool :=
  (c =? 94) || (c =? 36) || (c =? 92) || (c =? 46) || (c =? 42) ||
  (c =? 43) || (c =? 63) || (c =? 40) || (c =? 41) || (c =? 91) ||
  (c =? 93) || (c =? 123) || (c =? 125) || (c =? 124).

Fixpoint parsePattern (p : jsstring) : option (list Node) :=
  match p with
  | [] => Some []
  | c :: rest =>
      if c =? 92 then
        match rest with
        | [] => None
        | d :: rest' =>
            if d =? 98 then cons WordBoundary <$> parsePattern rest'
            else if isSyntaxChar d then cons (Char d) <$> parsePattern rest'
            else None
        end
      else if isSyntaxChar c then None
      else cons (Char c) <$> parsePattern rest
  end.

Record RegExp := mkRegExp {
  program : list Node;
  global : bool;
  ignoreCase : bool;
  lastIndex : nat
}.

(** [new RegExp(pattern, global ? 'gi' : 'i')] *)
Definition newRegExp (pattern : jsstring) (g : bool) : option RegExp :=
  prog ← parsePattern pattern;
  Some (mkRegExp prog g true 0%nat).

Definition createExactMatchRegex (entity : jsstring) (g : bool) : option RegExp :=
  let escaped := escapeRegExp entity in
  let startBoundary := if startsWithWord entity then str "\b" else [] in
  let endBoundary := if endsWithWord entity then str "\b" else [] in
  newRegExp (startBoundary ++ escaped ++ endBoundary) g.

Section Engine.

(** [String.prototype.toUpperCase] on a single code unit at or above 128
    is given by the Unicode tables of the runtime; its result may be
    several code units long. *)
Variable unicodeUpper : Z -> jsstring.

Definition toUpperCase1 (ch : Z) : jsstring :=
  if ch <? 128 then [if (97 <=? ch) && (ch <=? 122) then ch - 32 else ch]
  else unicodeUpper ch.

(** Canonicalize of the engine, for the [i] flag without the [u] flag. *)
Definition Canonicalize (ic : bool) (ch : Z) : Z :=
  if ic then
    match toUpperCase1 ch with
    | [cu] => if (128 <=? ch) && (cu <? 128) then ch else cu
    | _ => ch
    end
  else ch.

(** IsWordChar(e) of the engine: false at [-1] and at the input's length. *)
Definition isWordAt (s : jsstring) (i : nat) : bool :=
  match s !! i with
  | Some c => isWordChar c
  | None => false
  end.

Definition isWordBefore (s : jsstring) (i : nat) : bool :=
  match i with
  | O => false
  | S j => isWordAt s j
  end.

(** The matcher of a program at position [i]: the end index of the
    match, if any.  The programs are sequences, so there is nothing to
    backtrack over. *)
Fixpoint matchNodes (ic : bool) (prog : list Node) (s : jsstring) (i : nat)
  : option nat :=
  match prog with
  | [] => Some i
  | WordBoundary :: k =>
      if xorb (isWordBefore s i) (isWordAt s i) then matchNodes ic k s i
      else None
  | Char c :: k =>
      match s !! i with
      | Some d =>
          if Canonicalize ic d =? Canonicalize ic c
          then matchNodes ic k s (S i)
          else None
      | None => None
      end
  end.

(** The loop of RegExpBuiltinExec: try the start positions
    [i, i+1, ..., i+n-1] in turn. *)
Fixpoint search (ic : bool) (prog : list Node) (s : jsstring) (i n : nat)
  : option (nat * nat) :=
  match n with
  | O => None
  | S n' =>
      match matchNodes ic prog s i with
      | Some e => Some (i, e)
      | None => search ic prog s (S i) n'
      end
  end.

(** The result array of [exec]: [match.index] and [match[0]]. *)
Record ExecResult := mkExec {
  index : nat;
  matched : jsstring
}.

(** [regex.exec(s)]: the result ([None] is [null]) and the expression
    with its [lastIndex] updated. *)
Definition exec (R : RegExp) (s : jsstring) : option ExecResult * RegExp :=
  let li := if global R then lastIndex R else 0%nat in
  match search (ignoreCase R) (program R) s li (S (length s) - li) with
  | None =>
      (None, mkRegExp (program R) (global R) (ignoreCase R)
               (if global R then 0%nat else lastIndex R))
  | Some (i, e) =>
      (Some (mkExec i (take (e - i) (drop i s))),
       mkRegExp (program R) (global R) (ignoreCase R)
         (if global R then e else lastIndex R))
  end.

(** [regex.test(s)] *)
Definition test (R : RegExp) (s : jsstring) : bool * RegExp :=
  let '(r, R') := exec R s in (bool_decide (is_Some r), R').

(** [while ((match = regex.exec(s)) !== null) { ... }]: the sequence of
    results; [None] when the fuel runs out before [exec] returns [null]. *)
Fixpoint execAll (fuel : nat) (R : RegExp) (s : jsstring)
  : option (list ExecResult) :=
  match fuel with
  | O => None
  | S f =>
      match exec R s with
      | (None, _) => Some []
      | (Some m, R') => cons m <$> execAll f R' s
      end
  end.

(** The occurrences of one entity in one page text. *)
Definition findAll (fuel : nat) (entity text : jsstring)
  : option (list ExecResult) :=
  R ← createExactMatchRegex entity true;
  execAll fuel R text.

End Engine.

End Matcher.

(** ** Snippets *)

(** Lines 223-225 of [processDirectory]. *)
Definition snippetStart (index : Z) : Z := Z.max 0 (index - 30).

Definition snippetEnd (fullPageString entity : jsstring) (index : Z) : Z :=
  Z.min (jslength fullPageString) (index + jslength entity + 30).

Definition snippetOf (fullPageString entity : jsstring) (index : Z) : jsstring :=
  let start := snippetStart index in
  let end_ := snippetEnd fullPageString entity index in
  str "..." ++ substring fullPageString start end_ ++ str "...".

(** ** The platform

    Promises of the capabilities the component uses either resolve or
    reject; what is thrown is a value of [Thrown]. *)

Inductive Thrown :=
  | DBErrorString                  (* the string "DB Error" of [LocalDB.init] *)
  | SyntaxError                    (* [new RegExp] on a malformed pattern *)
  | Exception (name : jsstring).   (* an exception object of the platform *)

Inductive Outcome (A : Type) :=
  | Resolved (a : A)
  | Rejected (e : Thrown).
Arguments Resolved {A} a.
Arguments Rejected {A} e.

Inductive Permission := Granted | Denied | Prompt.

Record ArrayBuffer := mkBuffer {
  buffer_bytes : list Z
}.

Record JSFile := mkFile {
  file_arrayBuffer : Outcome ArrayBuffer
}.

(** A [FileSystemFileHandle]. *)
Record FileHandle := mkHandle {
  fh_name : jsstring;
  fh_getFile : Outcome JSFile;
  fh_queryPermission : Outcome Permission;
  fh_requestPermission : Outcome Permission
}.

(** A directory entry: [entry.kind] is ['file'] or ['directory']. *)
Inductive Entry :=
  | FileEntry (h : FileHandle)
  | DirectoryEntry (children : list Entry).

(** pdf.js: transforms are arrays of six numbers. *)
Abbreviation Matrix := (list float).

Record TextItem := mkItem {
  item_str : jsstring;
  item_transform : Matrix;
  item_width : float;
  item_height : float
}.

Record Viewport := mkViewport {
  vp_width : float;
  vp_height : float;
  vp_transform : Matrix
}.

Record PDFPage := mkPage {
  getViewport : float -> Viewport;
  page_render : Outcome unit;
  getTextContent : Outcome (list TextItem)
}.

Record PDFDocument := mkPDF {
  numPages : nat;
  getPage : nat -> Outcome PDFPage
}.

Record World := mkWorld {
  (** [toUpperCase] of a code unit at or above 128 *)
  unicodeUpper : Z -> jsstring;
  (** [String.prototype.toLowerCase] *)
  toLowerCase : jsstring -> jsstring;
  (** the source text [Function.prototype.toString] gives for the
      built-in method of [Object.prototype] stored under a key *)
  nativeSource : jsstring -> jsstring;
  (** [pdfjsLib.getDocument({ data }).promise] *)
  getDocument : ArrayBuffer -> Outcome PDFDocument;
  (** [pdfjsLib.Util.transform] *)
  utilTransform : Matrix -> Matrix -> Matrix;
  (** [Date.now()] at a given turn of the event loop *)
  now : nat -> Z;
  (** the error, if any, of the n-th request made to IndexedDB *)
  idbFault : nat -> option Thrown;
  (** the user's answer to [confirm(message)] *)
  confirm : jsstring -> bool;
  (** [window.showDirectoryPicker()]; [None] when the browser lacks it *)
  showDirectoryPicker : option (Outcome Entry)
}.

(** ** Match Records and the object store *)

Record MatchRecord := mkMatch {
  entity : jsstring;
  fileName : jsstring;
  pageNumber : nat;
  textSnippet : jsstring;
  fileHandle : FileHandle;
  timestamp : Z
}.

(** The object store ['matches'] of the database ['entity-viewer-db']:
    records under their auto-incremented key, in key order. *)
Record Store := mkStore {
  records : list (nat * MatchRecord);
  keyGen : nat;          (* the key generator of the object store *)
  requests : nat;        (* requests made to IndexedDB so far *)
  dbOpen : bool          (* [LocalDB.db] is not [null] *)
}.

Definition store_add (m : MatchRecord) (st : Store) : Store :=
  mkStore (records st ++ [(keyGen st, m)]) (S (keyGen st)) (requests st) (dbOpen st).

Definition store_clear (st : Store) : Store :=
  mkStore [] (keyGen st) (requests st) (dbOpen st).

(** [store.getAll()] *)
Definition store_getAll (st : Store) : list MatchRecord :=
  snd <$> records st.

(** [store.index('entity').getAll(entity)] *)
Definition index_getAll (e : jsstring) (st : Store) : list MatchRecord :=
  filter (fun m => entity m = e) (store_getAll st).

(** ** Counting by entity

    [counts] is a plain object: reading a key that is not an own
    property falls through to [Object.prototype]. *)

Inductive JSValue :=
  | VNum (n : Z)
  | VStr (s : jsstring).

Inductive Lookup :=
  | Undefined
  | Own (v : JSValue)
  | InheritedMethod (key : jsstring)   (* a built-in function *)
  | InheritedProto.                    (* the getter of [__proto__] *)

Definition objectPrototypeMethods : list jsstring :=
  str <$> ["constructor"; "hasOwnProperty"; "isPrototypeOf";
           "propertyIsEnumerable"; "toLocaleString"; "toString"; "valueOf";
           "__defineGetter__"; "__defineSetter__"; "__lookupGetter__";
           "__lookupSetter__"]%string.

Definition protoKey : jsstring := str "__proto__".

(** [counts[key]] *)
Definition getProp (counts : gmap jsstring JSValue) (key : jsstring) : Lookup :=
  match counts !! key with
  | Some v => Own v
  | None =>
      if bool_decide (key ∈ objectPrototypeMethods) then InheritedMethod key
      else if bool_decide (key = protoKey) then InheritedProto
      else Undefined
  end.

(** [counts[key] = v] for a primitive [v]: the setter of [__proto__]
    ignores a primitive, every other key becomes an own property. *)
Definition setProp (counts : gmap jsstring JSValue) (key : jsstring) (v : JSValue)
  : gmap jsstring JSValue :=
  if bool_decide (key = protoKey) then counts else <[key := v]> counts.

Section Counting.
Variable w : World.

(** [(x || 0) + 1]: an object is truthy and [+] turns it into a string. *)
Definition orZeroPlusOne (x : Lookup) : JSValue :=
  match x with
  | Undefined => VNum (0 + 1)
  | Own (VNum n) => VNum ((if n =? 0 then 0 else n) + 1)
  | Own (VStr s) =>
      match s with
      | [] => VNum (0 + 1)
      | _ => VStr (s ++ str "1")
      end
  | InheritedMethod key => VStr (nativeSource w key ++ str "1")
  | InheritedProto => VStr (str "[object Object]1")
  end.

(** The [forEach] of [getMatchesGrouped] and of [getAllEntitiesGrouped]. *)
Definition tally (all : list MatchRecord) : gmap jsstring JSValue :=
  foldl (fun counts m =>
           setProp counts (entity m) (orZeroPlusOne (getProp counts (entity m))))
        ∅ all.

End Counting.

(** ** The component's state *)

Record Stats := mkStats {
  filesProcessed : nat;
  matchesFound : nat;
  currentFile : jsstring
}.

Inductive DrawOp :=
  | DrawPage (page : PDFPage) (viewport : Viewport)
  | FillRect (fillStyle : jsstring) (x y width height : float).

Record Canvas := mkCanvas {
  cv_width : float;
  cv_height : float;
  cv_ops : list DrawOp
}.

Record View := mkView {
  csvContent : list jsstring;
  isProcessing : bool;
  stats : Stats;
  entityCounts : gmap jsstring JSValue;
  activeEntity : option jsstring;
  selectedMatch : option MatchRecord;
  zoomLevel : float;
  pdfLibReady : bool
}.

(** [console.error(label, e)] and [console.error(e)] *)
Inductive LogEntry :=
  | ConsoleError (label : option jsstring) (e : Thrown).

Record State := mkState {
  store : Store;
  view : View;
  abortControllerRef : bool;
  canvas : option Canvas;        (* [canvasRef.current] *)
  clientWidth : option float;    (* of [scrollContainerRef.current] *)
  console : list LogEntry;
  alerts : list jsstring;
  fileCount : nat;               (* locals of the running [processDirectory] *)
  matchCount : nat;
  tick : nat;                    (* suspensions of the running handler so far *)
  stopAt : option nat            (* the suspension during which Stop is clicked *)
}.

Definition set_store (f : Store -> Store) (s : State) : State :=
  mkState (f (store s)) (view s) (abortControllerRef s) (canvas s) (clientWidth s)
    (console s) (alerts s) (fileCount s) (matchCount s) (tick s) (stopAt s).

Definition set_view (f : View -> View) (s : State) : State :=
  mkState (store s) (f (view s)) (abortControllerRef s) (canvas s) (clientWidth s)
    (console s) (alerts s) (fileCount s) (matchCount s) (tick s) (stopAt s).

Definition set_abort (b : bool) (s : State) : State :=
  mkState (store s) (view s) b (canvas s) (clientWidth s)
    (console s) (alerts s) (fileCount s) (matchCount s) (tick s) (stopAt s).

Definition set_canvas (f : option Canvas -> option Canvas) (s : State) : State :=
  mkState (store s) (view s) (abortControllerRef s) (f (canvas s)) (clientWidth s)
    (console s) (alerts s) (fileCount s) (matchCount s) (tick s) (stopAt s).

Definition log (entry : LogEntry) (s : State) : State :=
  mkState (store s) (view s) (abortControllerRef s) (canvas s) (clientWidth s)
    (console s ++ [entry]) (alerts s) (fileCount s) (matchCount s) (tick s) (stopAt s).

Definition show_alert (msg : jsstring) (s : State) : State :=
  mkState (store s) (view s) (abortControllerRef s) (canvas s) (clientWidth s)
    (console s) (alerts s ++ [msg]) (fileCount s) (matchCount s) (tick s) (stopAt s).

Definition set_fileCount (n : nat) (s : State) : State :=
  mkState (store s) (view s) (abortControllerRef s) (canvas s) (clientWidth s)
    (console s) (alerts s) n (matchCount s) (tick s) (stopAt s).

Definition set_matchCount (n : nat) (s : State) : State :=
  mkState (store s) (view s) (abortControllerRef s) (canvas s) (clientWidth s)
    (console s) (alerts s) (fileCount s) n (tick s) (stopAt s).

(** The running handler is suspended once: the event loop turns, and a
    click on Stop that falls into this suspension runs [stopProcessing]. *)
Definition stopProcessing (s : State) : State := set_abort true s.

Definition suspend (s : State) : State :=
  let s' := if bool_decide (stopAt s = Some (tick s)) then stopProcessing s else s in
  mkState (store s') (view s') (abortControllerRef s') (canvas s') (clientWidth s')
    (console s') (alerts s') (fileCount s') (matchCount s') (S (tick s')) (stopAt s').

Definition setIsProcessing (b : bool) (v : View) : View :=
  mkView (csvContent v) b (stats v) (entityCounts v) (activeEntity v)
    (selectedMatch v) (zoomLevel v) (pdfLibReady v).

Definition setStats (f : Stats -> Stats) (v : View) : View :=
  mkView (csvContent v) (isProcessing v) (f (stats v)) (entityCounts v)
    (activeEntity v) (selectedMatch v) (zoomLevel v) (pdfLibReady v).

Definition setEntityCounts (c : gmap jsstring JSValue) (v : View) : View :=
  mkView (csvContent v) (isProcessing v) (stats v) c (activeEntity v)
    (selectedMatch v) (zoomLevel v) (pdfLibReady v).

Definition setActiveEntity (e : option jsstring) (v : View) : View :=
  mkView (csvContent v) (isProcessing v) (stats v) (entityCounts v) e
    (selectedMatch v) (zoomLevel v) (pdfLibReady v).

Definition setSelectedMatch (m : option MatchRecord) (v : View) : View :=
  mkView (csvContent v) (isProcessing v) (stats v) (entityCounts v)
    (activeEntity v) m (zoomLevel v) (pdfLibReady v).

(** ** Handlers as state transformers that may throw

    [OutOfFuel] is not a behaviour of the component: it marks a run cut
    short because the fuel given to an unbounded loop was used up. *)

Inductive Result (A : Type) :=
  | Ok (a : A)
  | Throw (e : Thrown)
  | OutOfFuel.
Arguments Ok {A} a.
Arguments Throw {A} e.
Arguments OutOfFuel {A}.

Definition M (A : Type) : Type := State -> Result A * State.

Definition ret {A} (a : A) : M A := fun s => (Ok a, s).

Definition bind {A B} (m : M A) (k : A -> M B) : M B :=
  fun s =>
    match m s with
    | (Ok a, s') => k a s'
    | (Throw e, s') => (Throw e, s')
    | (OutOfFuel, s') => (OutOfFuel, s')
    end.

Declare Scope js_scope.
Delimit Scope js_scope with js.
Notation "x <- m ;; k" := (bind m (fun x => k))
  (at level 100, m at next level, right associativity) : js_scope.
Notation "m ;; k" := (bind m (fun _ => k))
  (at level 100, right associativity) : js_scope.
Local Open Scope js_scope.

Definition throw {A} (e : Thrown) : M A := fun s => (Throw e, s).
Definition outOfFuel {A} : M A := fun s => (OutOfFuel, s).
Definition gets {A} (f : State -> A) : M A := fun s => (Ok (f s), s).
Definition modify (f : State -> State) : M unit := fun s => (Ok tt, f s).

(** [try { m } catch (e) { h e }] *)
Definition tryCatch {A} (m : M A) (h : Thrown -> M A) : M A :=
  fun s =>
    match m s with
    | (Throw e, s') => h e s'
    | r => r
    end.

(** [try { m } finally { f }]: an exception of [f] replaces the
    completion of [m]. *)
Definition tryFinally {A} (m : M A) (f : M unit) : M A :=
  fun s =>
    match m s with
    | (OutOfFuel, s') => (OutOfFuel, s')
    | (r, s') =>
        match f s' with
        | (Ok _, s'') => (r, s'')
        | (Throw e, s'') => (Throw e, s'')
        | (OutOfFuel, s'') => (OutOfFuel, s'')
        end
    end.

(** [await p]: the handler is suspended, then the promise settles. *)
Definition await {A} (p : M A) : M A := fun s => p (suspend s).

Definition settle {A} (o : Outcome A) : M A :=
  match o with
  | Resolved a => ret a
  | Rejected e => throw e
  end.

(** ** [LocalDB] *)

Section Requests.
Variable w : World.

(** One request to IndexedDB: it takes the next request number, and
    either fails with the error the world has for that number or is
    carried out on the object store. *)
Definition idbRequest {A} (op : Store -> A * Store) : M A :=
  fun s =>
    let n := requests (store s) in
    let s1 := set_store (fun st => mkStore (records st) (keyGen st) (S n) (dbOpen st)) s in
    match idbFault w n with
    | Some e => (Throw e, s1)
    | None =>
        let '(a, st') := op (store s1) in
        (Ok a, set_store (fun _ => st') s1)
    end.

End Requests.

Module LocalDB.
Section WithWorld.
Variable w : World.
Abbreviation idbRequest := (idbRequest w).

Definition init : M unit :=
  opened <- gets (fun s => dbOpen (store s)) ;;
  if opened then ret tt
  else
    tryCatch
      (idbRequest (fun st => (tt, mkStore (records st) (keyGen st) (requests st) true)))
      (fun _ => throw DBErrorString).

(** [if (!this.db) await this.init();] *)
Definition ensureInit : M unit :=
  opened <- gets (fun s => dbOpen (store s)) ;;
  if opened then ret tt else await init.

Definition addMatch (m : MatchRecord) : M unit :=
  ensureInit ;;
  idbRequest (fun st => (tt, store_add m st)).

Definition clear : M unit :=
  ensureInit ;;
  idbRequest (fun st => (tt, store_clear st)).

Definition getMatchesGrouped : M (gmap jsstring JSValue) :=
  ensureInit ;;
  all <- idbRequest (fun st => (store_getAll st, st)) ;;
  ret (tally w all).

Definition getMatchesForEntity (e : jsstring) : M (list MatchRecord) :=
  ensureInit ;;
  idbRequest (fun st => (index_getAll e st, st)).

End WithWorld.
End LocalDB.

(** ** [db.ts]: the same store through the [idb] wrapper; every
    function opens the database first. *)

Module DbTs.
Section WithWorld.
Variable w : World.
Abbreviation idbRequest := (idbRequest w).

Definition initDB : M unit :=
  idbRequest (fun st => (tt, st)).

Definition addMatch (m : MatchRecord) : M unit :=
  await initDB ;;
  await (idbRequest (fun st => (tt, store_add m st))).

Definition clearMatches : M unit :=
  await initDB ;;
  await (idbRequest (fun st => (tt, store_clear st))).

Definition getMatchesForEntity (e : jsstring) : M (list MatchRecord) :=
  await initDB ;;
  idbRequest (fun st => (index_getAll e st, st)).

Definition getAllEntitiesGrouped : M (gmap jsstring JSValue) :=
  await initDB ;;
  allMatches <- await (idbRequest (fun st => (store_getAll st, st))) ;;
  ret (tally w allMatches).

End WithWorld.
End DbTs.

(** ** The transaction of a request

    [LocalDB.addMatch] and [LocalDB.clear] settle their promise from the
    events of the request alone, lines 37-38 and 48-49; [oncomplete],
    [onabort] and [onerror] of the transaction are never set.  A
    transaction can still abort after its request succeeded, when it is
    committed: what it wrote is undone, the key generator included. *)

Module Tx.
Section WithWorld.
Variable w : World.

(** The error, if any, with which the transaction of the n-th request
    aborts when it is committed, after the request succeeded. *)
Variable commitFault : nat -> option Thrown.

Definition idbTransaction {A} (op : Store -> A * Store) : M A :=
  fun s =>
    let n := requests (store s) in
    let s1 := set_store (fun st => mkStore (records st) (keyGen st) (S n) (dbOpen st)) s in
    match idbFault w n with
    | Some e => (Throw e, s1)                (* [request.onerror] *)
    | None =>
        let '(a, st') := op (store s1) in
        match commitFault n with
        | Some _ => (Ok a, s1)              (* [request.onsuccess], then the abort *)
        | None => (Ok a, set_store (fun _ => st') s1)
        end
    end.

Definition addMatch (m : MatchRecord) : M unit :=
  LocalDB.ensureInit w ;;
  idbTransaction (fun st => (tt, store_add m st)).

Definition clear : M unit :=
  LocalDB.ensureInit w ;;
  idbTransaction (fun st => (tt, store_clear st)).

End WithWorld.
End Tx.

(** ** The scan: [processDirectory] *)

Section Component.
Variable w : World.

Definition refreshStats : M unit :=
  counts <- await (LocalDB.getMatchesGrouped w) ;;
  modify (set_view (setEntityCounts counts)).

(** [name.endsWith(suffix)] *)
Definition endsWith (s suffix : jsstring) : bool :=
  bool_decide (drop (length s - length suffix) s = suffix).

(** The handles [getFilesRecursively] yields, in order. *)
Fixpoint getFilesRecursively (entry : Entry) : list FileHandle :=
  match entry with
  | FileEntry h =>
      if endsWith (toLowerCase w (fh_name h)) (str ".pdf") then [h] else []
  | DirectoryEntry children => flat_map getFilesRecursively children
  end.

(** [parts.join(sep)] *)
Definition join (sep : jsstring) (parts : list jsstring) : jsstring :=
  match parts with
  | [] => []
  | p :: ps => p ++ flat_map (fun q => sep ++ q) ps
  end.

(** Lines 222-236: the loop over the occurrences of one entity. *)
Fixpoint whileExec (fuel : nat) (regex : Matcher.RegExp)
    (fullPageString entity : jsstring) (fh : FileHandle) (pageNum : nat)
  : M unit :=
  match fuel with
  | O => outOfFuel
  | S fuel' =>
      match Matcher.exec (unicodeUpper w) regex fullPageString with
      | (None, _) => ret tt
      | (Some m, regex') =>
          let snippet :=
            snippetOf fullPageString entity (Z.of_nat (Matcher.index m)) in
          t <- gets (fun s => now w (tick s)) ;;
          await (LocalDB.addMatch w
                   (mkMatch entity (fh_name fh) pageNum snippet fh t)) ;;
          modify (fun s => set_matchCount (S (matchCount s)) s) ;;
          whileExec fuel' regex' fullPageString entity fh pageNum
      end
  end.

(** Lines 219-237: [for (const entity of csvContent)]. *)
Fixpoint forEntities (fuel : nat) (entities : list jsstring)
    (fullPageString : jsstring) (fh : FileHandle) (pageNum : nat) : M unit :=
  match entities with
  | [] => ret tt
  | entity :: rest =>
      match Matcher.createExactMatchRegex entity true with
      | None => throw SyntaxError
      | Some regex =>
          whileExec fuel regex fullPageString entity fh pageNum ;;
          forEntities fuel rest fullPageString fh pageNum
      end
  end.

(** Lines 214-238: one page. *)
Definition scanPage (fuel : nat) (entities : list jsstring) (fh : FileHandle)
    (pdf : PDFDocument) (pageNum : nat) : M unit :=
  page <- await (settle (getPage pdf pageNum)) ;;
  textContent <- await (settle (getTextContent page)) ;;
  let fullPageString := join (str " ") (item_str <$> textContent) in
  forEntities fuel entities fullPageString fh pageNum.

(** [for (let pageNum = 1; pageNum <= pdf.numPages; pageNum++)], with
    [todo] pages left from [pageNum] on. *)
Fixpoint forPages (fuel : nat) (entities : list jsstring) (fh : FileHandle)
    (pdf : PDFDocument) (pageNum todo : nat) : M unit :=
  match todo with
  | O => ret tt
  | S todo' =>
      scanPage fuel entities fh pdf pageNum ;;
      forPages fuel entities fh pdf (S pageNum) todo'
  end.

(** Lines 210-240: the body of the inner [try]. *)
Definition scanDocument (fuel : nat) (entities : list jsstring) (fh : FileHandle)
    (arrayBuffer : ArrayBuffer) : M unit :=
  pdf <- await (settle (getDocument w arrayBuffer)) ;;
  forPages fuel entities fh pdf 1 (numPages pdf).

(** Lines 245-249: the progress report after a document. *)
Definition afterDocument : M unit :=
  modify (fun s =>
    set_view (setStats (fun prev =>
      mkStats (filesProcessed prev) (matchCount s) (currentFile prev))) s) ;;
  fc <- gets fileCount ;;
  if (fc mod 5 =? 0)%nat then
    await (ret tt) ;;
    await refreshStats
  else ret tt.

(** Lines 203-249: one turn of the [for await] loop after the check of
    the abort flag. *)
Definition processFile (fuel : nat) (entities : list jsstring) (fh : FileHandle)
  : M unit :=
  modify (fun s => set_fileCount (S (fileCount s)) s) ;;
  modify (fun s =>
    set_view (setStats (fun prev =>
      mkStats (fileCount s) (matchesFound prev) (fh_name fh))) s) ;;
  file <- await (settle (fh_getFile fh)) ;;
  arrayBuffer <- await (settle (file_arrayBuffer file)) ;;
  tryCatch (scanDocument fuel entities fh arrayBuffer)
    (fun e =>
       modify (log (ConsoleError
                 (Some (str "Fehler bei " ++ fh_name fh ++ str ":")) e))) ;;
  afterDocument.

(** Lines 200-250: [for await (const fileHandle of ...)], one suspension
    for each handle asked of the generator. *)
Fixpoint forAwait (fuel : nat) (entities : list jsstring)
    (files : list FileHandle) : M unit :=
  match files with
  | [] => await (ret tt)
  | fileHandle :: rest =>
      await (ret tt) ;;
      aborted <- gets abortControllerRef ;;
      if aborted then ret tt
      else
        processFile fuel entities fileHandle ;;
        forAwait fuel entities rest
  end.

(** Lines 162-257. *)
Definition processDirectory (fuel : nat) (dirHandle : Entry) : M unit :=
  csv <- gets (fun s => csvContent (view s)) ;;
  match csv with
  | [] => modify (show_alert (str "Bitte erst Entities (CSV) laden!"))
  | _ =>
      modify (set_view (setIsProcessing true)) ;;
      modify (set_abort false) ;;
      counts <- gets (fun s => entityCounts (view s)) ;;
      (if bool_decide (0 < size counts)%nat then
         if confirm w (str "Sollen alte Ergebnisse vorher gel" ++ [246]
                         ++ str "scht werden?")
         then
           await (LocalDB.clear w) ;;
           modify (set_view (setEntityCounts ∅)) ;;
           modify (set_view (setActiveEntity None)) ;;
           modify (set_view (setSelectedMatch None))
         else ret tt
       else ret tt) ;;
      modify (set_fileCount 0) ;;
      modify (set_matchCount 0) ;;
      tryFinally
        (tryCatch
           (forAwait fuel csv (getFilesRecursively dirHandle))
           (fun err => modify (log (ConsoleError None err))))
        (modify (set_view (setIsProcessing false)) ;;
         await refreshStats)
  end.

(** Lines 147-160. *)
Definition handleFolderSelect (fuel : nat) : M unit :=
  match showDirectoryPicker w with
  | None =>
      modify (show_alert
                (str "Ihr Browser unterst" ++ [252]
                 ++ str "tzt diese Funktion nicht. Bitte nutzen Sie Chrome, Edge oder Opera."))
  | Some picked =>
      tryCatch
        (dirHandle <- await (settle picked) ;;
         await (processDirectory fuel dirHandle))
        (fun err =>
           modify (log (ConsoleError
                     (Some (str "Zugriff verweigert oder Fehler:")) err)))
  end.


(** ** Rendering a match: [loadAndRenderMatch] *)

(** [tx[i]] in arithmetic: a missing element is [undefined], hence NaN. *)
Definition at_ (tx : Matrix) (i : nat) : float := nth i tx nan.

(** Lines 331-341: the highlight rectangles, one for each text item the
    pattern matches; [0x1.6666666666666p+0] is the number [1.4]. *)
Fixpoint highlightItems (highlightRegex : Matcher.RegExp) (items : list TextItem)
    (viewport : Viewport) (finalScale : float) : list DrawOp :=
  match items with
  | [] => []
  | item :: rest =>
      let '(hit, regex') :=
        Matcher.test (unicodeUpper w) highlightRegex (item_str item) in
      let here :=
        if hit then
          let tx := utilTransform w (vp_transform viewport) (item_transform item) in
          let fontHeight :=
            PrimFloat.sqrt (at_ tx 2 * at_ tx 2 + at_ tx 3 * at_ tx 3)%float in
          let x := at_ tx 4 in
          let y := (at_ tx 5 - fontHeight)%float in
          let w_ := (item_width item * finalScale)%float in
          let h := (item_height item * finalScale)%float in
          [FillRect (str "rgba(255, 255, 0, 0.4)") x y w_ (h * 0x1.6666666666666p+0)%float]
        else [] in
      here ++ highlightItems regex' rest viewport finalScale
  end.

(** Lines 298-342: what follows the permission check inside the [try]. *)
Definition renderPage (match_ : MatchRecord) : M unit :=
  file <- await (settle (fh_getFile (fileHandle match_))) ;;
  arrayBuffer <- await (settle (file_arrayBuffer file)) ;;
  pdf <- await (settle (getDocument w arrayBuffer)) ;;
  page <- await (settle (getPage pdf (pageNumber match_))) ;;
  cv <- gets canvas ;;
  match cv with
  | None => throw (Exception (str "TypeError"))
  | Some _ =>
      availableWidth <- gets (fun s => default 800%float (clientWidth s)) ;;
      zoom <- gets (fun s => zoomLevel (view s)) ;;
      let viewportUnscaled := getViewport page 1%float in
      let fitWidthScale := ((availableWidth - 80) / vp_width viewportUnscaled)%float in
      let finalScale := (fitWidthScale * zoom)%float in
      let viewport := getViewport page finalScale in
      modify (set_canvas (fun _ =>
                Some (mkCanvas (vp_width viewport) (vp_height viewport) []))) ;;
      await (settle (page_render page)) ;;
      modify (set_canvas (fmap (fun c =>
                mkCanvas (cv_width c) (cv_height c)
                  (cv_ops c ++ [DrawPage page viewport])))) ;;
      textContent <- await (settle (getTextContent page)) ;;
      match Matcher.createExactMatchRegex (entity match_) false with
      | None => throw SyntaxError
      | Some highlightRegex =>
          modify (set_canvas (fmap (fun c =>
                    mkCanvas (cv_width c) (cv_height c)
                      (cv_ops c ++ highlightItems highlightRegex textContent
                                     viewport finalScale))))
      end
  end.

(** Lines 286-348. *)
Definition loadAndRenderMatch (match_ : MatchRecord) : M unit :=
  modify (set_view (setSelectedMatch (Some match_))) ;;
  ready <- gets (fun s => pdfLibReady (view s)) ;;
  cv <- gets canvas ;;
  if negb ready || negb (bool_decide (is_Some cv)) then ret tt
  else
    tryCatch
      (permission <- await (settle (fh_queryPermission (fileHandle match_))) ;;
       match permission with
       | Granted => renderPage match_
       | _ =>
           request <- await (settle (fh_requestPermission (fileHandle match_))) ;;
           match request with
           | Granted => renderPage match_
           | _ => ret tt
           end
       end)
      (fun err =>
         modify (log (ConsoleError (Some (str "Fehler beim Laden der Datei:")) err)) ;;
         modify (show_alert
                   (str "Datei konnte nicht geladen werden. Wurde sie verschoben?")))
.

End Component.

(** ** Choosing an entity: [handleSelectEntity] *)

Section Selection.
Variable w : World.

(** Lines 275-284.  The handler sees [activeEntity] as the page shows
    it.  Its result is what it hands to [setActiveMatches]; when it
    rejects, that setter is not reached and the list shown stays as it
    was. *)
Definition handleSelectEntity (entity : jsstring) : M (list MatchRecord) :=
  active <- gets (fun s => activeEntity (view s)) ;;
  if bool_decide (active = Some entity) then
    modify (set_view (setActiveEntity None)) ;;
    ret []
  else
    modify (set_view (setActiveEntity (Some entity))) ;;
    matches <- await (LocalDB.getMatchesForEntity w entity) ;;
    ret matches.

End Selection.

(** ** The entity list: [handleCsvUpload] *)

(** WhiteSpace and LineTerminator of the language, which [trim] strips:
    TAB, LF, VT, FF, CR, SP, NBSP, the other space separators, LS, PS
    and the byte order mark. *)
Definition isWhiteSpace (c : Z) : bool :=
  (c =? 9) || (c =? 10) || (c =? 11) || (c =? 12) || (c =? 13) || (c =? 32) ||
  (c =? 160) || (c =? 5760) || ((8192 <=? c) && (c <=? 8202)) ||
  (c =? 8232) || (c =? 8233) || (c =? 8239) || (c =? 8287) || (c =? 12288) ||
  (c =? 65279).

Fixpoint trimStart (s : jsstring) : jsstring :=
  match s with
  | c :: rest => if isWhiteSpace c then trimStart rest else s
  | [] => []
  end.

Definition trimEnd (s : jsstring) : jsstring :=
  reverse (trimStart (reverse s)).

(** [s.trim()] *)
Definition trim (s : jsstring) : jsstring := trimEnd (trimStart s).

(** The class [[\n,]] *)
Definition isSeparator (c : Z) : bool := (c =? 10) || (c =? 44).

(** [text.split(/[\n,]/)]: the pieces between the separators, empty
    ones included; the empty text has the one piece [""]. *)
Fixpoint splitText (text : jsstring) : list jsstring :=
  match text with
  | [] => [[]]
  | c :: rest =>
      if isSeparator c then [] :: splitText rest
      else
        match splitText rest with
        | piece :: pieces => (c :: piece) :: pieces
        | [] => [[c]]
        end
  end.

(** [text.split(/[\n,]/).map(s => s.trim()).filter(s => s.length > 0)] *)
Definition parseEntities (text : jsstring) : list jsstring :=
  filter (fun s => 0 < jslength s) (trim <$> splitText text).

Definition setCsvContent (entities : list jsstring) (v : View) : View :=
  mkView entities (isProcessing v) (stats v) (entityCounts v) (activeEntity v)
    (selectedMatch v) (zoomLevel v) (pdfLibReady v).

(** Lines 263-273.  [file] is [e.target.files?.[0]] together with what
    reading it as text gives; the handler returns at once and [onload]
    runs in a later turn; no handler is registered for a failed read. *)
Definition handleCsvUpload (file : option (Outcome jsstring)) : M unit :=
  match file with
  | None => ret tt
  | Some (Rejected _) => await (ret tt)
  | Some (Resolved text) =>
      await (modify (set_view (setCsvContent (parseEntities text))))
  end.

(** ** A small world for examples

    A decoder for which the bytes of a file are the text of its single
    page, and an empty file is not a document; upper-casing that leaves
    every code unit from 128 on alone; no failing request. *)

Module Example.

Definition viewportAt (scale : float) : Viewport :=
  mkViewport (612 * scale)%float (792 * scale)%float
    [scale; 0%float; 0%float; (- scale)%float; 0%float; (792 * scale)%float].

Definition pageOf (text : jsstring) : PDFPage :=
  mkPage viewportAt (Resolved tt)
    (Resolved [mkItem text [1; 0; 0; 1; 72; 700]%float 120%float 12%float]).

Definition decode (b : ArrayBuffer) : Outcome PDFDocument :=
  match buffer_bytes b with
  | [] => Rejected (Exception (str "InvalidPDFException"))
  | text =>
      Resolved (mkPDF 1 (fun n =>
        if (n =? 1)%nat then Resolved (pageOf text)
        else Rejected (Exception (str "Invalid page request"))))
  end.

(** [Util.transform] of pdf.js. *)
Definition transform (m1 m2 : Matrix) : Matrix :=
  let a i := nth i m1 nan in
  let b i := nth i m2 nan in
  [a 0%nat * b 0%nat + a 2%nat * b 1%nat; a 1%nat * b 0%nat + a 3%nat * b 1%nat;
   a 0%nat * b 2%nat + a 2%nat * b 3%nat; a 1%nat * b 2%nat + a 3%nat * b 3%nat;
   a 0%nat * b 4%nat + a 2%nat * b 5%nat + a 4%nat;
   a 1%nat * b 4%nat + a 3%nat * b 5%nat + a 5%nat]%float.

Definition worldWith (faults : nat -> option Thrown)
    (picked : option (Outcome Entry)) : World :=
  mkWorld (fun c => [c]) (fun s => s)
    (fun key =>
       str "function "
       ++ (if bool_decide (key = str "constructor") then str "Object" else key)
       ++ str "() { [native code] }")
    decode transform (fun t => 1700000000000 + Z.of_nat t)
    faults (fun _ => true) picked.

Definition world : World := worldWith (fun _ => None) None.

(** The n-th request to IndexedDB fails. *)
Definition failing (n : nat) (k : nat) : option Thrown :=
  if (k =? n)%nat then Some (Exception (str "QuotaExceededError")) else None.

Definition pdf (name content : string) : FileHandle :=
  mkHandle (str name) (Resolved (mkFile (Resolved (mkBuffer (str content)))))
    (Resolved Granted) (Resolved Granted).

(** A handle whose permission has lapsed and is not granted again. *)
Definition lockedPdf (name content : string) : FileHandle :=
  mkHandle (str name) (Resolved (mkFile (Resolved (mkBuffer (str content)))))
    (Resolved Prompt) (Resolved Denied).

Definition emptyStore : Store := mkStore [] 1 0 true.

Definition initial (entities : list jsstring) : State :=
  mkState emptyStore
    (mkView entities false (mkStats 0 0 []) ∅ None None 1%float true)
    false (Some (mkCanvas 300%float 150%float [])) (Some 1000%float)
    [] [] 0 0 0 None.

Definition withRecords (ms : list MatchRecord) (s : State) : State :=
  set_store (fun st => foldl (fun st m => store_add m st) st ms) s.

Definition recordOf (e : string) (fh : FileHandle) : MatchRecord :=
  mkMatch (str e) (fh_name fh) 1 (str "..." ++ str e ++ str "...") fh 0.

(** A folder with a document of one page, an empty file that is not a
    document, a text file, and a subfolder with one more document. *)
Definition folder : Entry :=
  DirectoryEntry
    [FileEntry (pdf "a.pdf" "The Catalog cat sat on a (cat).");
     FileEntry (pdf "broken.pdf" "");
     FileEntry (pdf "notes.txt" "cat");
     DirectoryEntry [FileEntry (pdf "b.pdf" "Cat, concat; cat")]].

(** The state [s] with Stop to be clicked during suspension [t]. *)
Definition stoppingAt (t : nat) (s : State) : State :=
  mkState (store s) (view s) (abortControllerRef s) (canvas s) (clientWidth s)
    (console s) (alerts s) (fileCount s) (matchCount s) (tick s) (Some t).

(** The folder is picked, no request fails. *)
Definition scanWorld : World :=
  worldWith (fun _ => None) (Some (Resolved folder)).

(** The folder is picked, the second request to the store fails. *)
Definition faultyWorld : World :=
  worldWith (failing 1) (Some (Resolved folder)).

Definition entities : list jsstring := [str "cat"; str "(cat)"].

End Example.


(** * Properties *)

(** ** The Matcher *)

Module MatcherFacts.
Import Matcher.

Definition boundary (b : bool) : list Node :=
  if b then [WordBoundary] else [].

(** The program a pattern built by [createExactMatchRegex] compiles to. *)
Definition programOf (entity : jsstring) : list Node :=
  boundary (startsWithWord entity) ++ map Char entity ++
  boundary (endsWithWord entity).

Lemma isSpecial_isSyntaxChar c : isSpecial c = isSyntaxChar c.
Proof.
  unfold isSpecial, isSyntaxChar.
  repeat match goal with
         | |- context [Z.eqb c ?k] => destruct (Z.eqb_spec c k); subst
         end; reflexivity.
Qed.

Lemma parse_boundary rest :
  parsePattern (str "\b" ++ rest) = cons WordBoundary <$> parsePattern rest.
Proof. reflexivity. Qed.

Lemma parse_escaped entity rest :
  parsePattern (escapeRegExp entity ++ rest)
  = (fun k => map Char entity ++ k) <$> parsePattern rest.
Proof.
  induction entity as [|c entity IH]; simpl.
  - by destruct (parsePattern rest).
  - destruct (isSpecial c) eqn:Hs; simpl.
    + rewrite isSpecial_isSyntaxChar in Hs. rewrite Hs.
      assert ((c =? 98) = false) as ->.
      { unfold isSyntaxChar in Hs. destruct (Z.eqb_spec c 98); [subst; discriminate|done]. }
      fold (escapeRegExp entity). rewrite IH. by destruct (parsePattern rest).
    + assert ((c =? 92) = false) as ->.
      { unfold isSpecial in Hs. destruct (Z.eqb_spec c 92); [subst; discriminate|done]. }
      rewrite isSpecial_isSyntaxChar in Hs. rewrite Hs.
      fold (escapeRegExp entity). rewrite IH. by destruct (parsePattern rest).
Qed.

Lemma parse_boundary_if (b : bool) rest :
  parsePattern ((if b then str "\b" else []) ++ rest)
  = (fun k => boundary b ++ k) <$> parsePattern rest.
Proof.
  destruct b; [rewrite parse_boundary|]; simpl; by destruct (parsePattern rest).
Qed.

(** The constructor never rejects a pattern built from an entity, and
    every character of the entity, special or not, becomes a literal. *)
Lemma createExactMatchRegex_program entity g :
  createExactMatchRegex entity g = Some (mkRegExp (programOf entity) g true 0).
Proof.
  unfold createExactMatchRegex, newRegExp, programOf.
  rewrite parse_boundary_if, parse_escaped.
  rewrite <- (app_nil_r (if endsWithWord entity then _ else _)).
  rewrite parse_boundary_if. simpl. by rewrite app_nil_r.
Qed.

Section Engine.
Variable unicodeUpper : Z -> jsstring.

Abbreviation canon := (Canonicalize unicodeUpper true).
Local Arguments Canonicalize : simpl never.

Lemma isWordChar_spec x :
  isWordChar x = true <->
  48 <= x <= 57 \/ 65 <= x <= 90 \/ 97 <= x <= 122 \/ x = 95.
Proof.
  unfold isWordChar.
  rewrite !orb_true_iff, !andb_true_iff, !Z.leb_le, Z.eqb_eq. tauto.
Qed.

Lemma canon_ascii x :
  x < 128 -> canon x = if (97 <=? x) && (x <=? 122) then x - 32 else x.
Proof.
  intros Hx. unfold Canonicalize, toUpperCase1.
  destruct (Z.ltb_spec x 128); [|lia].
  destruct (Z.leb_spec 128 x); [lia|]. done.
Qed.

Lemma canon_nonascii x : 128 <= x -> 128 <= canon x.
Proof.
  intros Hx. unfold Canonicalize, toUpperCase1.
  destruct (Z.ltb_spec x 128); [lia|].
  destruct (unicodeUpper x) as [|cu [|? ?]]; [done| |done].
  destruct (Z.leb_spec 128 x); [|lia]. cbn [andb].
  by destruct (Z.ltb_spec cu 128).
Qed.

Lemma canon_ascii_word x :
  x < 128 -> isWordChar (canon x) = true <-> isWordChar x = true.
Proof.
  intros Hx. rewrite canon_ascii by done. rewrite !isWordChar_spec.
  destruct ((97 <=? x) && (x <=? 122)) eqn:Hl.
  - apply andb_true_iff in Hl as [H1%Z.leb_le H2%Z.leb_le]. lia.
  - done.
Qed.

(** A code unit that folds to the same canonical character as an ASCII
    word character is itself an ASCII word character: the guard of
    Canonicalize keeps non-ASCII characters out of the ASCII range. *)
Lemma canon_word d c :
  isWordChar c = true -> canon d = canon c -> isWordChar d = true.
Proof.
  intros Hc Heq.
  assert (c < 128) as Hlt by (apply isWordChar_spec in Hc; lia).
  assert (canon c < 128) as Hcc.
  { rewrite canon_ascii by done. destruct (_ && _); lia. }
  assert (d < 128) as Hd.
  { destruct (Z.lt_ge_cases d 128) as [?|Hge]; [done|].
    apply canon_nonascii in Hge. lia. }
  apply canon_ascii_word; [done|]. rewrite Heq. by apply canon_ascii_word.
Qed.

(** What a successful run of the literal part of a program says. *)
Lemma matchNodes_chars entity k s i e :
  (i <= length s)%nat ->
  matchNodes unicodeUpper true (map Char entity ++ k) s i = Some e ->
  canon <$> take (length entity) (drop i s) = canon <$> entity /\
  (i + length entity <= length s)%nat /\
  matchNodes unicodeUpper true k s (i + length entity) = Some e.
Proof.
  revert i. induction entity as [|c entity IH]; intros i Hi.
  - simpl. rewrite Nat.add_0_r. intros H. by rewrite ?take_0.
  - cbn [map app matchNodes length].
    destruct (s !! i) as [d|] eqn:Hd; [|done].
    destruct (Z.eqb_spec (canon d) (canon c)) as [Heq|]; [|done].
    intros H. apply lookup_lt_Some in Hd as Hlt.
    apply IH in H as (Hw & Hlen & Hk); [|lia].
    rewrite (drop_S _ _ _ Hd). cbn [take]. rewrite !fmap_cons, Hw, Heq.
    replace (i + S (length entity))%nat with (S i + length entity)%nat by lia.
    split; [done|]. split; [lia|done].
Qed.

Lemma matchNodes_boundary b k s i e :
  matchNodes unicodeUpper true (boundary b ++ k) s i = Some e ->
  (b = true -> xorb (isWordBefore s i) (isWordAt s i) = true) /\
  matchNodes unicodeUpper true k s i = Some e.
Proof.
  destruct b; simpl; [|done].
  destruct (xorb _ _); [done|done].
Qed.

Definition boundaryOk (entity text : jsstring) (i : nat) : Prop :=
  (startsWithWord entity = true -> isWordBefore text i = false) /\
  (endsWithWord entity = true -> isWordAt text (i + length entity) = false).

Record Occurrence (entity text : jsstring) (m : ExecResult) : Prop := {
  occ_inside : (index m + length entity <= length text)%nat;
  occ_text : matched m = take (length entity) (drop (index m) text);
  occ_fold : canon <$> matched m = canon <$> entity;
  occ_boundary : boundaryOk entity text (index m)
}.

Lemma matchNodes_program entity s i e :
  (i <= length s)%nat ->
  matchNodes unicodeUpper true (programOf entity) s i = Some e ->
  e = (i + length entity)%nat /\
  (i + length entity <= length s)%nat /\
  canon <$> take (length entity) (drop i s) = canon <$> entity /\
  boundaryOk entity s i.
Proof.
  intros Hi H. unfold programOf in H.
  apply matchNodes_boundary in H as [Hb1 H].
  apply matchNodes_chars in H as (Hw & Hlen & H); [|done].
  rewrite <- (app_nil_r (boundary _)) in H.
  apply matchNodes_boundary in H as [Hb2 H]. simpl in H.
  split; [congruence|]. split; [done|]. split; [done|]. split.
  - intros Hs. specialize (Hb1 Hs).
    destruct entity as [|c entity]; [done|]. simpl in Hs, Hlen, Hw.
    destruct (lookup_lt_is_Some_2 s i) as [d Hd]; [lia|].
    rewrite (drop_S _ _ _ Hd) in Hw. cbn [take] in Hw.
    rewrite !fmap_cons in Hw. injection Hw as Hc _.
    unfold isWordAt in Hb1. rewrite Hd, (canon_word d c Hs Hc) in Hb1.
    by destruct (isWordBefore s i).
  - intros He. specialize (Hb2 He). unfold endsWithWord in He.
    destruct (last entity) as [c|] eqn:Hl; [|done].
    apply last_Some in Hl as [entity' ->].
    rewrite length_app in *. simpl in *.
    destruct (lookup_lt_is_Some_2 s (i + length entity')) as [d Hd]; [lia|].
    assert (canon d = canon c) as Hc.
    { apply (f_equal (fun l => l !! length entity')) in Hw.
      rewrite !list_lookup_fmap in Hw.
      rewrite lookup_take_lt, lookup_drop, Hd in Hw by lia.
      rewrite lookup_app_r, Nat.sub_diag in Hw by lia.
      simpl in Hw. congruence. }
    replace (i + (length entity' + 1))%nat
      with (S (i + length entity')) in * by lia.
    simpl in Hb2. unfold isWordAt at 1 in Hb2.
    rewrite Hd, (canon_word d c He Hc) in Hb2.
    by destruct (isWordAt s (S (i + length entity'))).
Qed.

Lemma search_Some ic prog s i n j e :
  search unicodeUpper ic prog s i n = Some (j, e) ->
  (i <= j < i + n)%nat /\ matchNodes unicodeUpper ic prog s j = Some e.
Proof.
  revert i. induction n as [|n IH]; intros i; simpl; [done|].
  destruct (matchNodes unicodeUpper ic prog s i) as [e'|] eqn:Hm.
  - intros [= <- <-]. split; [lia|done].
  - intros H. apply IH in H as [? ?]. split; [lia|done].
Qed.

(** One successful call of [exec] on the global expression of an
    entity: the occurrence it reports and where [lastIndex] moves. *)
Lemma exec_Some entity li s m R' :
  exec unicodeUpper (mkRegExp (programOf entity) true true li) s = (Some m, R') ->
  R' = mkRegExp (programOf entity) true true (index m + length entity) /\
  (li <= index m)%nat /\ Occurrence entity s m.
Proof.
  unfold exec. simpl.
  destruct (search _ _ _ _ _ _) as [[i e]|] eqn:Hs; [|done].
  intros [= <- <-]. simpl.
  apply search_Some in Hs as [Hr Hm].
  apply matchNodes_program in Hm as (-> & Hlen & Hw & Hb); [|lia].
  replace (i + length entity - i)%nat with (length entity) by lia.
  split; [done|]. split; [lia|]. by constructor.
Qed.

Lemma execAll_sound entity s fuel li ms :
  execAll unicodeUpper fuel (mkRegExp (programOf entity) true true li) s = Some ms ->
  Forall (Occurrence entity s) ms /\
  Forall (fun m => (li <= index m)%nat) ms /\
  StronglySorted (fun a b => (index a + length entity <= index b)%nat) ms.
Proof.
  revert li ms. induction fuel as [|fuel IH]; intros li ms; simpl; [done|].
  destruct (exec _ _ _) as [[m|] R'] eqn:He.
  - apply exec_Some in He as (-> & Hli & Hocc).
    destruct (execAll _ _ _ _) as [ms'|] eqn:Hall; [|done].
    intros [= <-]. apply IH in Hall as (Ho & Hl & Hs).
    split; [by constructor|]. split.
    + constructor; [done|]. eapply Forall_impl; [exact Hl|]. simpl. lia.
    + constructor; [done|]. eapply Forall_impl; [exact Hl|]. simpl. lia.
  - intros [= <-]. repeat split; constructor.
Qed.

Lemma execAll_mono fuel fuel' R s ms :
  (fuel <= fuel')%nat ->
  execAll unicodeUpper fuel R s = Some ms ->
  execAll unicodeUpper fuel' R s = Some ms.
Proof.
  revert fuel' R ms. induction fuel as [|fuel IH]; intros fuel' R ms Hle; [done|].
  destruct fuel' as [|fuel']; [lia|]. simpl.
  destruct (exec _ _ _) as [[m|] R']; [|done].
  destruct (execAll _ fuel _ _) as [ms'|] eqn:Hall; [|done].
  intros [= <-]. by rewrite (IH fuel' R' ms') by (done || lia).
Qed.

Lemma execAll_total entity s fuel li :
  entity <> [] ->
  (0 < fuel)%nat -> (length s + 2 <= fuel + li)%nat ->
  is_Some (execAll unicodeUpper fuel
             (mkRegExp (programOf entity) true true li) s).
Proof.
  intros Hne. assert (0 < length entity)%nat as Hpos.
  { destruct entity; [done|simpl; lia]. }
  revert li. induction fuel as [|fuel IH]; intros li H0 Hfuel; [lia|].
  simpl. destruct (exec _ _ _) as [[m|] R'] eqn:He; [|by eexists].
  apply exec_Some in He as (-> & Hli & [Hin _ _ _]).
  destruct (IH (index m + length entity)%nat) as [ms Hms]; [lia|lia|].
  rewrite Hms. by eexists.
Qed.

End Engine.

(** Soundness of the extraction: for every entity and every text, the
    occurrences extracted by
    running [exec] on the global pattern until it returns [null] are
    pairwise non-overlapping (each one ends before the next starts), and
    each occurrence lies inside the text, has the length of the entity,
    is the entity up to case folding whatever special characters the
    entity holds, is not preceded by a word character when the entity
    starts with one, and is not followed by a word character when the
    entity ends with one. *)
Theorem findAll_occurrences unicodeUpper fuel entity text ms :
  findAll unicodeUpper fuel entity text = Some ms ->
  StronglySorted (fun a b => (index a + length entity <= index b)%nat) ms /\
  Forall (Occurrence unicodeUpper entity text) ms.
Proof.
  unfold findAll. rewrite createExactMatchRegex_program. simpl.
  intros H. apply execAll_sound in H as (? & _ & ?). done.
Qed.

(** For a non-empty entity every successful [exec] moves [lastIndex]
    strictly forward, to the end of an occurrence of the entity's
    length, and the extraction loop returns: a fuel of the text length
    plus two, or any larger one, yields the list of occurrences. *)
Lemma findAll_total unicodeUpper entity text :
  entity <> [] ->
  (forall li m R',
     exec unicodeUpper (mkRegExp (programOf entity) true true li) text
       = (Some m, R') ->
     lastIndex R' = (index m + length entity)%nat /\
     (li < lastIndex R' <= length text)%nat /\
     length (matched m) = length entity) /\
  exists ms, forall fuel, (length text + 2 <= fuel)%nat ->
    findAll unicodeUpper fuel entity text = Some ms.
Proof.
  intros Hne. assert (0 < length entity)%nat as Hpos.
  { destruct entity; [done|simpl; lia]. }
  split.
  - intros li m R' He. apply exec_Some in He as (-> & Hli & [Hin Ht _ _]).
    simpl. split; [done|]. split; [lia|].
    rewrite Ht, length_take, length_drop. lia.
  - destruct (execAll_total unicodeUpper entity text (length text + 2) 0 Hne)
      as [ms Hms]; [lia|lia|].
    exists ms. intros fuel Hfuel. unfold findAll.
    rewrite createExactMatchRegex_program. simpl.
    by apply (execAll_mono unicodeUpper (length text + 2)).
Qed.

End MatcherFacts.

(** ** Snippets *)

Module SnippetFacts.

Lemma substring_length s a b :
  jslength (substring s a b)
  = Z.max (Z.min (Z.max a 0) (jslength s)) (Z.min (Z.max b 0) (jslength s))
    - Z.min (Z.min (Z.max a 0) (jslength s)) (Z.min (Z.max b 0) (jslength s)).
Proof.
  unfold substring, jslength. rewrite length_take, length_drop. lia.
Qed.

(** In range and in order, [substring] is the plain slice. *)
Lemma substring_slice s a b :
  0 <= a <= b -> b <= jslength s ->
  substring s a b = take (Z.to_nat (b - a)) (drop (Z.to_nat a) s).
Proof.
  intros Ha Hb. unfold substring.
  replace (Z.min (Z.max a 0) (jslength s)) with a by lia.
  replace (Z.min (Z.max b 0) (jslength s)) with b by lia.
  by replace (Z.min a b) with a by lia; replace (Z.max a b) with b by lia.
Qed.

Lemma substring_split s a b c :
  0 <= a <= b -> b <= c -> c <= jslength s ->
  substring s a c = substring s a b ++ substring s b c.
Proof.
  intros Ha Hb Hc. rewrite !substring_slice by lia.
  replace (Z.to_nat (c - a)) with (Z.to_nat (b - a) + Z.to_nat (c - b))%nat by lia.
  rewrite <- take_take_drop, drop_drop. do 3 f_equal. lia.
Qed.

Lemma str_dots_length : length (str "...") = 3%nat.
Proof. reflexivity. Qed.

Lemma snippet_length fullPageString entity index :
  jslength (snippetOf fullPageString entity index) <= jslength entity + 60 + 6.
Proof.
  unfold snippetOf.
  pose proof (substring_length fullPageString (snippetStart index)
                (snippetEnd fullPageString entity index)) as Hs.
  unfold jslength in *. rewrite !length_app, str_dots_length.
  unfold snippetStart, snippetEnd, jslength in *. lia.
Qed.

(** C9: for a match at index 0 the left context is empty and the
    snippet is the literal ellipsis followed by the text from its very
    start; and for every match index inside the page text, however
    close to either end, the bounds handed to [substring] are in order
    and inside the text, so that the snippet is the ellipsis, the left
    context, the text from the match on, and the ellipsis. *)
Theorem snippet_boundaries fullPageString entity index :
  0 <= index <= jslength fullPageString ->
  let start := snippetStart index in
  let end_ := snippetEnd fullPageString entity index in
  (0 <= start <= index /\ index <= end_ <= jslength fullPageString) /\
  snippetOf fullPageString entity index
    = str "..." ++ substring fullPageString start index
        ++ substring fullPageString index end_ ++ str "..." /\
  (index = 0 ->
     substring fullPageString start index = [] /\
     snippetOf fullPageString entity index
       = str "..." ++ take (Z.to_nat end_) fullPageString ++ str "...").
Proof.
  intros Hi start end_.
  assert (0 <= start <= index /\ index <= end_ <= jslength fullPageString) as Hb.
  { unfold start, end_, snippetStart, snippetEnd, jslength in *. lia. }
  split; [exact Hb|]. split.
  - unfold snippetOf. fold start end_.
    rewrite (substring_split _ start index end_) by lia.
    by rewrite <- !app_assoc.
  - intros ->. assert (start = 0) as Hs by (unfold start, snippetStart; lia).
    rewrite Hs. split; [by rewrite substring_slice by lia|].
    unfold snippetOf. fold end_. replace (snippetStart 0) with 0 by done.
    rewrite substring_slice by lia. simpl. by rewrite Z.sub_0_r.
Qed.

End SnippetFacts.

(** ** The grouped counts *)

Module CountFacts.
Section WithWorld.
Variable w : World.

(** Keys that [counts] inherits from [Object.prototype]. *)
Definition inheritedKey (key : jsstring) : Prop :=
  key ∈ objectPrototypeMethods \/ key = protoKey.

Definition countOf (e : jsstring) (all : list MatchRecord) : nat :=
  length (filter (fun m => entity m = e) all).

(** A count as an own property: absent when zero. *)
Definition counted (n : nat) : option JSValue :=
  match n with
  | O => None
  | S _ => Some (VNum (Z.of_nat n))
  end.

Definition tallyStep (counts : gmap jsstring JSValue) (m : MatchRecord) :=
  setProp counts (entity m) (orZeroPlusOne w (getProp counts (entity m))).

Lemma tallyStep_counted counts (c : jsstring -> nat) m :
  ~ inheritedKey (entity m) ->
  (forall e, counts !! e = counted (c e)) ->
  forall e, tallyStep counts m !! e
            = counted (c e + (if decide (entity m = e) then 1 else 0)).
Proof.
  intros Hk Hc e. unfold tallyStep, setProp, getProp.
  rewrite bool_decide_eq_false_2 by (intros ?; apply Hk; by right).
  rewrite Hc. destruct (decide (entity m = e)) as [Heq|Hne].
  - rewrite Heq in *. rewrite lookup_insert_eq.
    destruct (c e) as [|n] eqn:Hn; simpl.
    + rewrite bool_decide_eq_false_2 by (intros ?; apply Hk; by left).
      done.
    + replace (n + 1)%nat with (S n) by lia. simpl.
      do 2 f_equal. lia.
  - rewrite lookup_insert_ne by done. rewrite Hc. by rewrite Nat.add_0_r.
Qed.

Lemma foldl_tally all : forall counts (c : jsstring -> nat),
  Forall (fun m => ~ inheritedKey (entity m)) all ->
  (forall e, counts !! e = counted (c e)) ->
  forall e, foldl tallyStep counts all !! e = counted (c e + countOf e all).
Proof.
  induction all as [|m all IH]; intros counts c Hall Hc e; simpl.
  - unfold countOf. simpl. by rewrite Nat.add_0_r.
  - inversion Hall as [|? ? Hm Hall']; subst.
    rewrite (IH _ (fun e => c e + (if decide (entity m = e) then 1 else 0))%nat);
      [|done|by apply tallyStep_counted].
    f_equal. unfold countOf. rewrite filter_cons.
    destruct (decide (entity m = e)); simpl; lia.
Qed.

(** Away from the keys of [Object.prototype], the tally is the number
    of records of each entity, and entities without records have no key. *)
Lemma tally_counts all e :
  Forall (fun m => ~ inheritedKey (entity m)) all ->
  tally w all !! e = counted (countOf e all).
Proof.
  intros Hall.
  apply (foldl_tally all ∅ (fun _ => 0%nat) Hall). intros. by rewrite lookup_empty.
Qed.

(** With records for two entities only, neither of them a key of
    [Object.prototype], the tally is exactly the two counts. *)
Lemma tally_two X Y all :
  X <> Y -> ~ inheritedKey X -> ~ inheritedKey Y ->
  Forall (fun m => entity m = X \/ entity m = Y) all ->
  (0 < countOf X all)%nat -> (0 < countOf Y all)%nat ->
  tally w all
  = {[ X := VNum (Z.of_nat (countOf X all)); Y := VNum (Z.of_nat (countOf Y all)) ]}.
Proof.
  intros Hne HX HY Hall HnX HnY. apply map_eq. intros e.
  rewrite tally_counts.
  2:{ eapply Forall_impl; [exact Hall|]. intros m [->| ->]; done. }
  destruct (decide (e = X)) as [->|HeX].
  - rewrite lookup_insert_eq. destruct (countOf X all); [lia|done].
  - rewrite lookup_insert_ne by done. destruct (decide (e = Y)) as [->|HeY].
    + rewrite lookup_singleton_eq. destruct (countOf Y all); [lia|done].
    + rewrite lookup_singleton_ne by done.
      assert (countOf e all = 0%nat) as ->; [|done].
      unfold countOf. clear -Hall HeX HeY.
      induction Hall as [|m all Hm Hall IH]; [done|].
      rewrite filter_cons. destruct (decide (entity m = e)) as [<-|]; [|done].
      by destruct Hm.
Qed.

End WithWorld.
End CountFacts.

Create Rewrite HintDb state.

(** ** Projections of the updates of the state *)

Lemma store_set_store f s : store (set_store f s) = f (store s). Proof. reflexivity. Qed.
Lemma view_set_store f s : view (set_store f s) = view s. Proof. reflexivity. Qed.
Lemma abortControllerRef_set_store f s : abortControllerRef (set_store f s) = abortControllerRef s. Proof. reflexivity. Qed.
Lemma canvas_set_store f s : canvas (set_store f s) = canvas s. Proof. reflexivity. Qed.
Lemma clientWidth_set_store f s : clientWidth (set_store f s) = clientWidth s. Proof. reflexivity. Qed.
Lemma console_set_store f s : console (set_store f s) = console s. Proof. reflexivity. Qed.
Lemma alerts_set_store f s : alerts (set_store f s) = alerts s. Proof. reflexivity. Qed.
Lemma fileCount_set_store f s : fileCount (set_store f s) = fileCount s. Proof. reflexivity. Qed.
Lemma matchCount_set_store f s : matchCount (set_store f s) = matchCount s. Proof. reflexivity. Qed.
Lemma tick_set_store f s : tick (set_store f s) = tick s. Proof. reflexivity. Qed.
Lemma stopAt_set_store f s : stopAt (set_store f s) = stopAt s. Proof. reflexivity. Qed.
Lemma store_set_view f s : store (set_view f s) = store s. Proof. reflexivity. Qed.
Lemma view_set_view f s : view (set_view f s) = f (view s). Proof. reflexivity. Qed.
Lemma abortControllerRef_set_view f s : abortControllerRef (set_view f s) = abortControllerRef s. Proof. reflexivity. Qed.
Lemma canvas_set_view f s : canvas (set_view f s) = canvas s. Proof. reflexivity. Qed.
Lemma clientWidth_set_view f s : clientWidth (set_view f s) = clientWidth s. Proof. reflexivity. Qed.
Lemma console_set_view f s : console (set_view f s) = console s. Proof. reflexivity. Qed.
Lemma alerts_set_view f s : alerts (set_view f s) = alerts s. Proof. reflexivity. Qed.
Lemma fileCount_set_view f s : fileCount (set_view f s) = fileCount s. Proof. reflexivity. Qed.
Lemma matchCount_set_view f s : matchCount (set_view f s) = matchCount s. Proof. reflexivity. Qed.
Lemma tick_set_view f s : tick (set_view f s) = tick s. Proof. reflexivity. Qed.
Lemma stopAt_set_view f s : stopAt (set_view f s) = stopAt s. Proof. reflexivity. Qed.
Lemma store_set_abort b s : store (set_abort b s) = store s. Proof. reflexivity. Qed.
Lemma view_set_abort b s : view (set_abort b s) = view s. Proof. reflexivity. Qed.
Lemma abortControllerRef_set_abort b s : abortControllerRef (set_abort b s) = b. Proof. reflexivity. Qed.
Lemma canvas_set_abort b s : canvas (set_abort b s) = canvas s. Proof. reflexivity. Qed.
Lemma clientWidth_set_abort b s : clientWidth (set_abort b s) = clientWidth s. Proof. reflexivity. Qed.
Lemma console_set_abort b s : console (set_abort b s) = console s. Proof. reflexivity. Qed.
Lemma alerts_set_abort b s : alerts (set_abort b s) = alerts s. Proof. reflexivity. Qed.
Lemma fileCount_set_abort b s : fileCount (set_abort b s) = fileCount s. Proof. reflexivity. Qed.
Lemma matchCount_set_abort b s : matchCount (set_abort b s) = matchCount s. Proof. reflexivity. Qed.
Lemma tick_set_abort b s : tick (set_abort b s) = tick s. Proof. reflexivity. Qed.
Lemma stopAt_set_abort b s : stopAt (set_abort b s) = stopAt s. Proof. reflexivity. Qed.
Lemma store_set_canvas f s : store (set_canvas f s) = store s. Proof. reflexivity. Qed.
Lemma view_set_canvas f s : view (set_canvas f s) = view s. Proof. reflexivity. Qed.
Lemma abortControllerRef_set_canvas f s : abortControllerRef (set_canvas f s) = abortControllerRef s. Proof. reflexivity. Qed.
Lemma canvas_set_canvas f s : canvas (set_canvas f s) = f (canvas s). Proof. reflexivity. Qed.
Lemma clientWidth_set_canvas f s : clientWidth (set_canvas f s) = clientWidth s. Proof. reflexivity. Qed.
Lemma console_set_canvas f s : console (set_canvas f s) = console s. Proof. reflexivity. Qed.
Lemma alerts_set_canvas f s : alerts (set_canvas f s) = alerts s. Proof. reflexivity. Qed.
Lemma fileCount_set_canvas f s : fileCount (set_canvas f s) = fileCount s. Proof. reflexivity. Qed.
Lemma matchCount_set_canvas f s : matchCount (set_canvas f s) = matchCount s. Proof. reflexivity. Qed.
Lemma tick_set_canvas f s : tick (set_canvas f s) = tick s. Proof. reflexivity. Qed.
Lemma stopAt_set_canvas f s : stopAt (set_canvas f s) = stopAt s. Proof. reflexivity. Qed.
Lemma store_log e s : store (log e s) = store s. Proof. reflexivity. Qed.
Lemma view_log e s : view (log e s) = view s. Proof. reflexivity. Qed.
Lemma abortControllerRef_log e s : abortControllerRef (log e s) = abortControllerRef s. Proof. reflexivity. Qed.
Lemma canvas_log e s : canvas (log e s) = canvas s. Proof. reflexivity. Qed.
Lemma clientWidth_log e s : clientWidth (log e s) = clientWidth s. Proof. reflexivity. Qed.
Lemma console_log e s : console (log e s) = console s ++ [e]. Proof. reflexivity. Qed.
Lemma alerts_log e s : alerts (log e s) = alerts s. Proof. reflexivity. Qed.
Lemma fileCount_log e s : fileCount (log e s) = fileCount s. Proof. reflexivity. Qed.
Lemma matchCount_log e s : matchCount (log e s) = matchCount s. Proof. reflexivity. Qed.
Lemma tick_log e s : tick (log e s) = tick s. Proof. reflexivity. Qed.
Lemma stopAt_log e s : stopAt (log e s) = stopAt s. Proof. reflexivity. Qed.
Lemma store_show_alert m s : store (show_alert m s) = store s. Proof. reflexivity. Qed.
Lemma view_show_alert m s : view (show_alert m s) = view s. Proof. reflexivity. Qed.
Lemma abortControllerRef_show_alert m s : abortControllerRef (show_alert m s) = abortControllerRef s. Proof. reflexivity. Qed.
Lemma canvas_show_alert m s : canvas (show_alert m s) = canvas s. Proof. reflexivity. Qed.
Lemma clientWidth_show_alert m s : clientWidth (show_alert m s) = clientWidth s. Proof. reflexivity. Qed.
Lemma console_show_alert m s : console (show_alert m s) = console s. Proof. reflexivity. Qed.
Lemma alerts_show_alert m s : alerts (show_alert m s) = alerts s ++ [m]. Proof. reflexivity. Qed.
Lemma fileCount_show_alert m s : fileCount (show_alert m s) = fileCount s. Proof. reflexivity. Qed.
Lemma matchCount_show_alert m s : matchCount (show_alert m s) = matchCount s. Proof. reflexivity. Qed.
Lemma tick_show_alert m s : tick (show_alert m s) = tick s. Proof. reflexivity. Qed.
Lemma stopAt_show_alert m s : stopAt (show_alert m s) = stopAt s. Proof. reflexivity. Qed.
Lemma store_set_fileCount n s : store (set_fileCount n s) = store s. Proof. reflexivity. Qed.
Lemma view_set_fileCount n s : view (set_fileCount n s) = view s. Proof. reflexivity. Qed.
Lemma abortControllerRef_set_fileCount n s : abortControllerRef (set_fileCount n s) = abortControllerRef s. Proof. reflexivity. Qed.
Lemma canvas_set_fileCount n s : canvas (set_fileCount n s) = canvas s. Proof. reflexivity. Qed.
Lemma clientWidth_set_fileCount n s : clientWidth (set_fileCount n s) = clientWidth s. Proof. reflexivity. Qed.
Lemma console_set_fileCount n s : console (set_fileCount n s) = console s. Proof. reflexivity. Qed.
Lemma alerts_set_fileCount n s : alerts (set_fileCount n s) = alerts s. Proof. reflexivity. Qed.
Lemma fileCount_set_fileCount n s : fileCount (set_fileCount n s) = n. Proof. reflexivity. Qed.
Lemma matchCount_set_fileCount n s : matchCount (set_fileCount n s) = matchCount s. Proof. reflexivity. Qed.
Lemma tick_set_fileCount n s : tick (set_fileCount n s) = tick s. Proof. reflexivity. Qed.
Lemma stopAt_set_fileCount n s : stopAt (set_fileCount n s) = stopAt s. Proof. reflexivity. Qed.
Lemma store_set_matchCount n s : store (set_matchCount n s) = store s. Proof. reflexivity. Qed.
Lemma view_set_matchCount n s : view (set_matchCount n s) = view s. Proof. reflexivity. Qed.
Lemma abortControllerRef_set_matchCount n s : abortControllerRef (set_matchCount n s) = abortControllerRef s. Proof. reflexivity. Qed.
Lemma canvas_set_matchCount n s : canvas (set_matchCount n s) = canvas s. Proof. reflexivity. Qed.
Lemma clientWidth_set_matchCount n s : clientWidth (set_matchCount n s) = clientWidth s. Proof. reflexivity. Qed.
Lemma console_set_matchCount n s : console (set_matchCount n s) = console s. Proof. reflexivity. Qed.
Lemma alerts_set_matchCount n s : alerts (set_matchCount n s) = alerts s. Proof. reflexivity. Qed.
Lemma fileCount_set_matchCount n s : fileCount (set_matchCount n s) = fileCount s. Proof. reflexivity. Qed.
Lemma matchCount_set_matchCount n s : matchCount (set_matchCount n s) = n. Proof. reflexivity. Qed.
Lemma tick_set_matchCount n s : tick (set_matchCount n s) = tick s. Proof. reflexivity. Qed.
Lemma stopAt_set_matchCount n s : stopAt (set_matchCount n s) = stopAt s. Proof. reflexivity. Qed.

#[global] Hint Rewrite store_set_store view_set_store abortControllerRef_set_store canvas_set_store
  clientWidth_set_store console_set_store alerts_set_store fileCount_set_store
  matchCount_set_store tick_set_store stopAt_set_store store_set_view
  view_set_view abortControllerRef_set_view canvas_set_view clientWidth_set_view
  console_set_view alerts_set_view fileCount_set_view matchCount_set_view
  tick_set_view stopAt_set_view store_set_abort view_set_abort
  abortControllerRef_set_abort canvas_set_abort clientWidth_set_abort console_set_abort
  alerts_set_abort fileCount_set_abort matchCount_set_abort tick_set_abort
  stopAt_set_abort store_set_canvas view_set_canvas abortControllerRef_set_canvas
  canvas_set_canvas clientWidth_set_canvas console_set_canvas alerts_set_canvas
  fileCount_set_canvas matchCount_set_canvas tick_set_canvas stopAt_set_canvas
  store_log view_log abortControllerRef_log canvas_log
  clientWidth_log console_log alerts_log fileCount_log
  matchCount_log tick_log stopAt_log store_show_alert
  view_show_alert abortControllerRef_show_alert canvas_show_alert clientWidth_show_alert
  console_show_alert alerts_show_alert fileCount_show_alert matchCount_show_alert
  tick_show_alert stopAt_show_alert store_set_fileCount view_set_fileCount
  abortControllerRef_set_fileCount canvas_set_fileCount clientWidth_set_fileCount console_set_fileCount
  alerts_set_fileCount fileCount_set_fileCount matchCount_set_fileCount tick_set_fileCount
  stopAt_set_fileCount store_set_matchCount view_set_matchCount abortControllerRef_set_matchCount
  canvas_set_matchCount clientWidth_set_matchCount console_set_matchCount alerts_set_matchCount
  fileCount_set_matchCount matchCount_set_matchCount tick_set_matchCount stopAt_set_matchCount : state.

(** ** Suspension touches the clock and the abort flag only *)

Lemma store_suspend s : store (suspend s) = store s.
Proof. unfold suspend. by destruct (bool_decide _). Qed.
Lemma view_suspend s : view (suspend s) = view s.
Proof. unfold suspend. by destruct (bool_decide _). Qed.
Lemma canvas_suspend s : canvas (suspend s) = canvas s.
Proof. unfold suspend. by destruct (bool_decide _). Qed.
Lemma clientWidth_suspend s : clientWidth (suspend s) = clientWidth s.
Proof. unfold suspend. by destruct (bool_decide _). Qed.
Lemma console_suspend s : console (suspend s) = console s.
Proof. unfold suspend. by destruct (bool_decide _). Qed.
Lemma alerts_suspend s : alerts (suspend s) = alerts s.
Proof. unfold suspend. by destruct (bool_decide _). Qed.
Lemma fileCount_suspend s : fileCount (suspend s) = fileCount s.
Proof. unfold suspend. by destruct (bool_decide _). Qed.
Lemma matchCount_suspend s : matchCount (suspend s) = matchCount s.
Proof. unfold suspend. by destruct (bool_decide _). Qed.
Lemma tick_suspend s : tick (suspend s) = S (tick s).
Proof. unfold suspend. by destruct (bool_decide _). Qed.
Lemma stopAt_suspend s : stopAt (suspend s) = stopAt s.
Proof. unfold suspend. by destruct (bool_decide _). Qed.
Lemma abort_suspend s :
  abortControllerRef (suspend s)
  = abortControllerRef s || bool_decide (stopAt s = Some (tick s)).
Proof.
  unfold suspend. destruct (bool_decide _); simpl; by rewrite ?orb_true_r, ?orb_false_r.
Qed.

#[global] Arguments suspend : simpl never.


#[global] Hint Rewrite store_suspend view_suspend canvas_suspend
  clientWidth_suspend console_suspend alerts_suspend fileCount_suspend
  matchCount_suspend tick_suspend stopAt_suspend : state.

(** ** The store *)

Module StoreFacts.
Section WithWorld.
Variable w : World.

(** A request that does not fail is carried out on the store. *)
Lemma idbRequest_ok {A} (op : Store -> A * Store) s :
  idbFault w (requests (store s)) = None ->
  (idbRequest w op s).1
    = Ok (op (mkStore (records (store s)) (keyGen (store s))
                (S (requests (store s))) (dbOpen (store s)))).1.
Proof.
  intros Hf. unfold idbRequest. rewrite Hf. simpl. by destruct (op _).
Qed.

(** A request that fails rejects with the error of the request and
    leaves the records alone. *)
Lemma idbRequest_fault {A} (op : Store -> A * Store) s e :
  idbFault w (requests (store s)) = Some e ->
  (idbRequest w op s).1 = Throw e /\
  records (store (idbRequest w op s).2) = records (store s).
Proof. intros Hf. unfold idbRequest. by rewrite Hf. Qed.

Lemma getMatchesGrouped_open s :
  dbOpen (store s) = true ->
  idbFault w (requests (store s)) = None ->
  (LocalDB.getMatchesGrouped w s).1 = Ok (tally w (store_getAll (store s))).
Proof.
  intros Ho Hf. unfold LocalDB.getMatchesGrouped, LocalDB.ensureInit, bind, gets.
  rewrite Ho. unfold ret at 1. unfold idbRequest. rewrite Hf. done.
Qed.




(** The same for [db.ts]. *)
Lemma clearMatches_then_empty s s' :
  DbTs.clearMatches w s = (Ok tt, s') ->
  idbFault w (requests (store s')) = None ->
  idbFault w (S (requests (store s'))) = None ->
  records (store s') = [] /\
  (DbTs.getAllEntitiesGrouped w s').1 = Ok ∅ /\
  forall e, (DbTs.getMatchesForEntity w e s').1 = Ok [].
Proof.
  unfold DbTs.clearMatches, DbTs.getAllEntitiesGrouped, DbTs.getMatchesForEntity,
    DbTs.initDB, bind, await, ret, idbRequest. cbn.
  autorewrite with state.
  destruct (idbFault w (requests (store s))); [done|]. cbn.
  autorewrite with state. cbn.
  destruct (idbFault w (S (requests (store s)))); [done|]. cbn.
  intros [= <-]. cbn. autorewrite with state. cbn. intros Hf1 Hf2.
  split; [done|].
  split; [|intros e]; rewrite Hf1; cbn; autorewrite with state; cbn;
    rewrite Hf2; cbn; done.
Qed.

End WithWorld.
End StoreFacts.

Module CountExamples.
Import CountFacts.

Lemma constructor_inherited :
  bool_decide (str "constructor" ∈ objectPrototypeMethods) = true.
Proof. by vm_compute. Qed.

Lemma proto_not_method :
  bool_decide (protoKey ∈ objectPrototypeMethods) = false.
Proof. by vm_compute. Qed.

(** One record whose entity is the word "constructor": the tally holds
    a string under that key, not the count 1. *)
Lemma tally_constructor w m :
  entity m = str "constructor" ->
  tally w [m]
  = {[ str "constructor" := VStr (nativeSource w (str "constructor") ++ str "1") ]}.
Proof.
  intros He. unfold tally. cbn [foldl]. rewrite He.
  unfold getProp, setProp. rewrite lookup_empty, constructor_inherited.
  rewrite bool_decide_eq_false_2 by (by vm_compute).
  done.
Qed.

(** Records whose entity is "__proto__" leave no key at all. *)
Lemma tally_proto w m :
  entity m = protoKey -> tally w [m] = ∅.
Proof.
  intros He. unfold tally. cbn [foldl]. rewrite He.
  unfold setProp. by rewrite bool_decide_eq_true_2.
Qed.

(** C3, at a store that holds one Match Record for the entity
    "constructor": [getMatchesGrouped] resolves with a mapping whose
    value under "constructor" is the source text of the inherited
    built-in followed by "1", a string, where the multiset of entity
    values has the count 1. *)
Theorem getMatchesGrouped_constructor :
  let s := Example.withRecords
             [Example.recordOf "constructor" (Example.pdf "a.pdf" "a constructor")]
             (Example.initial []) in
  exists counts,
    (LocalDB.getMatchesGrouped Example.world s).1 = Ok counts /\
    countOf (str "constructor") (store_getAll (store s)) = 1%nat /\
    counts !! str "constructor"
      = Some (VStr (str "function Object() { [native code] }1")) /\
    counts !! str "constructor" <> Some (VNum 1).
Proof.
  intros s. eexists. split.
  - apply StoreFacts.getMatchesGrouped_open; reflexivity.
  - split; [reflexivity|].
    assert (store_getAll (store s)
            = [Example.recordOf "constructor" (Example.pdf "a.pdf" "a constructor")])
      as -> by reflexivity.
    rewrite tally_constructor by reflexivity.
    rewrite lookup_singleton_eq. split; [reflexivity|discriminate].
Qed.

End CountExamples.

(** ** Rendering *)

Module RenderFacts.

(** The read permission of the record's file is neither held nor
    granted on request. *)
Definition permissionDenied (m : MatchRecord) : Prop :=
  exists p q,
    fh_queryPermission (fileHandle m) = Resolved p /\ p <> Granted /\
    fh_requestPermission (fileHandle m) = Resolved q /\ q <> Granted.

(** A message was put before the user. *)
Definition failsVisibly (before after : State) : Prop :=
  alerts after <> alerts before.

Definition lockedMatch : MatchRecord :=
  Example.recordOf "cat" (Example.lockedPdf "a.pdf" "the cat sat").

Lemma lockedMatch_denied : permissionDenied lockedMatch.
Proof. exists Prompt, Denied. by repeat split. Qed.

(** C8 as stated fails: with the engine ready and the canvas mounted,
    rendering a record whose permission request is denied shows no
    message at all. *)
Lemma render_denied_not_visible :
  permissionDenied lockedMatch /\
  ~ failsVisibly (Example.initial [])
      (loadAndRenderMatch Example.world lockedMatch (Example.initial [])).2.
Proof.
  split; [exact lockedMatch_denied|].
  unfold failsVisibly. intros H. apply H. reflexivity.
Qed.

(** When the permission request is denied, the render
    returns normally after recording the selection; the canvas is left
    as it was, and nothing is reported, neither by an alert nor on the
    console. *)
Theorem render_denied_silent w m s :
  permissionDenied m ->
  let r := loadAndRenderMatch w m s in
  r.1 = Ok tt /\
  selectedMatch (view r.2) = Some m /\
  canvas r.2 = canvas s /\
  alerts r.2 = alerts s /\
  console r.2 = console s.
Proof.
  intros (p & q & Hp & Hpn & Hq & Hqn). cbv zeta.
  unfold loadAndRenderMatch, bind, modify, gets, tryCatch, await. cbn.
  destruct (negb (pdfLibReady (view s)) || negb (bool_decide (is_Some (canvas s))));
    [done|].
  rewrite Hp. cbn. destruct p; [done| |]; rewrite Hq; cbn;
    (destruct q; [done| |]); cbn; autorewrite with state; done.
Qed.

Lemma render_denied_silent_witness :
  let r := loadAndRenderMatch Example.world lockedMatch (Example.initial []) in
  r.1 = Ok tt /\
  selectedMatch (view r.2) = Some lockedMatch /\
  canvas r.2 = canvas (Example.initial []) /\
  alerts r.2 = alerts (Example.initial []) /\
  console r.2 = console (Example.initial []).
Proof.
  exact (render_denied_silent Example.world lockedMatch (Example.initial [])
           lockedMatch_denied).
Defined.

End RenderFacts.

(** ** Reasoning about handlers

    A relation between the state a handler starts in, the way it
    completes and the state it ends in; [sat Q m] says every run of [m]
    satisfies it. *)

Module Logic.

Inductive Completion :=
  | Normal
  | Abrupt (e : Thrown)
  | Cut.

Definition completion {A} (r : Result A) : Completion :=
  match r with
  | Ok _ => Normal
  | Throw e => Abrupt e
  | OutOfFuel => Cut
  end.

Definition Rel := State -> Completion -> State -> Prop.

Definition sat {A} (Q : Rel) (m : M A) : Prop :=
  forall s, Q s (completion (m s).1) (m s).2.

(** Relations that hold of doing nothing, compose along a sequence and
    hold of a suspension. *)
Class Evolution (Q : Rel) := {
  evo_refl : forall s c, Q s c s;
  evo_seq : forall s s1 s2 c, Q s Normal s1 -> Q s1 c s2 -> Q s c s2;
  evo_suspend : forall s, Q s Normal (suspend s)
}.

(** Relations that do not look at the completion. *)
Class Blind (Q : Rel) := {
  blind : forall s c c' s', Q s c s' -> Q s c' s'
}.

Section Rules.
Context (Q : Rel) `{!Evolution Q}.

Lemma sat_ret {A} (a : A) : sat Q (ret a).
Proof. intros s. apply evo_refl. Qed.

Lemma sat_throw {A} e : sat Q (@throw A e).
Proof. intros s. apply evo_refl. Qed.

Lemma sat_outOfFuel {A} : sat Q (@outOfFuel A).
Proof. intros s. apply evo_refl. Qed.

Lemma sat_gets {A} (f : State -> A) : sat Q (gets f).
Proof. intros s. apply evo_refl. Qed.

Lemma sat_settle {A} (o : Outcome A) : sat Q (settle o).
Proof. destruct o; [apply sat_ret|apply sat_throw]. Qed.

Lemma sat_modify f : (forall s, Q s Normal (f s)) -> sat Q (modify f).
Proof. intros H s. apply H. Qed.

Lemma sat_bind {A B} (m : M A) (k : A -> M B) :
  sat Q m -> (forall a, sat Q (k a)) -> sat Q (bind m k).
Proof.
  intros Hm Hk s. unfold bind. specialize (Hm s).
  destruct (m s) as [[a| e |] s1]; cbn in *; [|done|done].
  eapply evo_seq; [exact Hm|apply Hk].
Qed.

Lemma sat_await {A} (p : M A) : sat Q p -> sat Q (await p).
Proof.
  intros Hp s. unfold await. eapply evo_seq; [apply evo_suspend|apply Hp].
Qed.

Lemma sat_tryCatch {A} (m : M A) (h : Thrown -> M A) `{!Blind Q} :
  sat Q m -> (forall e, sat Q (h e)) -> sat Q (tryCatch m h).
Proof.
  intros Hm Hh s. unfold tryCatch. specialize (Hm s).
  destruct (m s) as [[a| e |] s1]; cbn in *; [done| |done].
  eapply evo_seq; [eapply blind; exact Hm|apply Hh].
Qed.

Lemma sat_tryFinally {A} (m : M A) (f : M unit) `{!Blind Q} :
  sat Q m -> sat Q f -> sat Q (tryFinally m f).
Proof.
  intros Hm Hf s. unfold tryFinally. specialize (Hm s).
  destruct (m s) as [[a| e |] s1]; cbn in *; [| |done].
  - specialize (Hf s1). destruct (f s1) as [[[]| e' |] s2]; cbn in *;
      (eapply evo_seq; [exact Hm|exact Hf]).
  - specialize (Hf s1). destruct (f s1) as [[[]| e' |] s2]; cbn in *;
      (eapply evo_seq; [eapply blind; exact Hm|eapply blind; exact Hf]).
Qed.

End Rules.

(** Handlers that never run out of fuel. *)
Definition completes {A} (m : M A) : Prop :=
  forall s, (m s).1 <> OutOfFuel.

Lemma completes_ret {A} (a : A) : completes (ret a).
Proof. by intros s. Qed.
Lemma completes_throw {A} e : completes (@throw A e).
Proof. by intros s. Qed.
Lemma completes_gets {A} (f : State -> A) : completes (gets f).
Proof. by intros s. Qed.
Lemma completes_modify f : completes (modify f).
Proof. by intros s. Qed.
Lemma completes_settle {A} (o : Outcome A) : completes (settle o).
Proof. by destruct o. Qed.
Lemma completes_idbRequest {A} w (op : Store -> A * Store) :
  completes (idbRequest w op).
Proof.
  intros s. unfold idbRequest. destruct (idbFault w _); [done|]. by destruct (op _).
Qed.
Lemma completes_bind {A B} (m : M A) (k : A -> M B) :
  completes m -> (forall a, completes (k a)) -> completes (bind m k).
Proof.
  intros Hm Hk s. unfold bind. specialize (Hm s).
  destruct (m s) as [[a| e |] s1]; [apply Hk|done|done].
Qed.
Lemma completes_await {A} (p : M A) : completes p -> completes (await p).
Proof. intros Hp s. apply Hp. Qed.
Lemma completes_tryCatch {A} (m : M A) (h : Thrown -> M A) :
  completes m -> (forall e, completes (h e)) -> completes (tryCatch m h).
Proof.
  intros Hm Hh s. unfold tryCatch. specialize (Hm s).
  destruct (m s) as [[a| e |] s1]; [done|apply Hh|done].
Qed.
Lemma completes_tryFinally {A} (m : M A) (f : M unit) :
  completes m -> completes f -> completes (tryFinally m f).
Proof.
  intros Hm Hf s. unfold tryFinally. specialize (Hm s).
  destruct (m s) as [[a| e |] s1]; [| |done];
    specialize (Hf s1); by destruct (f s1) as [[[]| e' |] s2].
Qed.

Lemma completes_unit (m : M unit) s :
  completes m -> (m s).1 = Ok tt \/ exists e, (m s).1 = Throw e.
Proof.
  intros Hm. specialize (Hm s). destruct (m s).1 as [[]| e |]; eauto. done.
Qed.

Ltac completes_step :=
  lazymatch goal with
  | |- completes (bind _ _) => apply completes_bind; [|intros ?]
  | |- completes (ret _) => apply completes_ret
  | |- completes (throw _) => apply completes_throw
  | |- completes (gets _) => apply completes_gets
  | |- completes (modify _) => apply completes_modify
  | |- completes (settle _) => apply completes_settle
  | |- completes (idbRequest _ _) => apply completes_idbRequest
  | |- completes (await _) => apply completes_await
  | |- completes (tryCatch _ _) => apply completes_tryCatch; [|intros ?]
  | |- completes (tryFinally _ _) => apply completes_tryFinally
  | |- completes (if ?x then _ else _) => destruct x
  | |- completes (match ?x with _ => _ end) => destruct x
  end.

Ltac sat_class :=
  lazymatch goal with
  | |- Evolution _ => typeclasses eauto
  | |- Blind _ => typeclasses eauto
  | |- _ => idtac
  end.

(** One structural step on a goal [sat Q m]. *)
Ltac sat_step :=
  lazymatch goal with
  | |- sat _ (bind _ _) => apply sat_bind; sat_class; [|intros ?]
  | |- sat _ (ret _) => apply sat_ret; sat_class
  | |- sat _ (throw _) => apply sat_throw; sat_class
  | |- sat _ outOfFuel => apply sat_outOfFuel; sat_class
  | |- sat _ (gets _) => apply sat_gets; sat_class
  | |- sat _ (settle _) => apply sat_settle; sat_class
  | |- sat _ (await _) => apply sat_await; sat_class
  | |- sat _ (tryCatch _ _) => apply sat_tryCatch; sat_class; [|intros ?]
  | |- sat _ (tryFinally _ _) => apply sat_tryFinally; sat_class
  | |- sat _ (modify _) => apply sat_modify; sat_class
  | |- sat _ (match ?x with _ => _ end) => destruct x
  end.

End Logic.

(** ** The scan *)

(** *** What holds of every step of the scan holds of the scan

    A relation that holds of each update of the state the scan makes, of
    each request it sends, and is kept by its two forms of [try], holds
    of [processFile], of the loop and of [processDirectory]. *)

Module ScanLogic.
Import Logic.

Section Generic.
Variable w : World.
Variable Q : Rel.
Context `{!Evolution Q}.

Hypothesis Q_view : forall f s, Q s Normal (set_view f s).
Hypothesis Q_fileCount : forall n s, Q s Normal (set_fileCount n s).
Hypothesis Q_matchCount : forall n s, Q s Normal (set_matchCount n s).
Hypothesis Q_read : forall A (f : Store -> A),
  sat Q (idbRequest w (fun st => (f st, st))).
Hypothesis Q_add : forall text e (i : nat) fh pageNum t,
  sat Q (idbRequest w (fun st =>
    (tt, store_add
           (mkMatch e (fh_name fh) pageNum (snippetOf text e (Z.of_nat i)) fh t)
           st))).
Hypothesis Q_init : sat Q (LocalDB.init w).
Hypothesis Q_catch_log : forall (m : M unit) label,
  sat Q m -> sat Q (tryCatch m (fun e => modify (log (ConsoleError label e)))).

Lemma sat_ensureInit : sat Q (LocalDB.ensureInit w).
Proof.
  unfold LocalDB.ensureInit. sat_step; [sat_step|]. destruct a; [sat_step|].
  sat_step. apply Q_init.
Qed.

Lemma sat_getMatchesGrouped : sat Q (LocalDB.getMatchesGrouped w).
Proof.
  unfold LocalDB.getMatchesGrouped. sat_step; [apply sat_ensureInit|].
  sat_step; [apply Q_read|sat_step].
Qed.

Lemma sat_refreshStats : sat Q (refreshStats w).
Proof.
  unfold refreshStats. sat_step; [sat_step; apply sat_getMatchesGrouped|].
  sat_step. intros s. apply Q_view.
Qed.

Lemma sat_whileExec fuel : forall regex text e fh pageNum,
  sat Q (whileExec w fuel regex text e fh pageNum).
Proof.
  induction fuel as [|fuel IH]; intros; cbn [whileExec]; [sat_step|].
  destruct (Matcher.exec _ _ _) as [[m|] regex']; [|sat_step].
  sat_step; [sat_step|]. sat_step.
  { sat_step. unfold LocalDB.addMatch.
    sat_step; [apply sat_ensureInit|apply Q_add]. }
  sat_step; [|apply IH]. sat_step. intros s. apply Q_matchCount.
Qed.

Lemma sat_forEntities fuel entities : forall text fh pageNum,
  sat Q (forEntities w fuel entities text fh pageNum).
Proof.
  induction entities as [|e entities IH]; intros; cbn [forEntities]; [sat_step|].
  destruct (Matcher.createExactMatchRegex _ _); [|sat_step].
  sat_step; [apply sat_whileExec|apply IH].
Qed.

Lemma sat_scanPage fuel entities fh pdf pageNum :
  sat Q (scanPage w fuel entities fh pdf pageNum).
Proof.
  unfold scanPage. sat_step; [sat_step; sat_step|].
  sat_step; [sat_step; sat_step|]. apply sat_forEntities.
Qed.

Lemma sat_forPages fuel entities fh pdf todo : forall pageNum,
  sat Q (forPages w fuel entities fh pdf pageNum todo).
Proof.
  induction todo as [|todo IH]; intros; cbn [forPages]; [sat_step|].
  sat_step; [apply sat_scanPage|apply IH].
Qed.

Lemma sat_scanDocument fuel entities fh buf :
  sat Q (scanDocument w fuel entities fh buf).
Proof.
  unfold scanDocument. sat_step; [sat_step; sat_step|]. apply sat_forPages.
Qed.

Lemma sat_afterDocument : sat Q (afterDocument w).
Proof.
  unfold afterDocument.
  sat_step; [sat_step; intros s; apply Q_view|].
  sat_step; [sat_step|].
  destruct (_ =? _)%nat; [|sat_step].
  sat_step; [sat_step; sat_step|]. sat_step. apply sat_refreshStats.
Qed.

Lemma sat_processFile fuel entities fh :
  sat Q (processFile w fuel entities fh).
Proof.
  unfold processFile.
  sat_step; [sat_step; intros s; apply Q_fileCount|].
  sat_step; [sat_step; intros s; apply Q_view|].
  sat_step; [sat_step; sat_step|].
  sat_step; [sat_step; sat_step|].
  sat_step; [|apply sat_afterDocument].
  apply Q_catch_log, sat_scanDocument.
Qed.

(** The loop reads the abort flag but does not write it. *)
Lemma sat_forAwait fuel entities files :
  sat Q (forAwait w fuel entities files).
Proof.
  induction files as [|fh files IH]; cbn [forAwait]; [sat_step; sat_step|].
  sat_step; [sat_step; sat_step|]. sat_step; [sat_step|].
  destruct a0; [sat_step|]. sat_step; [apply sat_processFile|apply IH].
Qed.

Hypothesis Q_alert : forall m s, Q s Normal (show_alert m s).
Hypothesis Q_abort_false : forall s, Q s Normal (set_abort false s).
Hypothesis Q_clear : sat Q (idbRequest w (fun st => (tt, store_clear st))).
Hypothesis Q_finally : forall (m f : M unit),
  (forall s e, (m s).1 <> Throw e) ->
  sat Q m -> sat Q f -> sat Q (tryFinally m f).

Lemma tryCatch_log_no_throw (m : M unit) label s e :
  (tryCatch m (fun e => modify (log (ConsoleError label e))) s).1 <> Throw e.
Proof. unfold tryCatch. by destruct (m s) as [[[]| e' |] s']. Qed.

Lemma sat_clear : sat Q (LocalDB.clear w).
Proof.
  unfold LocalDB.clear. sat_step; [apply sat_ensureInit|apply Q_clear].
Qed.

Lemma sat_processDirectory fuel dirHandle :
  sat Q (processDirectory w fuel dirHandle).
Proof.
  unfold processDirectory. sat_step; [sat_step|].
  destruct a as [|e entities]; [sat_step; intros s; apply Q_alert|].
  sat_step; [sat_step; intros s; apply Q_view|].
  sat_step; [sat_step; intros s; apply Q_abort_false|].
  sat_step; [sat_step|].
  sat_step.
  { destruct (bool_decide _); [|sat_step]. destruct (confirm w _); [|sat_step].
    sat_step; [sat_step; apply sat_clear|].
    repeat (sat_step; [sat_step; intros s; apply Q_view|]).
    sat_step. intros s. apply Q_view. }
  sat_step; [sat_step; intros s; apply Q_fileCount|].
  sat_step; [sat_step; intros s; apply Q_matchCount|].
  apply Q_finally.
  - intros s e'. apply tryCatch_log_no_throw.
  - apply Q_catch_log, sat_forAwait.
  - sat_step; [sat_step; intros s; apply Q_view|]. sat_step. apply sat_refreshStats.
Qed.

End Generic.

(** For relations that do not look at the completion, the two forms of
    [try] come for free. *)
Section ForBlind.
Context (Q : Rel) `{!Evolution Q} `{!Blind Q}.

Lemma blind_catch_log (Q_log : forall e s, Q s Normal (log e s)) (m : M unit) label :
  sat Q m -> sat Q (tryCatch m (fun e => modify (log (ConsoleError label e)))).
Proof.
  intros Hm. sat_step; [done|]. sat_step. intros s. apply Q_log.
Qed.

Lemma blind_finally (m f : M unit) :
  (forall s e, (m s).1 <> Throw e) ->
  sat Q m -> sat Q f -> sat Q (tryFinally m f).
Proof. intros _ Hm Hf. by sat_step. Qed.

Lemma blind_init w
    (Q_open : sat Q (idbRequest w (fun st =>
       (tt, mkStore (records st) (keyGen st) (requests st) true)))) :
  sat Q (LocalDB.init w).
Proof.
  unfold LocalDB.init. sat_step; [sat_step|]. destruct a; [sat_step|].
  sat_step; [done|sat_step].
Qed.

End ForBlind.

End ScanLogic.

Module ScanFacts.
Import Logic ScanLogic.

(** The bound of the data model on a snippet. *)
Definition snippetBounded (m : MatchRecord) : Prop :=
  jslength (textSnippet m) <= jslength (entity m) + 60 + 6.

(** The records of the store after a run are those before it, or none
    of them when the store was cleared, followed by new ones, and the
    new ones all satisfy [P]. *)
Definition Produces (P : MatchRecord -> Prop) : Rel :=
  fun s _ s' =>
    exists new,
      (records (store s') = records (store s) ++ new \/
       records (store s') = new) /\
      Forall (fun kv => P kv.2) new.

Section Produces.
Variable w : World.
Variable P : MatchRecord -> Prop.

#[local] Instance Produces_evolution : Evolution (Produces P).
Proof.
  split.
  - intros s c. exists []. split; [left; by rewrite app_nil_r|constructor].
  - intros s s1 s2 c (n1 & H1 & P1) (n2 & H2 & P2).
    destruct H2 as [H2|H2]; [|exists n2; split; [by right|done]].
    exists (n1 ++ n2). split; [|by apply Forall_app].
    destruct H1 as [H1|H1]; rewrite H2, H1; [left; by rewrite app_assoc|by right].
  - intros s. exists []. rewrite store_suspend.
    split; [left; by rewrite app_nil_r|constructor].
Qed.

#[local] Instance Produces_blind : Blind (Produces P).
Proof. split. by intros s c c' s' H. Qed.

Ltac same_records :=
  intros; exists []; autorewrite with state;
  split; [left; by rewrite app_nil_r|by constructor].

Lemma produces_request {A} (op : Store -> A * Store) :
  (forall st, exists new,
      (records (op st).2 = records st ++ new \/ records (op st).2 = new) /\
      Forall (fun kv => P kv.2) new) ->
  sat (Produces P) (idbRequest w op).
Proof.
  intros Hop s. unfold idbRequest. destruct (idbFault w _); [same_records|].
  destruct (Hop (mkStore (records (store s)) (keyGen (store s))
                   (S (requests (store s))) (dbOpen (store s))))
    as (new & Hnew & HP).
  destruct (op _) as [a st']. exists new. by autorewrite with state.
Qed.

(** Every record the scan builds satisfies [P]. *)
Hypothesis built :
  forall text e (i : nat) fh pageNum t,
    P (mkMatch e (fh_name fh) pageNum (snippetOf text e (Z.of_nat i)) fh t).

Lemma produces_processDirectory fuel dirHandle :
  sat (Produces P) (processDirectory w fuel dirHandle).
Proof.
  apply sat_processDirectory; try same_records.
  - typeclasses eauto.
  - intros A f. apply produces_request. intros st. exists [].
    split; [left; by rewrite app_nil_r|constructor].
  - intros. apply produces_request. intros st.
    eexists [_]. split; [left; reflexivity|]. repeat constructor. apply built.
  - apply blind_init; [typeclasses eauto..|].
    apply produces_request. intros st. exists [].
    split; [left; by rewrite app_nil_r|constructor].
  - intros m label. apply blind_catch_log; [typeclasses eauto..|]. same_records.
  - apply produces_request. intros st. exists []. split; [by right|constructor].
  - intros m f. apply blind_finally; typeclasses eauto.
Qed.

End Produces.

(** C2: whatever the folder, the entity list and the store before the
    scan, the records in the store after [processDirectory] are the
    earlier ones (or none of them, when the store was cleared first)
    followed by the records the scan produced, and the snippet of every
    produced record is at most [entity.length + 60] characters of page
    text plus the 6 characters of the two ellipses. *)
Theorem scan_snippets_bounded w fuel dirHandle s :
  exists new,
    (records (store (processDirectory w fuel dirHandle s).2)
       = records (store s) ++ new \/
     records (store (processDirectory w fuel dirHandle s).2) = new) /\
    Forall (fun kv => snippetBounded kv.2) new.
Proof.
  apply (produces_processDirectory w snippetBounded).
  intros. unfold snippetBounded. cbn. apply SnippetFacts.snippet_length.
Qed.

(** *** A document that fails to decode *)

(** Runs that keep the value of a projection of the state. *)
Definition Keeps {A} (f : State -> A) : Rel := fun s _ s' => f s' = f s.

Definition ledger (s : State) :=
  (records (store s), matchCount s, console s, fileCount s).

#[local] Instance Keeps_ledger_evolution : Evolution (Keeps ledger).
Proof.
  split; unfold Keeps, ledger.
  - done.
  - intros s s1 s2 c H1 H2. congruence.
  - intros s. by autorewrite with state.
Qed.

#[local] Instance Keeps_blind {A} (f : State -> A) : Blind (Keeps f).
Proof. split. by intros s c c' s' H. Qed.

Lemma keeps_refreshStats w : sat (Keeps ledger) (refreshStats w).
Proof.
  unfold refreshStats, LocalDB.getMatchesGrouped, LocalDB.ensureInit, LocalDB.init.
  assert (forall A (op : Store -> A * Store),
            (forall st, records (op st).2 = records st) ->
            sat (Keeps ledger) (idbRequest w op)) as Hreq.
  { intros A op Hop s. unfold idbRequest, Keeps, ledger.
    destruct (idbFault w _); cbn; [done|].
    specialize (Hop (mkStore (records (store s)) (keyGen (store s))
                       (S (requests (store s))) (dbOpen (store s)))).
    destruct (op _) as [a st']. cbn in *. by rewrite Hop. }
  sat_step; [|sat_step; done].
  sat_step. sat_step.
  - sat_step; [sat_step|]. destruct a; [sat_step|].
    sat_step. sat_step; [sat_step|]. destruct a; [sat_step|].
    sat_step; [by apply Hreq|sat_step].
  - sat_step; [by apply Hreq|sat_step].
Qed.

Lemma ledger_eq s s' :
  ledger s' = ledger s ->
  records (store s') = records (store s) /\ matchCount s' = matchCount s /\
  console s' = console s /\ fileCount s' = fileCount s.
Proof. unfold ledger. intros [= -> -> -> ->]. done. Qed.

Lemma bind_Ok {A B} (m : M A) (k : A -> M B) s a :
  (m s).1 = Ok a -> bind m k s = k a (m s).2.
Proof. unfold bind. destruct (m s) as [r s']. cbn. by intros ->. Qed.

Section DecodeFailure.
Variable w : World.

Lemma completes_refreshStats : completes (refreshStats w).
Proof.
  unfold refreshStats, LocalDB.getMatchesGrouped, LocalDB.ensureInit, LocalDB.init.
  repeat completes_step.
Qed.

Lemma refreshStats_completes s :
  (refreshStats w s).1 = Ok tt \/ exists e, (refreshStats w s).1 = Throw e.
Proof. apply completes_unit, completes_refreshStats. Qed.

Lemma keeps_afterDocument : sat (Keeps ledger) (afterDocument w).
Proof.
  unfold afterDocument.
  sat_step; [sat_step; done|].
  sat_step; [sat_step|].
  destruct (_ =? _)%nat; [|sat_step].
  sat_step; [sat_step; sat_step|]. sat_step. apply keeps_refreshStats.
Qed.

Lemma afterDocument_completes s :
  ((afterDocument w s).1 = Ok tt \/
   (fileCount s mod 5 = 0)%nat /\ exists e, (afterDocument w s).1 = Throw e) /\
  ledger (afterDocument w s).2 = ledger s.
Proof.
  split; [|apply (keeps_afterDocument s)].
  unfold afterDocument, bind, modify, gets, await, ret. cbn [fst snd].
  change (fileCount (set_view _ s)) with (fileCount s).
  destruct (Nat.eqb_spec (fileCount s mod 5) 0) as [Hm|Hm]; [|by left].
  match goal with |- context [refreshStats w ?s'] =>
    destruct (refreshStats_completes s') as [->|[e ->]] end; eauto.
Qed.

(** The state in which a document that cannot be decoded leaves the
    scan when its progress report starts. *)
Definition decodeFailed (fh : FileHandle) (e : Thrown) (s : State) : State :=
  log (ConsoleError (Some (str "Fehler bei " ++ fh_name fh ++ str ":")) e)
    (suspend (suspend (suspend
       (set_view (setStats (fun prev =>
          mkStats (S (fileCount s)) (matchesFound prev) (fh_name fh)))
          (set_fileCount (S (fileCount s)) s))))).

Lemma processFile_decode_failure fuel entities fh s file buf e :
  fh_getFile fh = Resolved file ->
  file_arrayBuffer file = Resolved buf ->
  getDocument w buf = Rejected e ->
  processFile w fuel entities fh s = afterDocument w (decodeFailed fh e s).
Proof.
  intros Hfile Hbuf Hdoc.
  unfold processFile, scanDocument, bind, modify, await, tryCatch.
  rewrite Hfile. unfold settle at 1, ret at 1.
  rewrite Hbuf. unfold settle at 1, ret at 1.
  rewrite Hdoc. unfold settle at 1, throw at 1.
  reflexivity.
Qed.

Lemma forAwait_cons fuel entities fh rest s :
  forAwait w fuel entities (fh :: rest) s
  = if abortControllerRef (suspend s) then (Ok tt, suspend s)
    else bind (processFile w fuel entities fh)
           (fun _ => forAwait w fuel entities rest) (suspend s).
Proof.
  cbn [forAwait]. unfold bind at 1, await, ret. unfold bind at 1, gets.
  by destruct (abortControllerRef (suspend s)).
Qed.

Lemma decodeFailed_fileCount fh e s :
  fileCount (decodeFailed fh e s) = S (fileCount s).
Proof. unfold decodeFailed. by autorewrite with state. Qed.

Lemma decodeFailed_records fh e s :
  records (store (decodeFailed fh e s)) = records (store s).
Proof. unfold decodeFailed. by autorewrite with state. Qed.

Lemma decodeFailed_matchCount fh e s :
  matchCount (decodeFailed fh e s) = matchCount s.
Proof. unfold decodeFailed. by autorewrite with state. Qed.

Lemma decodeFailed_console fh e s :
  console (decodeFailed fh e s)
  = console s ++ [ConsoleError (Some (str "Fehler bei " ++ fh_name fh ++ str ":")) e].
Proof. unfold decodeFailed. by autorewrite with state. Qed.

(** A document whose bytes can be read but that [getDocument] rejects
    adds no record and leaves the count of matches alone; the failure is
    written to the console; the turn of the loop completes normally,
    the one exception being a failure of the periodic statistics refresh
    on a fifth document; and when it completes, the scan goes on with
    the documents that follow, from the state this document left. *)
Theorem decode_failure_isolated fuel entities fh rest s file buf e :
  abortControllerRef (suspend s) = false ->
  fh_getFile fh = Resolved file ->
  file_arrayBuffer file = Resolved buf ->
  getDocument w buf = Rejected e ->
  let r := processFile w fuel entities fh (suspend s) in
  records (store r.2) = records (store s) /\
  matchCount r.2 = matchCount s /\
  console r.2
    = console s ++ [ConsoleError (Some (str "Fehler bei " ++ fh_name fh ++ str ":")) e] /\
  (r.1 = Ok tt \/ (S (fileCount s) mod 5 = 0)%nat /\ exists e', r.1 = Throw e') /\
  (r.1 = Ok tt ->
   forAwait w fuel entities (fh :: rest) s = forAwait w fuel entities rest r.2).
Proof.
  intros Hab Hfile Hbuf Hdoc. cbv zeta.
  pose proof (processFile_decode_failure fuel entities fh (suspend s) file buf e
                Hfile Hbuf Hdoc) as Hpf.
  destruct (afterDocument_completes (decodeFailed fh e (suspend s))) as [Hc Hl].
  rewrite decodeFailed_fileCount, fileCount_suspend in Hc.
  apply ledger_eq in Hl as (Hrec & Hmc & Hcon & _).
  rewrite decodeFailed_records, store_suspend in Hrec.
  rewrite decodeFailed_matchCount, matchCount_suspend in Hmc.
  rewrite decodeFailed_console, console_suspend in Hcon.
  split; [by rewrite Hpf|]. split; [by rewrite Hpf|]. split; [by rewrite Hpf|].
  split; [by rewrite Hpf|].
  intros Hok. rewrite forAwait_cons, Hab. by rewrite (bind_Ok _ _ _ tt Hok).
Qed.

End DecodeFailure.

(** *** Cancellation *)

(** Two states that differ at most in the abort flag and in the click
    on Stop that is still to come. *)
Definition alike (s1 s2 : State) : Prop :=
  store s1 = store s2 /\ view s1 = view s2 /\ canvas s1 = canvas s2 /\
  clientWidth s1 = clientWidth s2 /\ console s1 = console s2 /\
  alerts s1 = alerts s2 /\ fileCount s1 = fileCount s2 /\
  matchCount s1 = matchCount s2 /\ tick s1 = tick s2.

(** A handler that neither reads the abort flag nor depends on the
    click to come: from alike states it completes the same way, in alike
    states. *)
Definition deaf {A} (m : M A) : Prop :=
  forall s1 s2, alike s1 s2 ->
    (m s1).1 = (m s2).1 /\ alike (m s1).2 (m s2).2.

Ltac alike_use H :=
  let H1 := fresh in let H2 := fresh in let H3 := fresh in
  let H4 := fresh in let H5 := fresh in let H6 := fresh in
  let H7 := fresh in let H8 := fresh in let H9 := fresh in
  destruct H as (H1 & H2 & H3 & H4 & H5 & H6 & H7 & H8 & H9);
  unfold alike; autorewrite with state;
  rewrite ?H1, ?H2, ?H3, ?H4, ?H5, ?H6, ?H7, ?H8, ?H9; done.

Ltac alike_solve := let H := fresh in intros ? ? H; alike_use H.

Lemma alike_refl s : alike s s.
Proof. by unfold alike. Qed.

Lemma alike_suspend s1 s2 : alike s1 s2 -> alike (suspend s1) (suspend s2).
Proof. revert s1 s2. alike_solve. Qed.

Lemma deaf_ret {A} (a : A) : deaf (ret a).
Proof. by intros s1 s2 H. Qed.
Lemma deaf_throw {A} e : deaf (@throw A e).
Proof. by intros s1 s2 H. Qed.
Lemma deaf_outOfFuel {A} : deaf (@outOfFuel A).
Proof. by intros s1 s2 H. Qed.
Lemma deaf_settle {A} (o : Outcome A) : deaf (settle o).
Proof. destruct o; [apply deaf_ret|apply deaf_throw]. Qed.

Lemma deaf_gets {A} (f : State -> A) :
  (forall s1 s2, alike s1 s2 -> f s1 = f s2) -> deaf (gets f).
Proof. intros Hf s1 s2 H. unfold gets. cbn [fst snd]. by rewrite (Hf s1 s2 H). Qed.

Lemma deaf_modify f :
  (forall s1 s2, alike s1 s2 -> alike (f s1) (f s2)) -> deaf (modify f).
Proof. intros Hf s1 s2 H. unfold modify. cbn [fst snd]. auto. Qed.

Lemma deaf_bind {A B} (m : M A) (k : A -> M B) :
  deaf m -> (forall a, deaf (k a)) -> deaf (bind m k).
Proof.
  intros Hm Hk s1 s2 H. unfold bind. destruct (Hm s1 s2 H) as [Hr Hs].
  destruct (m s1) as [r1 t1], (m s2) as [r2 t2]. cbn [fst snd] in Hr, Hs.
  subst r2. destruct r1 as [a| e |]; [by apply Hk|done|done].
Qed.

Lemma deaf_await {A} (p : M A) : deaf p -> deaf (await p).
Proof. intros Hp s1 s2 H. unfold await. by apply Hp, alike_suspend. Qed.

Lemma deaf_tryCatch {A} (m : M A) (h : Thrown -> M A) :
  deaf m -> (forall e, deaf (h e)) -> deaf (tryCatch m h).
Proof.
  intros Hm Hh s1 s2 H. unfold tryCatch. destruct (Hm s1 s2 H) as [Hr Hs].
  destruct (m s1) as [r1 t1], (m s2) as [r2 t2]. cbn [fst snd] in Hr, Hs.
  subst r2. destruct r1 as [a| e |]; [done|by apply Hh|done].
Qed.

Lemma deaf_idbRequest {A} w (op : Store -> A * Store) : deaf (idbRequest w op).
Proof.
  intros s1 s2 H. unfold idbRequest.
  assert (store s1 = store s2) as Hst by apply H.
  rewrite !store_set_store, Hst.
  destruct (idbFault w _); cbn [fst snd].
  - split; [done|]. clear Hst. alike_use H.
  - destruct (op _) as [a st']. cbn [fst snd]. split; [done|].
    clear Hst. alike_use H.
Qed.

Ltac deaf_step :=
  lazymatch goal with
  | |- deaf (bind _ _) => apply deaf_bind; [|intros ?]
  | |- deaf (ret _) => apply deaf_ret
  | |- deaf (throw _) => apply deaf_throw
  | |- deaf outOfFuel => apply deaf_outOfFuel
  | |- deaf (settle _) => apply deaf_settle
  | |- deaf (idbRequest _ _) => apply deaf_idbRequest
  | |- deaf (await _) => apply deaf_await
  | |- deaf (tryCatch _ _) => apply deaf_tryCatch; [|intros ?]
  | |- deaf (gets _) => apply deaf_gets; alike_solve
  | |- deaf (modify _) => apply deaf_modify; alike_solve
  | |- deaf (if ?x then _ else _) => destruct x
  | |- deaf (match ?x with _ => _ end) => destruct x
  end.

Section Deaf.
Variable w : World.

Lemma deaf_refreshStats : deaf (refreshStats w).
Proof.
  unfold refreshStats, LocalDB.getMatchesGrouped, LocalDB.ensureInit, LocalDB.init.
  repeat deaf_step.
Qed.

Lemma deaf_addMatch m : deaf (LocalDB.addMatch w m).
Proof.
  unfold LocalDB.addMatch, LocalDB.ensureInit, LocalDB.init. repeat deaf_step.
Qed.

Lemma deaf_whileExec fuel : forall regex text e fh pageNum,
  deaf (whileExec w fuel regex text e fh pageNum).
Proof.
  induction fuel as [|fuel IH]; intros; cbn [whileExec]; [deaf_step|].
  destruct (Matcher.exec _ _ _) as [[m|] regex']; [|deaf_step].
  deaf_step; [deaf_step|]. deaf_step; [deaf_step; apply deaf_addMatch|].
  deaf_step; [deaf_step|apply IH].
Qed.

Lemma deaf_forEntities fuel entities : forall text fh pageNum,
  deaf (forEntities w fuel entities text fh pageNum).
Proof.
  induction entities as [|e entities IH]; intros; cbn [forEntities]; [deaf_step|].
  destruct (Matcher.createExactMatchRegex _ _); [|deaf_step].
  deaf_step; [apply deaf_whileExec|apply IH].
Qed.

Lemma deaf_forPages fuel entities fh pdf todo : forall pageNum,
  deaf (forPages w fuel entities fh pdf pageNum todo).
Proof.
  induction todo as [|todo IH]; intros; cbn [forPages]; [deaf_step|].
  deaf_step; [|apply IH]. unfold scanPage.
  deaf_step; [repeat deaf_step|]. deaf_step; [repeat deaf_step|].
  apply deaf_forEntities.
Qed.

(** The page loop never looks at the abort flag: one whole turn of the
    document loop is deaf to it. *)
Lemma deaf_processFile fuel entities fh : deaf (processFile w fuel entities fh).
Proof.
  unfold processFile, scanDocument, afterDocument.
  deaf_step; [deaf_step|]. deaf_step; [deaf_step|].
  deaf_step; [repeat deaf_step|]. deaf_step; [repeat deaf_step|].
  deaf_step.
  { deaf_step; [|deaf_step]. deaf_step; [repeat deaf_step|]. apply deaf_forPages. }
  deaf_step; [deaf_step|]. deaf_step; [deaf_step|].
  destruct (_ =? _)%nat; [|deaf_step].
  deaf_step; [repeat deaf_step|]. deaf_step. apply deaf_refreshStats.
Qed.

End Deaf.

(** The abort flag is only ever raised, the pending click stays as it
    is, and a click that falls into a suspension of the run has raised
    the flag by the end of the run. *)
Definition Hears : Rel :=
  fun s _ s' =>
    (tick s <= tick s')%nat /\
    stopAt s' = stopAt s /\
    (abortControllerRef s = true -> abortControllerRef s' = true) /\
    (forall t, stopAt s = Some t -> (tick s <= t < tick s')%nat ->
       abortControllerRef s' = true).

#[local] Instance Hears_evolution : Evolution Hears.
Proof.
  split.
  - intros s c. repeat split; [done..|]. intros t _ Ht. lia.
  - intros s s1 s2 c (Ht1 & Hs1 & Ha1 & Hc1) (Ht2 & Hs2 & Ha2 & Hc2).
    split; [lia|]. split; [congruence|]. split; [auto|].
    intros t Hst Ht. destruct (decide (t < tick s1)%nat).
    + apply Ha2, (Hc1 t); [done|lia].
    + apply (Hc2 t); [congruence|lia].
  - intros s. unfold Hears. rewrite tick_suspend, stopAt_suspend, abort_suspend.
    split; [lia|]. split; [done|]. split; [by intros ->|].
    intros t Hst Ht. assert (t = tick s) as -> by lia.
    rewrite bool_decide_eq_true_2 by done. apply orb_true_r.
Qed.

#[local] Instance Hears_blind : Blind Hears.
Proof. split. by intros s c c' s' H. Qed.

Ltac hears_frame :=
  intros; unfold Hears; autorewrite with state;
  split; [lia|]; split; [done|]; split; [done|]; intros; lia.

Lemma hears_request {A} w (op : Store -> A * Store) : sat Hears (idbRequest w op).
Proof.
  intros s. unfold idbRequest. destruct (idbFault w _); cbn [fst snd].
  - hears_frame.
  - destruct (op _) as [a st']. cbn [fst snd]. hears_frame.
Qed.

Lemma hears_processFile w fuel entities fh :
  sat Hears (processFile w fuel entities fh).
Proof.
  apply sat_processFile; try hears_frame.
  - typeclasses eauto.
  - intros. apply hears_request.
  - intros. apply hears_request.
  - apply blind_init; [typeclasses eauto..|]. apply hears_request.
  - intros m label. apply blind_catch_log; [typeclasses eauto..|]. hears_frame.
Qed.

(** The state [s] with no click on Stop to come. *)
Definition withoutStop (s : State) : State :=
  mkState (store s) (view s) (abortControllerRef s) (canvas s) (clientWidth s)
    (console s) (alerts s) (fileCount s) (matchCount s) (tick s) None.

Lemma alike_withoutStop s : alike s (withoutStop s).
Proof. by unfold alike. Qed.

Lemma abort_withoutStop_suspend s :
  abortControllerRef s = false ->
  abortControllerRef (suspend (withoutStop s)) = false.
Proof. intros H. rewrite abort_suspend. cbn. by rewrite H. Qed.

Section Cancel.
Variable w : World.

Lemma forAwait_nil fuel entities s :
  forAwait w fuel entities [] s = (Ok tt, suspend s).
Proof. reflexivity. Qed.

(** With the flag raised, the loop starts no document. *)
Lemma forAwait_aborted fuel entities files s :
  abortControllerRef s = true ->
  forAwait w fuel entities files s = (Ok tt, suspend s).
Proof.
  intros Hab. destruct files as [|fh rest]; [reflexivity|].
  rewrite forAwait_cons. rewrite abort_suspend, Hab. done.
Qed.

(** C5: let the loop be about to take the document [fh], with the abort
    flag clear, and let Stop be clicked during one of the suspensions of
    the processing of [fh].  Then the rest of the run is the run that
    processes [fh] alone and is never cancelled: it completes the same
    way and ends in a state with the same store, console and alerts,
    the same counters and the same progress statistics; no document
    after [fh] is started; and when the processing of [fh] completes
    normally the loop ends normally with the flag raised. *)
Theorem cancel_between_documents fuel entities fh rest s t :
  stopAt s = Some t ->
  abortControllerRef (suspend s) = false ->
  (tick s < t < tick (processFile w fuel entities fh (suspend s)).2)%nat ->
  let cancelled := forAwait w fuel entities (fh :: rest) s in
  let alone := forAwait w fuel entities [fh] (withoutStop s) in
  cancelled.1 = alone.1 /\
  alike cancelled.2 alone.2 /\
  stats (view cancelled.2) = stats (view alone.2) /\
  records (store cancelled.2) = records (store alone.2) /\
  ((processFile w fuel entities fh (suspend s)).1 = Ok tt ->
   cancelled.1 = Ok tt /\ abortControllerRef cancelled.2 = true).
Proof.
  intros Hst Hab Ht. cbv zeta.
  assert (abortControllerRef s = false) as Hab0.
  { rewrite abort_suspend in Hab. by apply orb_false_iff in Hab as [-> _]. }
  rewrite !forAwait_cons, Hab, (abort_withoutStop_suspend s Hab0).
  pose proof (deaf_processFile w fuel entities fh (suspend s)
                (suspend (withoutStop s))
                (alike_suspend _ _ (alike_withoutStop s))) as [Hr Hs].
  pose proof (hears_processFile w fuel entities fh (suspend s))
    as (_ & _ & _ & Hclick).
  specialize (Hclick t). rewrite stopAt_suspend, tick_suspend in Hclick.
  specialize (Hclick Hst ltac:(lia)).
  unfold bind.
  destruct (processFile w fuel entities fh (suspend s)) as [r1 s1].
  destruct (processFile w fuel entities fh (suspend (withoutStop s))) as [r2 s2].
  cbn [fst snd] in *. subst r2.
  assert (forall c1 c2 : Result unit * State,
            c1.1 = c2.1 -> alike c1.2 c2.2 ->
            c1.1 = c2.1 /\ alike c1.2 c2.2 /\
            stats (view c1.2) = stats (view c2.2) /\
            records (store c1.2) = records (store c2.2)) as Hpack.
  { intros c1 c2 H1 H2. split; [done|]. split; [done|].
    destruct H2 as (Hstore & Hview & _). by rewrite Hstore, Hview. }
  destruct r1 as [[]| e |].
  - rewrite forAwait_aborted by done. rewrite forAwait_nil.
    pose proof (Hpack (Ok tt, suspend s1) (Ok tt, suspend s2) eq_refl
                  (alike_suspend _ _ Hs)) as (H1 & H2 & H3 & H4).
    split; [exact H1|]. split; [exact H2|]. split; [exact H3|].
    split; [exact H4|]. intros _. split; [done|].
    cbn [snd]. by rewrite abort_suspend, Hclick.
  - pose proof (Hpack (Throw e, s1) (Throw e, s2) eq_refl Hs) as (H1 & H2 & H3 & H4).
    split; [exact H1|]. split; [exact H2|]. split; [exact H3|].
    split; [exact H4|]. by intros [=].
  - pose proof (Hpack (OutOfFuel, s1) (OutOfFuel, s2) eq_refl Hs)
      as (H1 & H2 & H3 & H4).
    split; [exact H1|]. split; [exact H2|]. split; [exact H3|].
    split; [exact H4|]. by intros [=].
Qed.

End Cancel.

(** *** Failures of the store *)

(** The error [x] reaches the caller or is on the console. *)
Definition reported (x : Thrown) (c : Completion) (l : list LogEntry) : Prop :=
  c = Abrupt x \/ exists label, ConsoleError label x ∈ l.

(** Unless the run was cut short, every request it sent that failed is
    reported with its error; the one exception is the request that
    opens the database, sent only while the database is not open, whose
    failure [LocalDB.init] reports as the string "DB Error". *)
Definition FaultsShown (w : World) : Rel :=
  fun s c s' =>
    c = Cut \/
    exists l,
      console s' = console s ++ l /\
      (requests (store s) <= requests (store s'))%nat /\
      (dbOpen (store s) = true -> dbOpen (store s') = true) /\
      forall k e,
        (requests (store s) <= k < requests (store s'))%nat ->
        idbFault w k = Some e ->
        reported e c l \/
        (dbOpen (store s) = false /\ reported DBErrorString c l).

Lemma reported_app x c l1 l2 :
  reported x Normal l1 \/ reported x c l2 -> reported x c (l1 ++ l2).
Proof.
  intros [[[=]|[label H]]|[->|[label H]]].
  - right. exists label. apply elem_of_app. by left.
  - by left.
  - right. exists label. apply elem_of_app. by right.
Qed.

Section Faults.
Variable w : World.

#[local] Instance FaultsShown_evolution : Evolution (FaultsShown w).
Proof.
  split.
  - intros s c. right. exists []. rewrite app_nil_r.
    split; [done|]. split; [done|]. split; [done|]. intros k e Hk. lia.
  - intros s s1 s2 c [[=]|(l1 & Hc1 & Hr1 & Ho1 & H1)] [->|(l2 & Hc2 & Hr2 & Ho2 & H2)];
      [by left|].
    right. exists (l1 ++ l2). split; [by rewrite Hc2, Hc1, app_assoc|].
    split; [lia|]. split; [auto|].
    intros k e Hk Hf. destruct (decide (k < requests (store s1))%nat).
    + destruct (H1 k e ltac:(lia) Hf) as [Hrep|[Hop Hrep]].
      * left. apply reported_app. by left.
      * right. split; [done|]. apply reported_app. by left.
    + destruct (H2 k e ltac:(lia) Hf) as [Hrep|[Hop Hrep]].
      * left. apply reported_app. by right.
      * right. split.
        { destruct (dbOpen (store s)); [|done]. by rewrite Ho1 in Hop. }
        apply reported_app. by right.
  - intros s. right. exists []. autorewrite with state. rewrite app_nil_r.
    split; [done|]. split; [done|]. split; [done|]. intros k e Hk. lia.
Qed.

Ltac shown_frame :=
  intros; right; exists []; autorewrite with state; rewrite app_nil_r;
  split; [done|]; split; [done|]; split; [done|]; intros; lia.

(** A request that fails rejects with its error. *)
Lemma shown_request {A} (op : Store -> A * Store) :
  (forall st, requests (op st).2 = requests st /\
              (dbOpen st = true -> dbOpen (op st).2 = true)) ->
  sat (FaultsShown w) (idbRequest w op).
Proof.
  intros Hop s. unfold idbRequest.
  destruct (idbFault w (requests (store s))) as [e|] eqn:Hf; cbn [fst snd].
  - right. exists []. autorewrite with state. cbn [requests dbOpen]. rewrite app_nil_r.
    split; [done|]. split; [lia|]. split; [done|].
    intros k e' Hk Hf'. assert (k = requests (store s)) as -> by lia.
    left. left. cbn [completion]. congruence.
  - destruct (Hop (mkStore (records (store s)) (keyGen (store s))
                     (S (requests (store s))) (dbOpen (store s)))) as [Hrq Hopen].
    destruct (op _) as [a st']. cbn [fst snd] in *.
    right. exists []. autorewrite with state. rewrite app_nil_r, Hrq.
    cbn [requests dbOpen] in *.
    split; [done|]. split; [lia|]. split; [done|].
    intros k e' Hk Hf'. assert (k = requests (store s)) as -> by lia. congruence.
Qed.

Lemma shown_init : sat (FaultsShown w) (LocalDB.init w).
Proof.
  intros s. unfold LocalDB.init, bind, gets, tryCatch, idbRequest.
  cbn [fst snd]. destruct (dbOpen (store s)) eqn:Ho.
  - unfold ret. cbn [fst snd completion]. apply evo_refl.
  - destruct (idbFault w (requests (store s))) as [e|] eqn:Hf;
      unfold throw; cbn [fst snd completion];
      right; exists []; autorewrite with state; cbn [requests dbOpen];
      rewrite app_nil_r; (split; [done|]); (split; [lia|]); (split; [done|]);
      intros k e' Hk Hf'; assert (k = requests (store s)) as -> by lia.
    + right. split; [done|]. by left.
    + congruence.
Qed.

Lemma shown_catch_log (m : M unit) label :
  sat (FaultsShown w) m ->
  sat (FaultsShown w) (tryCatch m (fun e => modify (log (ConsoleError label e)))).
Proof.
  intros Hm s. unfold tryCatch, modify. specialize (Hm s).
  destruct (m s) as [[[]| x |] s1]; cbn [fst snd completion] in *; [done| |done].
  destruct Hm as [[=]|(l & Hc & Hr & Ho & H)].
  right. exists (l ++ [ConsoleError label x]). autorewrite with state.
  split; [by rewrite Hc, app_assoc|]. split; [done|]. split; [done|].
  intros k e Hk Hf.
  assert (forall y, reported y (Abrupt x) l ->
                    reported y Normal (l ++ [ConsoleError label x])) as Hlog.
  { intros y [[= ->]|[lab Hin]]; right.
    - exists label. apply elem_of_app. right. by apply list_elem_of_singleton.
    - exists lab. apply elem_of_app. by left. }
  destruct (H k e Hk Hf) as [Hrep|[Hop Hrep]]; [left|right]; auto.
Qed.

Lemma shown_finally (m f : M unit) :
  (forall s e, (m s).1 <> Throw e) ->
  sat (FaultsShown w) m -> sat (FaultsShown w) f ->
  sat (FaultsShown w) (tryFinally m f).
Proof.
  intros Hnt Hm Hf s. unfold tryFinally. specialize (Hm s). specialize (Hnt s).
  destruct (m s) as [[[]| x |] s1]; cbn [fst snd completion] in *;
    [|by destruct (Hnt x)|by left].
  specialize (Hf s1).
  destruct (f s1) as [[[]| y |] s2]; cbn [fst snd completion] in *;
    by apply (evo_seq s s1 s2).
Qed.

Lemma shown_processDirectory fuel dirHandle :
  sat (FaultsShown w) (processDirectory w fuel dirHandle).
Proof.
  apply sat_processDirectory; try shown_frame.
  - typeclasses eauto.
  - intros A f. by apply shown_request.
  - intros. by apply shown_request.
  - apply shown_init.
  - apply shown_catch_log.
  - by apply shown_request.
  - apply shown_finally.
Qed.

Lemma shown_handleFolderSelect fuel :
  sat (FaultsShown w) (handleFolderSelect w fuel).
Proof.
  unfold handleFolderSelect. destruct (showDirectoryPicker w) as [picked|].
  - apply shown_catch_log. sat_step; [sat_step; sat_step|].
    sat_step. apply shown_processDirectory.
  - sat_step. shown_frame.
Qed.

Lemma handleFolderSelect_no_throw fuel s e :
  (handleFolderSelect w fuel s).1 <> Throw e.
Proof.
  unfold handleFolderSelect. destruct (showDirectoryPicker w) as [picked|].
  - apply tryCatch_log_no_throw.
  - done.
Qed.

(** An insert whose request fails rejects with the error of the
    request and adds nothing. *)
Lemma addMatch_rejects m s e :
  dbOpen (store s) = true ->
  idbFault w (requests (store s)) = Some e ->
  (LocalDB.addMatch w m s).1 = Throw e /\
  records (store (LocalDB.addMatch w m s).2) = records (store s).
Proof.
  intros Ho Hf. unfold LocalDB.addMatch, LocalDB.ensureInit, bind, gets.
  cbn [fst snd]. rewrite Ho. unfold ret, idbRequest. rewrite Hf.
  cbn [fst snd]. by autorewrite with state.
Qed.

(** Failures of requests: an insert whose request fails rejects
    towards its caller with
    the error of the request; and in a scan started from the folder
    button that is not cut short, every request to the store that failed
    has its error on the console when the handler returns, the failure
    of a request that opens the database being reported as the string
    "DB Error". *)
Theorem store_failures_reported fuel s :
  (handleFolderSelect w fuel s).1 <> OutOfFuel ->
  (forall m s0 e,
     dbOpen (store s0) = true ->
     idbFault w (requests (store s0)) = Some e ->
     (LocalDB.addMatch w m s0).1 = Throw e) /\
  exists l,
    console (handleFolderSelect w fuel s).2 = console s ++ l /\
    forall k e,
      (requests (store s) <= k
       < requests (store (handleFolderSelect w fuel s).2))%nat ->
      idbFault w k = Some e ->
      (exists label, ConsoleError label e ∈ l) \/
      (dbOpen (store s) = false /\
       exists label, ConsoleError label DBErrorString ∈ l).
Proof.
  intros Hcut. split.
  { intros m s0 e Ho Hf. by apply addMatch_rejects. }
  pose proof (shown_handleFolderSelect fuel s) as Hs.
  pose proof (handleFolderSelect_no_throw fuel s) as Hnt.
  destruct (handleFolderSelect w fuel s) as [[[]| x |] s']; cbn [fst snd completion] in *;
    [|by destruct (Hnt x)|done].
  destruct Hs as [[=]|(l & Hc & _ & _ & H)].
  exists l. split; [done|]. intros k e Hk Hf.
  destruct (H k e Hk Hf) as [[[=]|Hin]|[Hop [[=]|Hin]]]; [by left|by right].
Qed.

End Faults.

(** *** Termination of the matching loop *)

Section Termination.
Variable w : World.

Lemma completes_addMatch m : completes (LocalDB.addMatch w m).
Proof.
  unfold LocalDB.addMatch, LocalDB.ensureInit, LocalDB.init.
  repeat completes_step.
Qed.

Lemma whileExec_completes entity text fh pageNum fuel : forall li,
  entity <> [] ->
  (0 < fuel)%nat -> (length text + 2 <= fuel + li)%nat ->
  completes (whileExec w fuel
               (Matcher.mkRegExp (MatcherFacts.programOf entity) true true li)
               text entity fh pageNum).
Proof.
  induction fuel as [|fuel IH]; intros li Hne H0 Hfuel; [lia|].
  cbn [whileExec].
  destruct (Matcher.exec _ _ _) as [[m|] regex'] eqn:He; [|apply completes_ret].
  apply MatcherFacts.exec_Some in He as (-> & Hli & [Hin _ _ _]).
  assert (0 < length entity)%nat by (destruct entity; [done|simpl; lia]).
  completes_step; [completes_step|].
  completes_step; [completes_step; apply completes_addMatch|].
  completes_step; [completes_step|].
  apply IH; [done|lia|lia].
Qed.

(** The matching step of one page is total for non-empty entities. *)
Lemma forEntities_completes entities text fh pageNum fuel :
  Forall (fun e => e <> []) entities ->
  (length text + 2 <= fuel)%nat ->
  completes (forEntities w fuel entities text fh pageNum).
Proof.
  intros Hall Hfuel. induction Hall as [|e entities He Hall IH];
    cbn [forEntities]; [apply completes_ret|].
  rewrite MatcherFacts.createExactMatchRegex_program.
  completes_step; [|apply IH].
  apply whileExec_completes; [done|lia|lia].
Qed.

(** C10: for a non-empty entity and any page text, every successful
    [exec] reports an occurrence of the entity's length and moves
    [lastIndex] strictly forward, to the end of that occurrence and not
    beyond the text; so the sequence of calls of [exec] ends with [null]:
    a fuel of the text length plus two, or any larger one, yields the
    list of occurrences, and with such a fuel the loop of the page
    scanner over the occurrences of the entity, from any state, does not
    run out of fuel. *)
Theorem extraction_terminates entity text :
  entity <> [] ->
  (forall li m R',
     Matcher.exec (unicodeUpper w)
       (Matcher.mkRegExp (MatcherFacts.programOf entity) true true li) text
       = (Some m, R') ->
     Matcher.lastIndex R' = (Matcher.index m + length entity)%nat /\
     (li < Matcher.lastIndex R' <= length text)%nat /\
     length (Matcher.matched m) = length entity) /\
  (exists ms, forall fuel, (length text + 2 <= fuel)%nat ->
     Matcher.findAll (unicodeUpper w) fuel entity text = Some ms) /\
  (forall fuel regex fh pageNum s,
     (length text + 2 <= fuel)%nat ->
     Matcher.createExactMatchRegex entity true = Some regex ->
     (whileExec w fuel regex text entity fh pageNum s).1 <> OutOfFuel).
Proof.
  intros Hne.
  destruct (MatcherFacts.findAll_total (unicodeUpper w) entity text Hne)
    as [Hexec Hall].
  split; [exact Hexec|]. split; [exact Hall|].
  intros fuel regex fh pageNum s Hfuel Hre.
  rewrite MatcherFacts.createExactMatchRegex_program in Hre.
  injection Hre as <-.
  apply whileExec_completes; [done|lia|lia].
Qed.

End Termination.

End ScanFacts.

(** * Instances on the example world *)

Module Instances.
Import Matcher MatcherFacts.

(** The example of the specification: one hit, the standalone word. *)
Example cat_in_catalog :
  findAll (unicodeUpper Example.world) 30 (str "Cat") (str "The Catalog cat sat")
  = Some [mkExec 12 (str "cat")].
Proof. by vm_compute. Qed.

Example special_characters_literal :
  findAll (unicodeUpper Example.world) 30 (str "a.b") (str "axb a.b (a.b) a.bc")
  = Some [mkExec 4 (str "a.b"); mkExec 9 (str "a.b")].
Proof. by vm_compute. Qed.

(** An empty entity would never let the loop end. *)
Example empty_entity_loops :
  findAll (unicodeUpper Example.world) 1000 [] (str "cat") = None.
Proof. by vm_compute. Qed.

Lemma findAll_occurrences_witness :
  StronglySorted (fun a b => (index a + length (str "Cat") <= index b)%nat)
    [mkExec 12 (str "cat")] /\
  Forall (Occurrence (unicodeUpper Example.world) (str "Cat")
            (str "The Catalog cat sat"))
    [mkExec 12 (str "cat")].
Proof.
  exact (findAll_occurrences (unicodeUpper Example.world) 30 (str "Cat")
           (str "The Catalog cat sat") [mkExec 12 (str "cat")] cat_in_catalog).
Defined.

Lemma index_in_text : 0 <= 0 <= jslength (str "cat sat").
Proof. by vm_compute. Qed.

Lemma snippet_boundaries_witness :
  let start := snippetStart 0 in
  let end_ := snippetEnd (str "cat sat") (str "cat") 0 in
  (0 <= start <= 0 /\ 0 <= end_ <= jslength (str "cat sat")) /\
  snippetOf (str "cat sat") (str "cat") 0
    = str "..." ++ substring (str "cat sat") start 0
        ++ substring (str "cat sat") 0 end_ ++ str "..." /\
  (0 = 0 ->
     substring (str "cat sat") start 0 = [] /\
     snippetOf (str "cat sat") (str "cat") 0
       = str "..." ++ take (Z.to_nat end_) (str "cat sat") ++ str "...").
Proof.
  exact (SnippetFacts.snippet_boundaries (str "cat sat") (str "cat") 0 index_in_text).
Defined.

Example snippet_at_start :
  snippetOf (str "cat sat") (str "cat") 0 = str "...cat sat...".
Proof. by vm_compute. Qed.

Import ScanFacts.

Definition broken : FileHandle := Example.pdf "broken.pdf" "".
Definition docA : FileHandle := Example.pdf "a.pdf" "The Catalog cat sat on a (cat).".
Definition docB : FileHandle := Example.pdf "b.pdf" "Cat, concat; cat".
Definition start : State := Example.initial Example.entities.

Lemma start_flag_clear : abortControllerRef (suspend start) = false.
Proof. by vm_compute. Qed.

Lemma decode_failure_isolated_witness :
  let r := processFile Example.world 100 Example.entities broken (suspend start) in
  records (store r.2) = records (store start) /\
  matchCount r.2 = matchCount start /\
  console r.2
  = console start
    ++ [ConsoleError (Some (str "Fehler bei " ++ fh_name broken ++ str ":"))
          (Exception (str "InvalidPDFException"))] /\
  (r.1 = Ok tt \/
   (S (fileCount start) mod 5 = 0)%nat /\ exists e', r.1 = Throw e') /\
  (r.1 = Ok tt ->
   forAwait Example.world 100 Example.entities (broken :: [docB]) start
   = forAwait Example.world 100 Example.entities [docB] r.2).
Proof.
  exact (decode_failure_isolated Example.world 100 Example.entities broken
           [docB] start (mkFile (Resolved (mkBuffer []))) (mkBuffer [])
           (Exception (str "InvalidPDFException"))
           start_flag_clear eq_refl eq_refl eq_refl).
Defined.

(** After the document that does not decode, the next one is scanned
    and its two matches recorded. *)
Example scan_goes_on :
  let r := forAwait Example.world 100 Example.entities [broken; docB] start in
  r.1 = Ok tt /\
  (fun kv => (fileName kv.2, entity kv.2)) <$> records (store r.2)
  = [(str "b.pdf", str "cat"); (str "b.pdf", str "cat")] /\
  filesProcessed (stats (view r.2)) = 2%nat /\
  matchesFound (stats (view r.2)) = 2%nat.
Proof. by vm_compute. Qed.

Definition stopping : State := Example.stoppingAt 3 start.

Lemma stopping_flag_clear : abortControllerRef (suspend stopping) = false.
Proof. by vm_compute. Qed.

Lemma stopping_in_flight :
  (tick stopping < 3
   < tick (processFile Example.world 100 Example.entities docA (suspend stopping)).2)%nat.
Proof. vm_compute. lia. Qed.

Lemma cancel_between_documents_witness :
  let cancelled := forAwait Example.world 100 Example.entities [docA; docB] stopping in
  let alone := forAwait Example.world 100 Example.entities [docA] (withoutStop stopping) in
  cancelled.1 = alone.1 /\
  alike cancelled.2 alone.2 /\
  stats (view cancelled.2) = stats (view alone.2) /\
  records (store cancelled.2) = records (store alone.2) /\
  ((processFile Example.world 100 Example.entities docA (suspend stopping)).1 = Ok tt ->
   cancelled.1 = Ok tt /\ abortControllerRef cancelled.2 = true).
Proof.
  exact (cancel_between_documents Example.world 100 Example.entities docA [docB]
           stopping 3 eq_refl stopping_flag_clear stopping_in_flight).
Defined.

(** Stop is clicked while [a.pdf] is scanned: its three matches are
    recorded, [b.pdf] is not started. *)
Example cancelled_scan :
  let r := forAwait Example.world 100 Example.entities [docA; docB] stopping in
  r.1 = Ok tt /\
  abortControllerRef r.2 = true /\
  (fun kv => fileName kv.2) <$> records (store r.2)
  = [str "a.pdf"; str "a.pdf"; str "a.pdf"] /\
  filesProcessed (stats (view r.2)) = 1%nat /\
  matchesFound (stats (view r.2)) = 3%nat.
Proof. by vm_compute. Qed.




Lemma faulty_scan_returns :
  (handleFolderSelect Example.faultyWorld 100 start).1 <> OutOfFuel.
Proof. by vm_compute. Qed.

Lemma store_failures_reported_witness :
  (forall m s0 e,
     dbOpen (store s0) = true ->
     idbFault Example.faultyWorld (requests (store s0)) = Some e ->
     (LocalDB.addMatch Example.faultyWorld m s0).1 = Throw e) /\
  exists l,
    console (handleFolderSelect Example.faultyWorld 100 start).2
    = console start ++ l /\
    forall k e,
      (requests (store start) <= k
       < requests (store (handleFolderSelect Example.faultyWorld 100 start).2))%nat ->
      idbFault Example.faultyWorld k = Some e ->
      (exists label, ConsoleError label e ∈ l) \/
      (dbOpen (store start) = false /\
       exists label, ConsoleError label DBErrorString ∈ l).
Proof.
  exact (store_failures_reported Example.faultyWorld 100 start faulty_scan_returns).
Defined.

(** The second insert of the scan fails: the console names the document
    and carries the error; the scan goes on with the other documents. *)
Example faulty_scan :
  let r := handleFolderSelect Example.faultyWorld 100 start in
  r.1 = Ok tt /\
  console r.2
  = [ConsoleError (Some (str "Fehler bei a.pdf:")) (Exception (str "QuotaExceededError"));
     ConsoleError (Some (str "Fehler bei broken.pdf:"))
       (Exception (str "InvalidPDFException"))] /\
  (fun kv => fileName kv.2) <$> records (store r.2)
  = [str "a.pdf"; str "b.pdf"; str "b.pdf"].
Proof. by vm_compute. Qed.

Lemma cat_not_empty : str "cat" <> [].
Proof. by vm_compute. Qed.

Lemma extraction_terminates_witness :
  (forall li m R',
     Matcher.exec (unicodeUpper Example.world)
       (Matcher.mkRegExp (MatcherFacts.programOf (str "cat")) true true li)
       (str "Catalog cat")
       = (Some m, R') ->
     Matcher.lastIndex R' = (Matcher.index m + length (str "cat"))%nat /\
     (li < Matcher.lastIndex R' <= length (str "Catalog cat"))%nat /\
     length (Matcher.matched m) = length (str "cat")) /\
  (exists ms, forall fuel, (length (str "Catalog cat") + 2 <= fuel)%nat ->
     Matcher.findAll (unicodeUpper Example.world) fuel (str "cat") (str "Catalog cat")
     = Some ms) /\
  (forall fuel regex fh pageNum s,
     (length (str "Catalog cat") + 2 <= fuel)%nat ->
     Matcher.createExactMatchRegex (str "cat") true = Some regex ->
     (whileExec Example.world fuel regex (str "Catalog cat") (str "cat") fh pageNum s).1
     <> OutOfFuel).
Proof.
  exact (extraction_terminates Example.world (str "cat") (str "Catalog cat")
           cat_not_empty).
Defined.

(** With the permission granted the page is drawn and the matching
    text item highlighted; a file that is gone is reported by an alert. *)
Example render_granted_draws :
  let r := loadAndRenderMatch Example.world (Example.recordOf "cat" docA) start in
  r.1 = Ok tt /\
  (fun c => length (cv_ops c)) <$> canvas r.2 = Some 2%nat /\
  alerts r.2 = [].
Proof. by vm_compute. Qed.

Definition movedPdf : FileHandle :=
  mkHandle (str "a.pdf") (Rejected (Exception (str "NotFoundError")))
    (Resolved Granted) (Resolved Granted).

Example render_moved_file_alerts :
  let r := loadAndRenderMatch Example.world (Example.recordOf "cat" movedPdf) start in
  r.1 = Ok tt /\
  canvas r.2 = canvas start /\
  alerts r.2 = [str "Datei konnte nicht geladen werden. Wurde sie verschoben?"].
Proof. by vm_compute. Qed.

(** A scan for the entity "constructor" ends with a string in the
    grouped counts. *)
Example scan_constructor :
  let w := Example.worldWith (fun _ => None)
             (Some (Resolved (FileEntry (Example.pdf "c.pdf" "a constructor")))) in
  let r := handleFolderSelect w 100 (Example.initial [str "constructor"]) in
  r.1 = Ok tt /\
  length (records (store r.2)) = 1%nat /\
  entityCounts (view r.2) !! str "constructor"
  = Some (VStr (str "function Object() { [native code] }1")).
Proof. by vm_compute. Qed.

(** The records of the example folder. *)
Example scan_folder :
  let r := handleFolderSelect Example.scanWorld 100 start in
  r.1 = Ok tt /\
  (fun kv => (kv.1, fileName kv.2, entity kv.2, textSnippet kv.2))
    <$> records (store r.2)
  = [(1%nat, str "a.pdf", str "cat", str "...The Catalog cat sat on a (cat)....");
     (2%nat, str "a.pdf", str "cat", str "...The Catalog cat sat on a (cat)....");
     (3%nat, str "a.pdf", str "(cat)", str "...The Catalog cat sat on a (cat)....");
     (4%nat, str "b.pdf", str "cat", str "...Cat, concat; cat...");
     (5%nat, str "b.pdf", str "cat", str "...Cat, concat; cat...")] /\
  stats (view r.2) = mkStats 3 5 (str "b.pdf").
Proof. by vm_compute. Qed.

End Instances.

(** * More of the Matcher *)

Module MatcherMore.
Import Matcher MatcherFacts.

(** ASCII upper-casing of a code unit. *)
Definition asciiUpper (c : Z) : Z :=
  if (97 <=? c) && (c <=? 122) then c - 32 else c.

Section Engine.
Variable unicodeUpper : Z -> jsstring.

Abbreviation canon := (Canonicalize unicodeUpper true).
Local Arguments Canonicalize : simpl never.

(** The entity occurs at position [i] of the text: up to case folding,
    inside the text, and with the boundaries its ends ask for. *)
Definition occursAt (entity text : jsstring) (i : nat) : Prop :=
  (i + length entity <= length text)%nat /\
  canon <$> take (length entity) (drop i text) = canon <$> entity /\
  boundaryOk entity text i.

Lemma matchNodes_chars_intro entity k s : forall i,
  (i + length entity <= length s)%nat ->
  canon <$> take (length entity) (drop i s) = canon <$> entity ->
  matchNodes unicodeUpper true (map Char entity ++ k) s i
  = matchNodes unicodeUpper true k s (i + length entity).
Proof.
  induction entity as [|c entity IH]; intros i Hlen Hw.
  - cbn [map app length]. by rewrite Nat.add_0_r.
  - cbn [map app matchNodes length] in *.
    destruct (lookup_lt_is_Some_2 s i) as [d Hd]; [lia|].
    rewrite Hd. rewrite (drop_S _ _ _ Hd) in Hw. cbn [take] in Hw.
    rewrite !fmap_cons in Hw. injection Hw as Hc Hw.
    rewrite Hc, Z.eqb_refl. rewrite IH by (done || lia).
    f_equal. lia.
Qed.

Lemma occursAt_matches entity s i :
  occursAt entity s i ->
  matchNodes unicodeUpper true (programOf entity) s i = Some (i + length entity)%nat.
Proof.
  intros (Hlen & Hw & Hb1 & Hb2). unfold programOf.
  assert (startsWithWord entity = true ->
          xorb (isWordBefore s i) (isWordAt s i) = true) as Hs.
  { intros Hst. rewrite (Hb1 Hst).
    destruct entity as [|c entity]; [done|]. cbn [length startsWithWord] in *.
    destruct (lookup_lt_is_Some_2 s i) as [d Hd]; [lia|].
    rewrite (drop_S _ _ _ Hd) in Hw. cbn [take] in Hw.
    rewrite !fmap_cons in Hw. injection Hw as Hc _.
    unfold isWordAt. by rewrite Hd, (canon_word unicodeUpper d c Hst Hc). }
  assert (endsWithWord entity = true ->
          xorb (isWordBefore s (i + length entity))
               (isWordAt s (i + length entity)) = true) as He.
  { intros Hen. rewrite (Hb2 Hen). unfold endsWithWord in Hen.
    destruct (last entity) as [c|] eqn:Hl; [|done].
    apply last_Some in Hl as [entity' ->].
    rewrite length_app in *. cbn [length] in *.
    destruct (lookup_lt_is_Some_2 s (i + length entity')) as [d Hd]; [lia|].
    assert (canon d = canon c) as Hc.
    { apply (f_equal (fun l => l !! length entity')) in Hw.
      rewrite !list_lookup_fmap in Hw.
      rewrite lookup_take_lt, lookup_drop, Hd in Hw by lia.
      rewrite lookup_app_r, Nat.sub_diag in Hw by lia.
      cbn in Hw. congruence. }
    replace (i + (length entity' + 1))%nat with (S (i + length entity')) by lia.
    cbn [isWordBefore]. unfold isWordAt at 1.
    by rewrite Hd, (canon_word unicodeUpper d c Hen Hc). }
  destruct (startsWithWord entity); cbn [boundary app matchNodes];
    rewrite ?Hs by done; rewrite matchNodes_chars_intro by done;
    destruct (endsWithWord entity); cbn [boundary matchNodes];
    rewrite ?He by done.
  all: reflexivity.
Qed.

Lemma matches_occursAt entity s i e :
  (i <= length s)%nat ->
  matchNodes unicodeUpper true (programOf entity) s i = Some e ->
  occursAt entity s i.
Proof.
  intros Hi H. apply matchNodes_program in H as (_ & Hlen & Hw & Hb); [|done].
  split; [exact Hlen|]. split; [exact Hw|exact Hb].
Qed.

(** [search] finds the first start position that matches. *)
Lemma search_first ic prog s n : forall i j e,
  search unicodeUpper ic prog s i n = Some (j, e) ->
  forall k, (i <= k < j)%nat -> matchNodes unicodeUpper ic prog s k = None.
Proof.
  induction n as [|n IH]; intros i j e; cbn [search]; [done|].
  destruct (matchNodes unicodeUpper ic prog s i) as [e'|] eqn:Hm.
  - intros [= <- <-] k Hk. lia.
  - intros H k Hk. destruct (decide (k = i)) as [->|]; [done|].
    apply (IH _ _ _ H). lia.
Qed.

Lemma search_None ic prog s n : forall i,
  search unicodeUpper ic prog s i n = None ->
  forall k, (i <= k < i + n)%nat -> matchNodes unicodeUpper ic prog s k = None.
Proof.
  induction n as [|n IH]; intros i; cbn [search]; [intros _ k Hk; lia|].
  destruct (matchNodes unicodeUpper ic prog s i) as [e'|] eqn:Hm; [done|].
  intros H k Hk. destruct (decide (k = i)) as [->|]; [done|].
  apply (IH _ H). lia.
Qed.

(** Every position at which the entity occurs, from [lastIndex] on, is
    reported or lies inside a reported occurrence. *)
Lemma execAll_complete entity s fuel : forall li ms,
  entity <> [] ->
  execAll unicodeUpper fuel (mkRegExp (programOf entity) true true li) s = Some ms ->
  forall j, (li <= j)%nat -> occursAt entity s j ->
  exists m, m ∈ ms /\ (index m <= j < index m + length entity)%nat.
Proof.
  induction fuel as [|fuel IH]; intros li ms Hne; cbn [execAll]; [done|].
  destruct (exec _ _ _) as [[m|] R'] eqn:He.
  - pose proof He as He'. apply exec_Some in He' as (-> & Hli & Hocc).
    destruct (execAll _ _ _ _) as [ms'|] eqn:Hall; [|done].
    intros [= <-] j Hj Hoc.
    unfold exec in He. cbn [global lastIndex ignoreCase program] in He.
    destruct (search _ _ _ _ _ _) as [[i0 e0]|] eqn:Hs; [|done].
    injection He as <- _. cbn [index] in *.
    assert (~ (j < i0)%nat) as Hge.
    { intros Hlt. pose proof (search_first _ _ _ _ _ _ _ Hs j ltac:(lia)) as Hn.
      by rewrite (occursAt_matches _ _ _ Hoc) in Hn. }
    destruct (decide (j < i0 + length entity)%nat).
    + eexists. split; [apply list_elem_of_here|]. cbn [index]. lia.
    + destruct (IH _ _ Hne Hall j ltac:(lia) Hoc) as (m' & Hin & Hr).
      exists m'. split; [by apply list_elem_of_further|done].
  - intros [= <-] j Hj Hoc. exfalso.
    unfold exec in He. cbn [global lastIndex ignoreCase program] in He.
    destruct (search _ _ _ _ _ _) as [[i0 e0]|] eqn:Hs; [done|].
    destruct Hoc as (Hlen & Hw & Hb).
    pose proof (search_None _ _ _ _ _ Hs j ltac:(lia)) as Hn.
    by rewrite (occursAt_matches entity s j) in Hn.
Qed.

End Engine.

(** X1: the pattern built for an entity is never rejected by the
    [RegExp] constructor, whatever characters the entity holds; it has
    the flags asked for and [lastIndex] 0, and its escaped part reads
    back, character by character, as the entity itself. *)
Theorem createExactMatchRegex_never_rejects entity g :
  parsePattern (escapeRegExp entity) = Some (Char <$> entity) /\
  (length entity <= length (escapeRegExp entity) <= 2 * length entity)%nat /\
  exists R,
    createExactMatchRegex entity g = Some R /\
    global R = g /\ ignoreCase R = true /\ lastIndex R = 0%nat /\
    program R
    = (if startsWithWord entity then [WordBoundary] else [])
      ++ (Char <$> entity)
      ++ (if endsWithWord entity then [WordBoundary] else []).
Proof.
  split.
  { rewrite <- (app_nil_r (escapeRegExp entity)), parse_escaped. cbn.
    by rewrite app_nil_r. }
  split.
  { induction entity as [|c entity IH]; cbn [escapeRegExp flat_map length]; [lia|].
    fold (escapeRegExp entity). rewrite length_app.
    destruct (isSpecial c); cbn [length]; lia. }
  eexists. split; [apply createExactMatchRegex_program|]. done.
Qed.

(** X2: no occurrence is missed.  When the extraction loop returns for
    a non-empty entity, every position at which the entity occurs in the
    text (up to case, with the word boundaries its ends require) is the
    start of a reported occurrence or lies inside one reported earlier. *)
Theorem findAll_complete unicodeUpper fuel entity text ms j :
  entity <> [] ->
  findAll unicodeUpper fuel entity text = Some ms ->
  occursAt unicodeUpper entity text j ->
  exists m, m ∈ ms /\ (index m <= j < index m + length entity)%nat.
Proof.
  unfold findAll. rewrite createExactMatchRegex_program. cbn [mbind option_bind].
  intros Hne Hall Hoc.
  apply (execAll_complete unicodeUpper entity text fuel 0%nat ms);
    [done|exact Hall|lia|done].
Qed.

(** *** Letter case *)

Section Case.
Variable unicodeUpper : Z -> jsstring.

Abbreviation canon := (Canonicalize unicodeUpper true).
Local Arguments Canonicalize : simpl never.

Lemma asciiUpper_idem c : asciiUpper (asciiUpper c) = asciiUpper c.
Proof.
  unfold asciiUpper. destruct ((97 <=? c) && (c <=? 122)) eqn:H; [|by rewrite H].
  apply andb_true_iff in H as [H1%Z.leb_le H2%Z.leb_le].
  destruct (Z.leb_spec 97 (c - 32)); [lia|done].
Qed.

Lemma canon_asciiUpper c : canon (asciiUpper c) = canon c.
Proof.
  destruct (Z.lt_ge_cases c 128) as [Hlt|Hge].
  - assert (asciiUpper c < 128).
    { unfold asciiUpper. destruct (_ && _); lia. }
    rewrite !canon_ascii by done. apply asciiUpper_idem.
  - unfold asciiUpper. destruct (Z.leb_spec c 122); [lia|].
    by rewrite andb_false_r.
Qed.

Lemma isWordChar_asciiUpper c : isWordChar (asciiUpper c) = isWordChar c.
Proof.
  apply eq_true_iff_eq. rewrite !(isWordChar_spec unicodeUpper). unfold asciiUpper.
  destruct ((97 <=? c) && (c <=? 122)) eqn:H; [|reflexivity].
  apply andb_true_iff in H as [H1%Z.leb_le H2%Z.leb_le]. split; lia.
Qed.

(** Two strings that differ at most in the case of ASCII letters. *)
Definition sameLetters (s1 s2 : jsstring) : Prop :=
  asciiUpper <$> s1 = asciiUpper <$> s2.

Lemma sameLetters_length s1 s2 : sameLetters s1 s2 -> length s1 = length s2.
Proof. intros H. apply (f_equal length) in H. by rewrite !length_fmap in H. Qed.

Lemma sameLetters_lookup s1 s2 i :
  sameLetters s1 s2 -> asciiUpper <$> (s1 !! i) = asciiUpper <$> (s2 !! i).
Proof. intros H. by rewrite <- !list_lookup_fmap, H. Qed.

Lemma sameLetters_isWordAt s1 s2 i :
  sameLetters s1 s2 -> isWordAt s1 i = isWordAt s2 i.
Proof.
  intros H. apply (sameLetters_lookup _ _ i) in H. unfold isWordAt.
  destruct (s1 !! i) as [c1|], (s2 !! i) as [c2|]; try done.
  injection H as H. by rewrite <- (isWordChar_asciiUpper c1), H, isWordChar_asciiUpper.
Qed.

Lemma sameLetters_isWordBefore s1 s2 i :
  sameLetters s1 s2 -> isWordBefore s1 i = isWordBefore s2 i.
Proof. intros H. destruct i; [done|]. by apply sameLetters_isWordAt. Qed.

Lemma sameLetters_canon s1 s2 i c1 c2 :
  sameLetters s1 s2 -> s1 !! i = Some c1 -> s2 !! i = Some c2 -> canon c1 = canon c2.
Proof.
  intros H H1 H2. apply (sameLetters_lookup _ _ i) in H. rewrite H1, H2 in H.
  injection H as H. by rewrite <- (canon_asciiUpper c1), H, canon_asciiUpper.
Qed.

(** Programs that agree up to the case of their characters. *)
Inductive sameNode : Node -> Node -> Prop :=
  | same_boundary : sameNode WordBoundary WordBoundary
  | same_char c1 c2 : canon c1 = canon c2 -> sameNode (Char c1) (Char c2).

Lemma matchNodes_sameLetters p1 p2 s1 s2 :
  Forall2 sameNode p1 p2 -> sameLetters s1 s2 ->
  forall i, matchNodes unicodeUpper true p1 s1 i = matchNodes unicodeUpper true p2 s2 i.
Proof.
  intros Hp Hs. induction Hp as [|n1 n2 p1 p2 Hn Hp IH]; intros i; [done|].
  destruct Hn as [|c1 c2 Hc]; cbn [matchNodes].
  - rewrite (sameLetters_isWordBefore s1 s2 i Hs), (sameLetters_isWordAt s1 s2 i Hs).
    by rewrite IH.
  - pose proof (sameLetters_lookup s1 s2 i Hs) as Hl.
    destruct (s1 !! i) as [d1|] eqn:H1, (s2 !! i) as [d2|] eqn:H2; try done.
    rewrite (sameLetters_canon s1 s2 i d1 d2 Hs H1 H2), Hc. by rewrite IH.
Qed.

Lemma search_sameLetters p1 p2 s1 s2 n :
  Forall2 sameNode p1 p2 -> sameLetters s1 s2 ->
  forall i, search unicodeUpper true p1 s1 i n = search unicodeUpper true p2 s2 i n.
Proof.
  intros Hp Hs. induction n as [|n IH]; intros i; cbn [search]; [done|].
  rewrite (matchNodes_sameLetters p1 p2 s1 s2 Hp Hs). by rewrite IH.
Qed.

Lemma execAll_sameLetters p1 p2 s1 s2 fuel :
  Forall2 sameNode p1 p2 -> sameLetters s1 s2 ->
  forall li,
    option_map (map index) (execAll unicodeUpper fuel (mkRegExp p1 true true li) s1)
    = option_map (map index) (execAll unicodeUpper fuel (mkRegExp p2 true true li) s2).
Proof.
  intros Hp Hs. induction fuel as [|fuel IH]; intros li; cbn [execAll]; [done|].
  unfold exec. cbn [global lastIndex ignoreCase program].
  rewrite (search_sameLetters p1 p2 s1 s2 _ Hp Hs), (sameLetters_length s1 s2 Hs).
  destruct (search _ _ _ _ _ _) as [[i e]|]; [|done].
  specialize (IH e).
  destruct (execAll _ fuel (mkRegExp p1 _ _ _) _), (execAll _ fuel (mkRegExp p2 _ _ _) _);
    cbn in *; congruence.
Qed.

Lemma programOf_sameLetters e1 e2 :
  sameLetters e1 e2 -> Forall2 sameNode (programOf e1) (programOf e2).
Proof.
  intros H. unfold programOf.
  assert (startsWithWord e1 = startsWithWord e2) as ->.
  { pose proof (sameLetters_isWordAt e1 e2 0 H) as H0. unfold isWordAt in H0.
    by destruct e1, e2. }
  assert (endsWithWord e1 = endsWithWord e2) as ->.
  { pose proof (sameLetters_length e1 e2 H) as Hlen.
    pose proof (sameLetters_isWordAt e1 e2 (pred (length e1)) H) as H0.
    unfold isWordAt in H0. rewrite Hlen in H0 at 2.
    unfold endsWithWord. by rewrite !last_lookup. }
  apply Forall2_app; [|apply Forall2_app].
  - destruct (startsWithWord e2); repeat constructor.
  - unfold sameLetters in H. revert e2 H.
    induction e1 as [|c1 e1 IH]; intros [|c2 e2] H; try done; try (by constructor).
    rewrite !fmap_cons in H. injection H as Hc H. cbn [map].
    constructor; [|by apply IH]. constructor.
    by rewrite <- (canon_asciiUpper c1), Hc, canon_asciiUpper.
  - destruct (endsWithWord e2); repeat constructor.
Qed.

End Case.

(** X3: matching ignores the case of ASCII letters, in the entity and
    in the text alike: two entities that differ only in letter case,
    run over two texts that differ only in letter case, are found at
    the same positions. *)
Theorem findAll_ignores_case unicodeUpper fuel e1 e2 t1 t2 :
  sameLetters e1 e2 -> sameLetters t1 t2 ->
  option_map (map index) (findAll unicodeUpper fuel e1 t1)
  = option_map (map index) (findAll unicodeUpper fuel e2 t2).
Proof.
  intros He Ht. unfold findAll. rewrite !createExactMatchRegex_program.
  cbn [mbind option_bind].
  by apply execAll_sameLetters; [apply programOf_sameLetters|].
Qed.

End MatcherMore.

(** ** What the Matcher finds, exactly *)

Module MatcherExact.
Import Matcher MatcherFacts MatcherMore.

(** The letters of the Latin-1 supplement (ª µ º À-Ö Ø-ö ø-ÿ): letters
    that [\w] does not count among the word characters. *)
Definition isLatin1Letter (c : Z) : bool :=
  (c =? 170) || (c =? 181) || (c =? 186) ||
  ((192 <=? c) && (c <=? 255) && negb (c =? 215) && negb (c =? 247)).

(** A word character as the specification words it: a letter, a digit
    or the underscore. *)
Definition specWordChar (c : Z) : bool := isWordChar c || isLatin1Letter c.

Section Engine.
Variable unicodeUpper : Z -> jsstring.

Abbreviation canon := (Canonicalize unicodeUpper true).
Local Arguments Canonicalize : simpl never.

Lemma sameLetters_fold a : forall b,
  sameLetters a b -> canon <$> a = canon <$> b.
Proof.
  unfold sameLetters. induction a as [|c a IH]; intros [|d b] H; try done.
  rewrite !fmap_cons in *. injection H as Hc H. f_equal; [|by apply IH].
  by rewrite <- (canon_asciiUpper unicodeUpper c), Hc, canon_asciiUpper.
Qed.

Lemma isSpecial_spec c :
  isSpecial c = true ->
  c = 46 \/ c = 42 \/ c = 43 \/ c = 63 \/ c = 94 \/ c = 36 \/ c = 123 \/
  c = 125 \/ c = 40 \/ c = 41 \/ c = 124 \/ c = 91 \/ c = 93 \/ c = 92.
Proof. unfold isSpecial. rewrite !orb_true_iff, !Z.eqb_eq. tauto. Qed.

(** Case folding identifies a special character with itself only. *)
Lemma canon_special d c :
  isSpecial c = true -> canon d = canon c -> d = c.
Proof.
  intros Hc%isSpecial_spec Heq.
  assert (canon c = c) as Hcc.
  { rewrite (canon_ascii unicodeUpper) by lia.
    destruct (Z.leb_spec 97 c), (Z.leb_spec c 122); cbn [andb]; lia. }
  rewrite Hcc in Heq. destruct (Z.lt_ge_cases d 128) as [Hd|Hd].
  - rewrite (canon_ascii unicodeUpper) in Heq by done.
    destruct (Z.leb_spec 97 d), (Z.leb_spec d 122); cbn [andb] in Heq; lia.
  - pose proof (canon_nonascii unicodeUpper d Hd). lia.
Qed.

Lemma occurrence_literal entity text m k c :
  Occurrence unicodeUpper entity text m ->
  entity !! k = Some c -> isSpecial c = true ->
  text !! (index m + k)%nat = Some c.
Proof.
  intros [Hin Htext Hfold _] Hk Hc.
  assert (k < length entity)%nat as Hlt by (by apply lookup_lt_Some in Hk).
  rewrite Htext in Hfold.
  apply (f_equal (fun l => l !! k)) in Hfold.
  rewrite !list_lookup_fmap, lookup_take_lt, lookup_drop, Hk in Hfold by done.
  destruct (text !! (index m + k)%nat) as [d|]; [|done].
  cbn in Hfold. injection Hfold as Hfold. f_equal. by apply canon_special.
Qed.

Lemma occurrence_boundary entity text m :
  Occurrence unicodeUpper entity text m ->
  (startsWithWord entity = true ->
   forall i c, index m = S i -> text !! i = Some c -> isWordChar c = false) /\
  (endsWithWord entity = true ->
   forall c, text !! (index m + length entity)%nat = Some c -> isWordChar c = false).
Proof.
  intros [_ _ _ [Hb1 Hb2]]. split.
  - intros Hs i c Hi Hc. specialize (Hb1 Hs). rewrite Hi in Hb1.
    cbn [isWordBefore] in Hb1. unfold isWordAt in Hb1. by rewrite Hc in Hb1.
  - intros He c Hc. specialize (Hb2 He). unfold isWordAt in Hb2. by rewrite Hc in Hb2.
Qed.

End Engine.

(** C1: the occurrences the extraction loop reports for an
    entity in a text are in order and do not overlap.  Each stands
    inside the text and is the entity up to case folding, character by
    character, so that a character that is special in the pattern
    language stands in the text as itself.  The boundary rule holds for
    the word characters of the pattern language, the ASCII letters, the
    digits and the underscore: when the entity starts with one, the
    character before the occurrence, if any, is none; when it ends with
    one, the character after the occurrence, if any, is none.  And
    matching is case-insensitive: wherever the text holds the entity in
    any ASCII letter case, with the boundaries its ends require, that
    place is reported or lies inside an occurrence reported before. *)
Theorem findAll_exact unicodeUpper fuel entity text ms :
  findAll unicodeUpper fuel entity text = Some ms ->
  StronglySorted (fun a b => (index a + length entity <= index b)%nat) ms /\
  Forall (Occurrence unicodeUpper entity text) ms /\
  (forall m k c,
     m ∈ ms -> entity !! k = Some c -> isSpecial c = true ->
     text !! (index m + k)%nat = Some c) /\
  (forall m, m ∈ ms ->
     (startsWithWord entity = true ->
      forall i c, index m = S i -> text !! i = Some c ->
        ~ (48 <= c <= 57 \/ 65 <= c <= 90 \/ 97 <= c <= 122 \/ c = 95)) /\
     (endsWithWord entity = true ->
      forall c, text !! (index m + length entity)%nat = Some c ->
        ~ (48 <= c <= 57 \/ 65 <= c <= 90 \/ 97 <= c <= 122 \/ c = 95))) /\
  (entity <> [] ->
   forall j,
     (j + length entity <= length text)%nat ->
     sameLetters (take (length entity) (drop j text)) entity ->
     boundaryOk entity text j ->
     exists m, m ∈ ms /\ (index m <= j < index m + length entity)%nat).
Proof.
  unfold findAll. rewrite createExactMatchRegex_program. cbn [mbind option_bind].
  intros Hall. pose proof (execAll_sound _ _ _ _ _ _ Hall) as (Hocc & _ & Hsorted).
  split; [exact Hsorted|]. split; [exact Hocc|].
  rewrite Forall_forall in Hocc. split; [|split].
  - intros m k c Hm Hk Hc.
    by apply (occurrence_literal unicodeUpper entity text m k c (Hocc m Hm)).
  - intros m Hm. destruct (occurrence_boundary unicodeUpper entity text m (Hocc m Hm))
      as [Hb1 Hb2].
    split.
    + intros Hs i c Hi Hc Hw. apply (isWordChar_spec unicodeUpper) in Hw.
      by rewrite (Hb1 Hs i c Hi Hc) in Hw.
    + intros He c Hc Hw. apply (isWordChar_spec unicodeUpper) in Hw.
      by rewrite (Hb2 He c Hc) in Hw.
  - intros Hne j Hin Hsame Hb.
    apply (execAll_complete unicodeUpper entity text fuel 0%nat ms);
      [done|exact Hall|lia|].
    split; [exact Hin|]. split; [by apply sameLetters_fold|exact Hb].
Qed.

(** The text "écaté". *)
Definition ecate : jsstring := [233] ++ str "cat" ++ [233].

(** C1 as stated fails: "cat" starts and ends with a letter and is
    reported inside "écaté", where the character before the occurrence
    and the character after it are the letter é. *)
Lemma cat_inside_ecate :
  findAll (unicodeUpper Example.world) 30 (str "cat") ecate
  = Some [mkExec 1 (str "cat")] /\
  startsWithWord (str "cat") = true /\ endsWithWord (str "cat") = true /\
  (exists c, ecate !! 0%nat = Some c /\ specWordChar c = true) /\
  (exists c, ecate !! (1 + length (str "cat"))%nat = Some c /\ specWordChar c = true).
Proof.
  split; [by vm_compute|]. split; [done|]. split; [done|].
  split; by exists 233.
Qed.

End MatcherExact.

(** ** The anatomy of a snippet *)

Module SnippetMore.
Import SnippetFacts.

Lemma take_rest {A} (l : list A) (k n : nat) :
  take (Nat.min (length l - k) n) (drop k l) = take n (drop k l).
Proof.
  destruct (decide (length l - k <= n)%nat).
  - rewrite Nat.min_l by done.
    rewrite !take_ge; [done|rewrite length_drop; lia..].
  - by rewrite Nat.min_r by lia.
Qed.

(** X4: the snippet of an occurrence at [i] is, between the two
    ellipses, the up to 30 characters that precede the occurrence, the
    text of the occurrence as it stands in the page, and the up to 30
    characters that follow it; its length is exact. *)
Theorem snippet_anatomy text entity (i : nat) :
  (i + length entity <= length text)%nat ->
  snippetOf text entity (Z.of_nat i)
  = str "..." ++ drop (i - 30) (take i text)
      ++ take (length entity) (drop i text)
      ++ take 30 (drop (i + length entity) text) ++ str "..." /\
  length (snippetOf text entity (Z.of_nat i))
  = (3 + Nat.min i 30 + length entity
     + Nat.min (length text - (i + length entity)) 30 + 3)%nat.
Proof.
  intros Hin.
  assert (snippetOf text entity (Z.of_nat i)
          = str "..." ++ drop (i - 30) (take i text)
              ++ take (length entity) (drop i text)
              ++ take 30 (drop (i + length entity) text) ++ str "...") as Heq.
  { unfold snippetOf. f_equal. rewrite !app_assoc. f_equal.
    set (a := snippetStart (Z.of_nat i)).
    set (b := snippetEnd text entity (Z.of_nat i)).
    assert (a = Z.of_nat (i - 30)) as Ha by (unfold a, snippetStart; lia).
    assert (b = Z.of_nat (i + length entity
                          + Nat.min (length text - (i + length entity)) 30)) as Hb
      by (unfold b, snippetEnd, jslength; lia).
    rewrite (substring_split text a (Z.of_nat i) b) by (unfold jslength; lia).
    rewrite (substring_split text (Z.of_nat i) (Z.of_nat (i + length entity)) b)
      by (unfold jslength; lia).
    rewrite !substring_slice by (unfold jslength; lia).
    rewrite Ha, Hb, !Nat2Z.id. rewrite app_assoc. f_equal; [f_equal|].
    - rewrite take_drop_commute. do 2 f_equal. lia.
    - f_equal. lia.
    - rewrite <- (take_rest text (i + length entity) 30). f_equal. lia. }
  split; [exact Heq|]. rewrite Heq.
  rewrite !length_app, !length_drop, !length_take, !length_drop, str_dots_length. lia.
Qed.

End SnippetMore.

(** ** The highlight rectangles *)

Module RenderMore.
Import Matcher MatcherFacts MatcherMore.

Section Highlight.
Variable w : World.

Abbreviation occurs entity text :=
  (exists j, occursAt (unicodeUpper w) entity text j).

Lemma test_occurs entity li text :
  test (unicodeUpper w) (mkRegExp (programOf entity) false true li) text
  = (bool_decide (is_Some
       (search (unicodeUpper w) true (programOf entity) text 0 (S (length text)))),
     mkRegExp (programOf entity) false true li).
Proof.
  unfold test, exec. cbn [global lastIndex ignoreCase program].
  rewrite Nat.sub_0_r. by destruct (search _ _ _ _ _ _) as [[i e]|].
Qed.

Lemma search_occurs entity text :
  is_Some (search (unicodeUpper w) true (programOf entity) text 0 (S (length text)))
  <-> occurs entity text.
Proof.
  split.
  - intros [[j e] Hs]. apply search_Some in Hs as [Hj Hm]. exists j.
    apply (matches_occursAt _ _ _ _ e); [lia|done].
  - intros [j Hoc].
    destruct (search _ _ _ _ _ _) as [r|] eqn:Hs; [by eexists|].
    pose proof Hoc as (Hlen & _).
    pose proof (search_None _ _ _ _ _ _ Hs j ltac:(lia)) as Hn.
    by rewrite (occursAt_matches _ _ _ _ Hoc) in Hn.
Qed.

Lemma highlightItems_app entity li a b vp sc :
  highlightItems w (mkRegExp (programOf entity) false true li) (a ++ b) vp sc
  = highlightItems w (mkRegExp (programOf entity) false true li) a vp sc
    ++ highlightItems w (mkRegExp (programOf entity) false true li) b vp sc.
Proof.
  induction a as [|item a IH]; [done|].
  cbn [app highlightItems]. rewrite test_occurs.
  by rewrite IH, app_assoc.
Qed.

End Highlight.

(** X5: the pattern used for highlighting carries no state from one
    text item to the next, so the rectangles of a page are those of its
    items, item by item and in order; and an item gets its rectangle,
    exactly one, if and only if the entity occurs in the item's text
    (up to case, with the word boundaries its ends require). *)
Theorem highlight_where_entity_occurs w entity R vp sc :
  createExactMatchRegex entity false = Some R ->
  (forall a b,
     highlightItems w R (a ++ b) vp sc
     = highlightItems w R a vp sc ++ highlightItems w R b vp sc) /\
  (forall item,
     (exists j, occursAt (unicodeUpper w) entity (item_str item) j) ->
     exists x y width height,
       highlightItems w R [item] vp sc
       = [FillRect (str "rgba(255, 255, 0, 0.4)") x y width height]) /\
  (forall item,
     ~ (exists j, occursAt (unicodeUpper w) entity (item_str item) j) ->
     highlightItems w R [item] vp sc = []).
Proof.
  rewrite createExactMatchRegex_program. intros [= <-].
  split; [intros a b; apply highlightItems_app|].
  split; intros item Hoc; cbn [highlightItems]; rewrite test_occurs.
  - apply search_occurs in Hoc. rewrite bool_decide_eq_true_2 by done.
    by repeat eexists.
  - rewrite bool_decide_eq_false_2; [done|]. intros H. by apply Hoc, search_occurs.
Qed.

End RenderMore.

(** ** The walk over the folder *)

Module WalkerFacts.

(** The file handles of a tree of entries. *)
Inductive inTree (h : FileHandle) : Entry -> Prop :=
  | in_file : inTree h (FileEntry h)
  | in_directory children c :
      c ∈ children -> inTree h c -> inTree h (DirectoryEntry children).

(** Induction on a tree of entries, with the hypothesis for every child
    of a directory. *)
Fixpoint Entry_tree_ind (P : Entry -> Prop)
    (Hfile : forall h, P (FileEntry h))
    (Hdir : forall children, Forall P children -> P (DirectoryEntry children))
    (entry : Entry) : P entry :=
  match entry with
  | FileEntry h => Hfile h
  | DirectoryEntry children =>
      Hdir children
        ((fix all (cs : list Entry) : Forall P cs :=
            match cs with
            | [] => @List.Forall_nil _ P
            | c :: cs' =>
                @List.Forall_cons _ P c cs' (Entry_tree_ind P Hfile Hdir c) (all cs')
            end) children)
  end.

Lemma endsWith_spec s suffix :
  endsWith s suffix = true <-> exists stem, s = stem ++ suffix.
Proof.
  unfold endsWith. rewrite bool_decide_eq_true. split.
  - intros H. exists (take (length s - length suffix) s).
    rewrite <- (take_drop (length s - length suffix) s) at 1. by rewrite H.
  - intros [stem ->]. rewrite length_app.
    replace (length stem + length suffix - length suffix)%nat
      with (length stem) by lia.
    apply drop_app_length.
Qed.

(** X6: the walk yields exactly the file handles of the tree, at any
    depth, whose lower-cased name ends in ".pdf"; directories and other
    files yield nothing. *)
Theorem getFilesRecursively_spec w entry h :
  h ∈ getFilesRecursively w entry <->
  inTree h entry /\ exists stem, toLowerCase w (fh_name h) = stem ++ str ".pdf".
Proof.
  induction entry as [h'|children IH] using Entry_tree_ind; cbn [getFilesRecursively].
  - destruct (endsWith _ _) eqn:He.
    + rewrite list_elem_of_singleton. split.
      * intros ->. split; [constructor|]. by apply endsWith_spec.
      * intros [Hin _]. by inversion Hin.
    + split; [by intros ?%elem_of_nil|].
      intros [Hin Hs]. inversion Hin; subst.
      apply endsWith_spec in Hs. congruence.
  - rewrite list_elem_of_In, in_flat_map. split.
    + intros (c & Hc%list_elem_of_In & Hh%list_elem_of_In).
      rewrite Forall_forall in IH. apply (IH c Hc) in Hh as [Hin Hs].
      split; [by apply (in_directory h children c)|done].
    + intros [Hin Hs]. inversion Hin as [|? c Hc Hin']; subst.
      exists c. split; [by apply list_elem_of_In|].
      rewrite Forall_forall in IH. apply list_elem_of_In, (IH c Hc). done.
Qed.

End WalkerFacts.

(** ** The grouped counts, for every key *)

Module CountMore.
Import CountFacts.

Section WithWorld.
Variable w : World.

(** What the tally holds under a key for which [n] records were seen. *)
Definition expected (key : jsstring) (n : nat) : option JSValue :=
  if bool_decide (key = protoKey) then None
  else if bool_decide (key ∈ objectPrototypeMethods) then
    match n with
    | O => None
    | S _ => Some (VStr (nativeSource w key ++ replicate n 49))
    end
  else counted n.

Lemma tallyStep_expected counts m key n :
  counts !! key = expected key n ->
  tallyStep w counts m !! key
  = expected key (n + (if decide (entity m = key) then 1 else 0)).
Proof.
  intros Hc. unfold tallyStep, setProp.
  destruct (decide (entity m = key)) as [->|Hne].
  - unfold getProp, expected in *. rewrite Hc.
    destruct (bool_decide (key = protoKey)) eqn:Hp; [done|].
    rewrite lookup_insert_eq.
    destruct (bool_decide (key ∈ objectPrototypeMethods)) eqn:Hm.
    + destruct n as [|n]; cbn [Nat.add orZeroPlusOne]; [done|].
      replace (S (n + 1)) with (S (S n)) by lia.
      rewrite (replicate_S_end (S n)), app_assoc.
      by destruct (nativeSource w key ++ replicate (S n) 49) eqn:Hs;
        [destruct (nativeSource w key)|].
    + destruct n as [|n]; cbn [counted orZeroPlusOne Nat.add]; [done|].
      replace (n + 1)%nat with (S n) by lia. cbn [counted].
      destruct (Z.eqb_spec (Z.of_nat (S n)) 0); [lia|]. do 2 f_equal. lia.
  - rewrite Nat.add_0_r.
    destruct (bool_decide (entity m = protoKey)); [done|].
    by rewrite lookup_insert_ne.
Qed.

Lemma foldl_expected all key : forall counts n,
  counts !! key = expected key n ->
  foldl (tallyStep w) counts all !! key = expected key (n + countOf key all).
Proof.
  induction all as [|m all IH]; intros counts n Hc; cbn [foldl].
  - unfold countOf. cbn. by rewrite Nat.add_0_r.
  - rewrite (IH _ _ (tallyStep_expected counts m key n Hc)).
    f_equal. unfold countOf. rewrite filter_cons.
    destruct (decide (entity m = key)); cbn [length]; lia.
Qed.

End WithWorld.

(** X7: what the grouped counts hold under every key, whatever the
    records.  Under a key that is not a property of [Object.prototype],
    the number of records of that entity, and no key when there is none;
    under the name of a built-in method, once there is a record, the
    source text of the built-in followed by one "1" for each record; and
    never a key "__proto__". *)
Theorem tally_every_key w all key :
  tally w all !! key
  = if bool_decide (key = protoKey) then None
    else if bool_decide (key ∈ objectPrototypeMethods) then
      match countOf key all with
      | O => None
      | S _ => Some (VStr (nativeSource w key ++ replicate (countOf key all) 49))
      end
    else
      match countOf key all with
      | O => None
      | S _ => Some (VNum (Z.of_nat (countOf key all)))
      end.
Proof.
  unfold tally. change (foldl _ ∅ all) with (foldl (tallyStep w) ∅ all).
  rewrite (foldl_expected w all key ∅ 0); [reflexivity|].
  rewrite lookup_empty. unfold expected.
  by destruct (bool_decide (key = protoKey)),
       (bool_decide (key ∈ objectPrototypeMethods)).
Qed.

End CountMore.

(** ** Writing to the store and reading back *)

Module StoreMore.
Section WithWorld.
Variable w : World.




(** A [clear] that rejects has removed nothing and has not touched
    what the page shows. *)
Lemma clear_Throw s s' e :
  LocalDB.clear w s = (Throw e, s') ->
  records (store s') = records (store s) /\ view s' = view s.
Proof.
  unfold LocalDB.clear, LocalDB.ensureInit, LocalDB.init, bind, gets, await,
    tryCatch, ret, throw, idbRequest.
  destruct (dbOpen (store s)) eqn:Ho; cbn.
  - destruct (idbFault w _); [|done]. by intros [= _ <-].
  - rewrite store_suspend, Ho. cbn. rewrite ?store_suspend.
    destruct (idbFault w _); cbn.
    + intros [= _ <-]. cbn. by autorewrite with state.
    + destruct (idbFault w _); [|done]. intros [= _ <-]. cbn.
      by autorewrite with state.
Qed.

Lemma completes_clear : Logic.completes (LocalDB.clear w).
Proof.
  unfold LocalDB.clear, LocalDB.ensureInit, LocalDB.init.
  repeat Logic.completes_step.
Qed.

End WithWorld.


(** X9: the same round trip through [db.ts], where every function
    opens the database before its own request. *)
Theorem dbts_addMatch_then_read w m s s' :
  DbTs.addMatch w m s = (Ok tt, s') ->
  idbFault w (requests (store s')) = None ->
  idbFault w (S (requests (store s'))) = None ->
  records (store s') = records (store s) ++ [(keyGen (store s), m)] /\
  (DbTs.getMatchesForEntity w (entity m) s').1
    = Ok (index_getAll (entity m) (store s) ++ [m]) /\
  (forall e, e <> entity m ->
     (DbTs.getMatchesForEntity w e s').1 = Ok (index_getAll e (store s))) /\
  (DbTs.getAllEntitiesGrouped w s').1
    = Ok (tally w (store_getAll (store s) ++ [m])).
Proof.
  unfold DbTs.addMatch, DbTs.getAllEntitiesGrouped, DbTs.getMatchesForEntity,
    DbTs.initDB, bind, await, ret, idbRequest. cbn.
  autorewrite with state.
  destruct (idbFault w (requests (store s))); [done|]. cbn.
  autorewrite with state. cbn.
  destruct (idbFault w (S (requests (store s)))); [done|]. cbn.
  intros [= <-]. cbn. autorewrite with state. cbn. intros Hf1 Hf2.
  split; [done|].
  assert (forall e,
            filter (fun m0 => entity m0 = e)
              (store_getAll (mkStore (records (store s) ++ [(keyGen (store s), m)])
                 (S (keyGen (store s))) (S (S (S (requests (store s)))))
                 (dbOpen (store s))))
            = index_getAll e (store s)
              ++ (if decide (entity m = e) then [m] else [])) as Hi.
  { intros e. unfold index_getAll, store_getAll. cbn [records].
    rewrite fmap_app, filter_app. f_equal. }
  split; [|split]; [|intros e He|]; rewrite Hf1; cbn; autorewrite with state; cbn;
    rewrite Hf2; cbn; unfold index_getAll; rewrite ?Hi.
  - by rewrite decide_True.
  - rewrite decide_False by done. by rewrite app_nil_r.
  - unfold store_getAll. cbn [records]. by rewrite fmap_app.
Qed.

(** An operation started in [s] rejects with the string "DB Error" and
    leaves the records and the closed database as they are. *)
Definition rejectsClosed {A} (op : M A) (s : State) : Prop :=
  (op s).1 = Throw DBErrorString /\
  records (store (op s).2) = records (store s) /\
  dbOpen (store (op s).2) = false.

(** X10: while the database is not open, every operation of [LocalDB]
    first tries to open it; when that request fails the operation
    rejects with the string "DB Error", whatever the error of the
    request was, the records are left alone, and the database stays
    closed, so that the next operation tries to open it again. *)
Theorem closed_database_rejects w s x :
  dbOpen (store s) = false ->
  idbFault w (requests (store s)) = Some x ->
  (forall m, rejectsClosed (LocalDB.addMatch w m) s) /\
  rejectsClosed (LocalDB.clear w) s /\
  (forall e, rejectsClosed (LocalDB.getMatchesForEntity w e) s) /\
  rejectsClosed (LocalDB.getMatchesGrouped w) s.
Proof.
  intros Ho Hf.
  assert (LocalDB.ensureInit w s
          = (Throw DBErrorString,
             set_store (fun st => mkStore (records st) (keyGen st)
                                    (S (requests (store s))) (dbOpen st))
               (suspend s))) as Hinit.
  { unfold LocalDB.ensureInit, bind, gets. rewrite Ho.
    unfold await, LocalDB.init, bind, gets, tryCatch, idbRequest.
    cbv beta zeta. rewrite !store_suspend, Ho. cbv beta iota zeta.
    rewrite ?store_suspend, Hf. reflexivity. }
  assert (forall B (k : unit -> M B),
            rejectsClosed (bind (LocalDB.ensureInit w) k) s) as Hk.
  { intros B k. unfold rejectsClosed, bind. rewrite Hinit. cbn [fst snd].
    by rewrite store_set_store, store_suspend. }
  split; [intros m; apply Hk|]. split; [apply Hk|].
  split; [intros e; apply Hk|apply Hk].
Qed.

End StoreMore.

(** ** What the operations of the store leave alone *)

Module Frames.
Import Logic ScanFacts.

Section Frame.
Context {B : Type} (f : State -> B).
Hypothesis f_suspend : forall s, f (suspend s) = f s.
Hypothesis f_store : forall g s, f (set_store g s) = f s.
Variable w : World.

Lemma Keeps_evolution : Evolution (Keeps f).
Proof.
  split; unfold Keeps.
  - done.
  - intros s s1 s2 c H1 H2. congruence.
  - exact f_suspend.
Qed.

#[local] Existing Instance Keeps_evolution.
#[local] Existing Instance Keeps_blind.

Lemma keeps_request {A} (op : Store -> A * Store) :
  sat (Keeps f) (idbRequest w op).
Proof.
  intros s. unfold idbRequest, Keeps.
  destruct (idbFault w _); cbn [fst snd]; [apply f_store|].
  destruct (op _) as [a st']. cbn [fst snd]. by rewrite !f_store.
Qed.

Lemma keeps_ensureInit : sat (Keeps f) (LocalDB.ensureInit w).
Proof.
  unfold LocalDB.ensureInit, LocalDB.init.
  sat_step; [sat_step|]. destruct a; [sat_step|]. sat_step.
  sat_step; [sat_step|]. destruct a; [sat_step|].
  sat_step; [apply keeps_request|sat_step].
Qed.

Lemma keeps_clear : sat (Keeps f) (LocalDB.clear w).
Proof.
  unfold LocalDB.clear. sat_step; [apply keeps_ensureInit|apply keeps_request].
Qed.

Lemma keeps_addMatch m : sat (Keeps f) (LocalDB.addMatch w m).
Proof.
  unfold LocalDB.addMatch. sat_step; [apply keeps_ensureInit|apply keeps_request].
Qed.

Lemma keeps_getMatchesGrouped : sat (Keeps f) (LocalDB.getMatchesGrouped w).
Proof.
  unfold LocalDB.getMatchesGrouped. sat_step; [apply keeps_ensureInit|].
  sat_step; [apply keeps_request|sat_step].
Qed.

End Frame.

End Frames.

(** ** Emptying the database from the page *)

Module DeleteFacts.
Import Logic.


End DeleteFacts.

(** ** What rendering a match can and cannot do *)

Module RenderSafety.
Import Logic ScanFacts.

(** What [loadAndRenderMatch] has no business with once the selection
    is recorded. *)
Definition bystanders (s : State) := (store s, view s, console s, alerts s).

Lemma bystanders_suspend s : bystanders (suspend s) = bystanders s.
Proof. unfold bystanders. by autorewrite with state. Qed.

Definition loadErrorLabel : jsstring := str "Fehler beim Laden der Datei:".
Definition loadErrorAlert : jsstring :=
  str "Datei konnte nicht geladen werden. Wurde sie verschoben?".

(** The read permission is held, or granted when asked for. *)
Definition permitted (m : MatchRecord) : Prop :=
  fh_queryPermission (fileHandle m) = Resolved Granted \/
  exists p, fh_queryPermission (fileHandle m) = Resolved p /\
            fh_requestPermission (fileHandle m) = Resolved Granted.

(** Something on the way from the file handle to the page of the
    record rejects with [e]. *)
Inductive loadFails (w : World) (m : MatchRecord) (e : Thrown) : Prop :=
  | fails_getFile :
      fh_getFile (fileHandle m) = Rejected e -> loadFails w m e
  | fails_arrayBuffer file :
      fh_getFile (fileHandle m) = Resolved file ->
      file_arrayBuffer file = Rejected e -> loadFails w m e
  | fails_getDocument file buf :
      fh_getFile (fileHandle m) = Resolved file ->
      file_arrayBuffer file = Resolved buf ->
      getDocument w buf = Rejected e -> loadFails w m e
  | fails_getPage file buf pdf :
      fh_getFile (fileHandle m) = Resolved file ->
      file_arrayBuffer file = Resolved buf ->
      getDocument w buf = Resolved pdf ->
      getPage pdf (pageNumber m) = Rejected e -> loadFails w m e.

#[local] Instance bystanders_evolution : Evolution (Keeps bystanders) :=
  Frames.Keeps_evolution bystanders bystanders_suspend.
#[local] Existing Instance Keeps_blind.

Section WithWorld.
Variable w : World.

Lemma keeps_renderPage m : sat (Keeps bystanders) (renderPage w m).
Proof. unfold renderPage. repeat (cbv zeta; sat_step; try done). Qed.

Lemma completes_renderPage m : completes (renderPage w m).
Proof. unfold renderPage. repeat (cbv zeta; completes_step). Qed.

Lemma renderPage_load_failure m e s :
  loadFails w m e ->
  (renderPage w m s).1 = Throw e /\
  canvas (renderPage w m s).2 = canvas s.
Proof.
  intros [H1|file H1 H2|file buf H1 H2 H3|file buf pdf H1 H2 H3 H4];
    unfold renderPage, bind, await;
    rewrite H1; cbn [settle ret throw fst snd];
    rewrite ?H2; cbn [settle ret throw fst snd];
    rewrite ?H3; cbn [settle ret throw fst snd];
    rewrite ?H4; cbn [settle ret throw fst snd];
    by autorewrite with state.
Qed.

End WithWorld.

(** X12: [loadAndRenderMatch] never rejects and never touches the
    store.  It records the selection and changes nothing else of what
    the page shows; and either it reports nothing, or it reports one
    failure, once on the console with the error and once by the alert. *)
Theorem render_never_throws w m s :
  let r := loadAndRenderMatch w m s in
  r.1 = Ok tt /\
  store r.2 = store s /\
  view r.2 = setSelectedMatch (Some m) (view s) /\
  ((alerts r.2 = alerts s /\ console r.2 = console s) \/
   exists err,
     alerts r.2 = alerts s ++ [loadErrorAlert] /\
     console r.2 = console s ++ [ConsoleError (Some loadErrorLabel) err]).
Proof.
  cbv zeta. unfold loadAndRenderMatch.
  match goal with |- context [tryCatch ?b _] => set (body := b) end.
  assert (sat (Keeps bystanders) body) as Hk.
  { unfold body. sat_step; [sat_step; sat_step|].
    destruct a; [apply keeps_renderPage|..];
      (sat_step; [sat_step; sat_step|]);
      (destruct a; [apply keeps_renderPage|sat_step..]). }
  assert (completes body) as Hc.
  { unfold body. completes_step; [completes_step; completes_step|].
    destruct a; [apply completes_renderPage|..];
      (completes_step; [completes_step; completes_step|]);
      (destruct a; [apply completes_renderPage|apply completes_ret..]). }
  clearbody body.
  unfold bind, modify, gets, tryCatch. cbn [fst snd].
  destruct (negb _ || negb _);
    [split; [done|]; split; [done|]; split; [done|]; by left|].
  specialize (Hk (set_view (setSelectedMatch (Some m)) s)).
  specialize (Hc (set_view (setSelectedMatch (Some m)) s)).
  unfold Keeps, bystanders in Hk.
  destruct (body _) as [[[]| e |] s1]; cbn [fst snd] in *; [| |done];
    assert (store s1 = store s /\ view s1 = setSelectedMatch (Some m) (view s) /\
            console s1 = console s /\ alerts s1 = alerts s)
      as (E1 & E2 & E3 & E4) by (by injection Hk).
  - split; [done|]. split; [done|]. split; [done|]. by left.
  - autorewrite with state. rewrite E1, E2, E3, E4.
    split; [done|]. split; [done|]. split; [done|]. right. by exists e.
Qed.

(** X13: when the file, its bytes, the document or the page of the
    record cannot be had, nothing has been drawn yet: the canvas shows
    what it showed, the error is written to the console and the alert
    is raised. *)
Theorem render_load_failure w m s e :
  pdfLibReady (view s) = true ->
  is_Some (canvas s) ->
  permitted m ->
  loadFails w m e ->
  let r := loadAndRenderMatch w m s in
  canvas r.2 = canvas s /\
  alerts r.2 = alerts s ++ [loadErrorAlert] /\
  console r.2 = console s ++ [ConsoleError (Some loadErrorLabel) e].
Proof.
  intros Hready Hcv Hperm Hfail. cbv zeta.
  assert (forall s0,
            exists s1, canvas s1 = canvas s0 /\ alerts s1 = alerts s0 /\
                       console s1 = console s0 /\
            (bind (await (settle (fh_queryPermission (fileHandle m))))
               (fun permission =>
                  match permission with
                  | Granted => renderPage w m
                  | _ =>
                      bind (await (settle (fh_requestPermission (fileHandle m))))
                        (fun request =>
                           match request with
                           | Granted => renderPage w m
                           | _ => ret tt
                           end)
                  end) s0) = (Throw e, s1)) as Hbody.
  { intros s0.
    assert (forall s2, exists s1,
              canvas s1 = canvas s2 /\ alerts s1 = alerts s2 /\
              console s1 = console s2 /\ renderPage w m s2 = (Throw e, s1)) as Hrp.
    { intros s2. exists (renderPage w m s2).2.
      pose proof (renderPage_load_failure w m e s2 Hfail) as [Hr Hc].
      pose proof (keeps_renderPage w m s2) as Hk.
      unfold Keeps, bystanders in Hk. injection Hk as _ _ Hcon Hal.
      repeat split; [done..|].
      destruct (renderPage w m s2) as [r s1]. cbn in *. by subst. }
    unfold bind, await.
    destruct Hperm as [Hq|(p & Hq & Hrq)]; rewrite Hq; cbn [settle ret fst snd].
    - destruct (Hrp (suspend s0)) as (s1 & H1 & H2 & H3 & ->).
      exists s1. by autorewrite with state in *.
    - destruct p; [| |]; rewrite ?Hrq; cbn [settle ret fst snd];
        match goal with |- context [renderPage w m ?s2] =>
          destruct (Hrp s2) as (s1 & H1 & H2 & H3 & ->) end;
        exists s1; by autorewrite with state in *. }
  destruct (Hbody (set_view (setSelectedMatch (Some m)) s))
    as (s1 & H1 & H2 & H3 & Hb).
  assert (loadAndRenderMatch w m s
          = (Ok tt, show_alert loadErrorAlert
                      (log (ConsoleError (Some loadErrorLabel) e) s1))) as ->.
  { unfold loadAndRenderMatch, bind at 1 2 3, modify at 1, gets at 1 2.
    cbn [fst snd]. rewrite view_set_view. cbn [pdfLibReady setSelectedMatch].
    rewrite Hready, canvas_set_view, (bool_decide_eq_true_2 _ Hcv). cbn [negb orb].
    unfold tryCatch. by rewrite Hb. }
  cbn [snd]. autorewrite with state. rewrite H1, H2, H3.
  by autorewrite with state.
Qed.

End RenderSafety.

(** ** The uploaded entity list *)

Module CsvFacts.

Definition blank (s : jsstring) : Prop := Forall (fun c => isWhiteSpace c = true) s.
Definition unbroken (s : jsstring) : Prop := Forall (fun c => isSeparator c = false) s.

(** An entity as the upload leaves it: not empty, free of separators,
    with no white space at either end. *)
Record clean (e : jsstring) : Prop := {
  clean_unbroken : unbroken e;
  clean_head : exists c, head e = Some c /\ isWhiteSpace c = false;
  clean_last : exists c, last e = Some c /\ isWhiteSpace c = false
}.

(** *** [trim] *)

Lemma trimStart_suffix s : exists a, s = a ++ trimStart s /\ blank a.
Proof.
  induction s as [|c s (a & IH & Ha)]; [exists []; split; [done|constructor]|].
  cbn [trimStart]. destruct (isWhiteSpace c) eqn:Hc.
  - exists (c :: a). split; [by rewrite IH at 1|by constructor].
  - exists []. split; [done|constructor].
Qed.

Lemma trimStart_head s :
  trimStart s = [] \/ exists c, head (trimStart s) = Some c /\ isWhiteSpace c = false.
Proof.
  induction s as [|c s IH]; [by left|]. cbn [trimStart].
  destruct (isWhiteSpace c) eqn:Hc; [done|]. right. by exists c.
Qed.

Lemma trimStart_blank a s : blank a -> trimStart (a ++ s) = trimStart s.
Proof.
  induction 1 as [|c a Hc Ha IH]; [done|]. cbn [app trimStart]. by rewrite Hc.
Qed.

Lemma trimStart_keeps s c :
  head s = Some c -> isWhiteSpace c = false -> trimStart s = s.
Proof. destruct s as [|d s]; [done|]. intros [= ->] Hc. cbn. by rewrite Hc. Qed.

Lemma blank_reverse s : blank s -> blank (reverse s).
Proof. unfold blank. rewrite !Forall_forall. intros H c Hc. apply H. by apply elem_of_reverse. Qed.

Lemma head_reverse (s : jsstring) : head (reverse s) = last s.
Proof.
  destruct s as [|c s _] using rev_ind; [done|].
  by rewrite reverse_app, last_snoc.
Qed.

Lemma last_reverse (s : jsstring) : last (reverse s) = head s.
Proof. by rewrite <- head_reverse, reverse_involutive. Qed.

Lemma trimEnd_prefix s : exists b, s = trimEnd s ++ b /\ blank b.
Proof.
  unfold trimEnd. destruct (trimStart_suffix (reverse s)) as (a & Hs & Ha).
  exists (reverse a). split; [|by apply blank_reverse].
  rewrite <- reverse_app, <- Hs. by rewrite reverse_involutive.
Qed.

Lemma trimEnd_last s :
  trimEnd s = [] \/ exists c, last (trimEnd s) = Some c /\ isWhiteSpace c = false.
Proof.
  unfold trimEnd. destruct (trimStart_head (reverse s)) as [->|(c & Hc & Hw)];
    [by left|right].
  exists c. by rewrite last_reverse.
Qed.

(** What [trim] leaves stands in the string, between white space, and
    has no white space at either end. *)
Lemma trim_spec s :
  exists a b, s = a ++ trim s ++ b /\ blank a /\ blank b /\
    (trim s = [] \/
     (exists c, head (trim s) = Some c /\ isWhiteSpace c = false) /\
     (exists c, last (trim s) = Some c /\ isWhiteSpace c = false)).
Proof.
  unfold trim. destruct (trimStart_suffix s) as (a & Hs & Ha).
  destruct (trimEnd_prefix (trimStart s)) as (b & Ht & Hb).
  exists a, b. split; [by rewrite <- Ht|]. split; [done|]. split; [done|].
  destruct (trimEnd_last (trimStart s)) as [He|Hl]; [by left|right].
  split; [|done].
  destruct (trimStart_head s) as [Hn|(c & Hc & Hw)].
  - rewrite Hn in *. by destruct Hl as (c & Hc & _).
  - exists c. split; [|done]. rewrite Ht in Hc.
    destruct (trimEnd (trimStart s)); [by destruct Hl as (? & ? & _)|done].
Qed.

Lemma trim_blank s : blank s -> trim s = [].
Proof.
  intros Hs. unfold trim. rewrite <- (app_nil_r s), trimStart_blank by done. done.
Qed.

Lemma trim_padded a e b :
  blank a -> blank b ->
  (exists c, head e = Some c /\ isWhiteSpace c = false) ->
  (exists c, last e = Some c /\ isWhiteSpace c = false) ->
  trim (a ++ e ++ b) = e.
Proof.
  intros Ha Hb (c & Hc & Hcw) (d & Hd & Hdw). unfold trim.
  rewrite trimStart_blank by done.
  rewrite (trimStart_keeps (e ++ b) c); [|by destruct e|done].
  unfold trimEnd. rewrite reverse_app, trimStart_blank by by apply blank_reverse.
  rewrite (trimStart_keeps (reverse e) d); [|by rewrite head_reverse|done].
  apply reverse_involutive.
Qed.

(** *** [split] *)

Lemma splitText_nonempty text : splitText text <> [].
Proof.
  destruct text as [|c rest]; [done|]. cbn [splitText].
  destruct (isSeparator c); [done|]. by destruct (splitText rest).
Qed.

Lemma splitText_unbroken text : unbroken text -> splitText text = [text].
Proof.
  induction 1 as [|c rest Hc Hrest IH]; [done|]. cbn [splitText].
  by rewrite Hc, IH.
Qed.

Lemma splitText_app a c b :
  isSeparator c = true -> splitText (a ++ c :: b) = splitText a ++ splitText b.
Proof.
  intros Hc. induction a as [|d a IH]; cbn [app splitText].
  - by rewrite Hc.
  - rewrite IH. destruct (isSeparator d); [done|].
    pose proof (splitText_nonempty a). by destruct (splitText a).
Qed.

Lemma splitText_pieces text :
  Forall unbroken (splitText text) /\
  (forall piece pieces, splitText text = piece :: pieces ->
     exists b, text = piece ++ b) /\
  (forall piece, piece ∈ splitText text ->
     exists a b, text = a ++ piece ++ b).
Proof.
  induction text as [|c rest (IH1 & IH2 & IH3)].
  - split; [by repeat constructor|]. split.
    + intros piece pieces [= <- <-]. by exists [].
    + intros piece ->%list_elem_of_singleton. by exists [], [].
  - cbn [splitText]. destruct (isSeparator c) eqn:Hc.
    + split; [constructor; [constructor|done]|]. split.
      * intros piece pieces [= <- <-]. by eexists.
      * intros piece [->|Hin]%elem_of_cons; [by exists [], (c :: rest)|].
        destruct (IH3 piece Hin) as (a & b & ->). by exists (c :: a), b.
    + destruct (splitText rest) as [|p ps] eqn:Hs; [by destruct (splitText_nonempty rest)|].
      apply Forall_cons in IH1 as [Hp Hps].
      destruct (IH2 p ps eq_refl) as (b & Hb).
      split; [constructor; [by constructor|done]|]. split.
      * intros piece pieces [= <- <-]. exists b. by rewrite Hb.
      * intros piece [->|Hin]%elem_of_cons.
        -- exists [], b. by rewrite Hb.
        -- destruct (IH3 piece) as (a & b' & ->); [by right|]. by exists (c :: a), b'.
Qed.

(** *** The list of entities *)

Lemma parseEntities_app a c b :
  isSeparator c = true ->
  parseEntities (a ++ c :: b) = parseEntities a ++ parseEntities b.
Proof.
  intros Hc. unfold parseEntities.
  by rewrite splitText_app, fmap_app, filter_app.
Qed.

Lemma parseEntities_blank a : blank a -> unbroken a -> parseEntities a = [].
Proof.
  intros Ha Hu. unfold parseEntities. rewrite splitText_unbroken by done.
  cbn. rewrite trim_blank by done. done.
Qed.

Lemma unbroken_app a b : unbroken a -> unbroken b -> unbroken (a ++ b).
Proof. apply Forall_app_2. Qed.

Lemma parseEntities_padded a e b :
  blank a -> unbroken a -> blank b -> unbroken b -> clean e ->
  parseEntities (a ++ e ++ b) = [e].
Proof.
  intros Ha Hua Hb Hub [Hue Hh Hl]. unfold parseEntities.
  rewrite splitText_unbroken by (by repeat apply unbroken_app).
  cbn [fmap list_fmap]. rewrite trim_padded by done.
  rewrite filter_cons, filter_nil. rewrite decide_True; [done|].
  destruct Hh as (c & Hc & _). destruct e; [done|]. unfold jslength. cbn. lia.
Qed.

(** A stretch of white space and separators. *)
Definition gap (g : jsstring) : Prop :=
  Forall (fun c => isWhiteSpace c = true \/ isSeparator c = true) g.

Lemma gap_first_separator g :
  gap g ->
  (blank g /\ unbroken g) \/
  exists q c g', g = q ++ c :: g' /\ blank q /\ unbroken q /\
                 isSeparator c = true /\ gap g'.
Proof.
  induction 1 as [|d g Hd Hg IH]; [left; by split; constructor|].
  destruct (isSeparator d) eqn:Hs.
  - right. exists [], d, g. by repeat split; try constructor.
  - destruct Hd as [Hd|Hd]; [|congruence].
    destruct IH as [[Hb Hu]|(q & c & g' & -> & Hb & Hu & Hc & Hg')].
    + left. by split; constructor.
    + right. exists (d :: q), c, g'. by repeat split; try constructor.
Qed.

(** Leading white space and separators yield no entity. *)
Lemma parseEntities_gap g : gap g -> forall t,
  exists q, blank q /\ unbroken q /\ parseEntities (g ++ t) = parseEntities (q ++ t).
Proof.
  induction g as [g IH] using (induction_ltof1 _ (@length Z)). unfold ltof in IH.
  intros Hg t. destruct (gap_first_separator g Hg)
    as [[Hb Hu]|(q & c & g' & -> & Hb & Hu & Hc & Hg')].
  - by exists g.
  - destruct (IH g' ltac:(rewrite length_app; cbn; lia) Hg' t)
      as (q' & Hb' & Hu' & Heq).
    exists q'. split; [done|]. split; [done|].
    rewrite <- app_assoc. cbn [app]. rewrite parseEntities_app by done.
    rewrite parseEntities_blank by done. apply Heq.
Qed.

Lemma join_cons sep (e e' : jsstring) es :
  join sep (e :: e' :: es) = e ++ sep ++ join sep (e' :: es).
Proof. cbn [join flat_map]. by rewrite <- !app_assoc. Qed.

Lemma parseEntities_join sep es :
  gap sep -> Exists (fun c => isSeparator c = true) sep ->
  Forall clean es ->
  forall q, blank q -> unbroken q -> parseEntities (q ++ join sep es) = es.
Proof.
  intros Hg Hsep Hes. induction Hes as [|e es He Hes IH]; intros q Hq Hu.
  - cbn [join]. rewrite app_nil_r. by apply parseEntities_blank.
  - destruct es as [|e' es].
    + cbn [join flat_map].
      apply parseEntities_padded; [done|done|constructor|constructor|done].
    + rewrite join_cons.
      destruct (gap_first_separator sep Hg)
        as [[_ Hu']|(q0 & c & g' & -> & Hb0 & Hu0 & Hc & Hg')].
      { exfalso. apply Exists_exists in Hsep as (c & Hin & Hc).
        unfold unbroken in Hu'. rewrite Forall_forall in Hu'.
        specialize (Hu' c Hin). congruence. }
      replace (q ++ e ++ (q0 ++ c :: g') ++ join (q0 ++ c :: g') (e' :: es))
        with ((q ++ e ++ q0) ++ c :: (g' ++ join (q0 ++ c :: g') (e' :: es)))
        by (by rewrite <- !app_assoc).
      rewrite parseEntities_app by done.
      rewrite parseEntities_padded by done.
      destruct (parseEntities_gap g' Hg' (join (q0 ++ c :: g') (e' :: es)))
        as (q' & Hb' & Hu' & ->).
      cbn [app]. f_equal. by apply IH.
Qed.

Lemma parseEntities_clean text e :
  e ∈ parseEntities text ->
  e <> [] /\ clean e /\ exists before after, text = before ++ e ++ after.
Proof.
  unfold parseEntities.
  intros [Hlen (piece & -> & Hin)%list_elem_of_fmap]%list_elem_of_filter.
  destruct (splitText_pieces text) as (Hun & _ & Hinfix).
  destruct (Hinfix piece Hin) as (a & b & ->).
  rewrite Forall_forall in Hun. specialize (Hun piece Hin).
  destruct (trim_spec piece) as (a' & b' & Hp & _ & _ & [Hn|[Hh Hl]]).
  { rewrite Hn in Hlen. by cbn in Hlen. }
  split; [by destruct (trim piece)|]. split.
  - split; [|done..]. rewrite Hp in Hun.
    by apply Forall_app in Hun as [_ [? _]%Forall_app].
  - exists (a ++ a'), (b' ++ b). rewrite Hp at 1. by rewrite <- !app_assoc.
Qed.

(** X14: every entity of an uploaded list is clean: it is not empty,
    holds neither a comma nor a line feed, has no white space at either
    end, and stands as it is in the text of the file. *)
Theorem uploaded_entities_clean text e s :
  e ∈ csvContent (view (handleCsvUpload (Some (Resolved text)) s).2) ->
  e <> [] /\ clean e /\ exists before after, text = before ++ e ++ after.
Proof.
  unfold handleCsvUpload, await, modify. cbn [snd].
  rewrite view_set_view. cbn [csvContent setCsvContent].
  apply parseEntities_clean.
Qed.

(** X15: a list of clean entities written out with the same gap
    between any two of them, a gap being white space and separators
    with at least one separator (a comma, a line feed, a comma and a
    space, a carriage return and a line feed, ...), is read back as it
    was. *)
Theorem upload_reads_back sep es s :
  gap sep -> Exists (fun c => isSeparator c = true) sep ->
  Forall clean es ->
  csvContent (view (handleCsvUpload (Some (Resolved (join sep es))) s).2) = es.
Proof.
  intros Hg Hsep Hes. unfold handleCsvUpload, await, modify. cbn [snd].
  rewrite view_set_view. cbn [csvContent setCsvContent].
  by apply (parseEntities_join sep es Hg Hsep Hes []); constructor.
Qed.

End CsvFacts.

(** ** Where the records of a scan come from *)

Module Provenance.
Import Logic ScanLogic ScanFacts Matcher MatcherFacts MatcherMore.

#[local] Existing Instance Produces_evolution.
#[local] Existing Instance Produces_blind.

(** A promise that settles: what follows runs with its value. *)
Lemma sat_bind_settle Q `{!Evolution Q} {A B} (o : Outcome A) (k : A -> M B) :
  (forall a, o = Resolved a -> sat Q (k a)) ->
  sat Q (bind (await (settle o)) k).
Proof.
  intros Hk. destruct o as [a|e].
  - intros s. unfold bind, await. cbn [settle ret fst snd].
    eapply evo_seq; [apply evo_suspend|by apply Hk].
  - intros s. unfold bind, await. cbn [settle throw fst snd].
    eapply evo_seq; [apply evo_suspend|apply evo_refl].
Qed.

Lemma bind_gets {A B} (f : State -> A) (k : A -> M B) s :
  bind (gets f) k s = k (f s) s.
Proof. reflexivity. Qed.

Lemma Produces_mono (P P' : MatchRecord -> Prop) {A} (m : M A) :
  (forall x, P x -> P' x) -> sat (Produces P) m -> sat (Produces P') m.
Proof.
  intros HP Hm s. destruct (Hm s) as (new & Hnew & Hall).
  exists new. split; [done|]. eapply Forall_impl; [exact Hall|]. intros kv. apply HP.
Qed.

Ltac unchanged :=
  intros; exists []; autorewrite with state;
  split; [left; by rewrite app_nil_r|by constructor].

(** The record stands for an occurrence of [e] in the text [text] of
    page [pageNum] of the file [fh]. *)
Record found (w : World) (e text : jsstring) (fh : FileHandle) (pageNum : nat)
    (m : MatchRecord) : Prop := {
  found_entity : entity m = e;
  found_handle : fileHandle m = fh;
  found_name : fileName m = fh_name fh;
  found_page : pageNumber m = pageNum;
  found_at : exists i,
    occursAt (unicodeUpper w) e text i /\
    textSnippet m = snippetOf text e (Z.of_nat i)
}.

(** The record stands for an occurrence of one of the [entities] on a
    page of the document [pdf] of the file [fh]. *)
Definition inDocument (w : World) (entities : list jsstring) (fh : FileHandle)
    (pdf : PDFDocument) (m : MatchRecord) : Prop :=
  entity m ∈ entities /\
  (1 <= pageNumber m <= numPages pdf)%nat /\
  exists page items,
    getPage pdf (pageNumber m) = Resolved page /\
    getTextContent page = Resolved items /\
    found w (entity m) (join (str " ") (item_str <$> items)) fh (pageNumber m) m.

(** The record stands for an occurrence of one of the [entities] on a
    page of one of the [files], as the platform reads and decodes it. *)
Definition genuine (w : World) (entities : list jsstring) (files : list FileHandle)
    (m : MatchRecord) : Prop :=
  fileHandle m ∈ files /\
  exists file buf pdf,
    fh_getFile (fileHandle m) = Resolved file /\
    file_arrayBuffer file = Resolved buf /\
    getDocument w buf = Resolved pdf /\
    inDocument w entities (fileHandle m) pdf m.

Section WithWorld.
Variable w : World.

Lemma produces_ensureInit P : sat (Produces P) (LocalDB.ensureInit w).
Proof.
  apply sat_ensureInit; [typeclasses eauto|].
  apply blind_init; [typeclasses eauto..|].
  apply produces_request. intros st. exists [].
  split; [left; by rewrite app_nil_r|constructor].
Qed.

Lemma produces_afterDocument P : sat (Produces P) (afterDocument w).
Proof.
  apply sat_afterDocument; try unchanged.
  - typeclasses eauto.
  - intros A f. apply produces_request. intros st. exists [].
    split; [left; by rewrite app_nil_r|constructor].
  - apply blind_init; [typeclasses eauto..|].
    apply produces_request. intros st. exists [].
    split; [left; by rewrite app_nil_r|constructor].
Qed.

Lemma produces_refreshStats P : sat (Produces P) (refreshStats w).
Proof.
  apply sat_refreshStats; try unchanged.
  - typeclasses eauto.
  - intros A f. apply produces_request. intros st. exists [].
    split; [left; by rewrite app_nil_r|constructor].
  - apply blind_init; [typeclasses eauto..|].
    apply produces_request. intros st. exists [].
    split; [left; by rewrite app_nil_r|constructor].
Qed.

Lemma found_whileExec e text fh pageNum fuel : forall li,
  sat (Produces (found w e text fh pageNum))
    (whileExec w fuel (mkRegExp (programOf e) true true li) text e fh pageNum).
Proof.
  induction fuel as [|fuel IH]; intros li; cbn [whileExec]; [sat_step|].
  destruct (exec _ _ _) as [[m|] regex'] eqn:He; [|sat_step].
  apply exec_Some in He as (-> & Hli & [Hin Htext Hfold Hb]).
  sat_step; [sat_step|]. sat_step.
  { sat_step. unfold LocalDB.addMatch.
    sat_step; [apply produces_ensureInit|].
    apply produces_request. intros st. eexists [_].
    split; [left; reflexivity|]. repeat constructor; cbn; try done.
    exists (index m). split; [|done]. split; [done|]. split; [|done].
    by rewrite <- Htext. }
  sat_step; [sat_step; unchanged|apply IH].
Qed.

Lemma found_forEntities text fh pageNum fuel entities : forall all,
  entities ⊆ all ->
  sat (Produces (fun m => entity m ∈ all /\ found w (entity m) text fh pageNum m))
    (forEntities w fuel entities text fh pageNum).
Proof.
  induction entities as [|e entities IH]; intros all Hsub; cbn [forEntities];
    [sat_step|].
  rewrite createExactMatchRegex_program.
  sat_step.
  - eapply Produces_mono; [|apply found_whileExec].
    intros m Hm. destruct Hm as [He Hh Hn Hp Hat]. rewrite He.
    split; [apply Hsub; by left|]. by split.
  - apply IH. intros x Hx. apply Hsub. by right.
Qed.

Lemma found_scanPage fuel entities fh pdf pageNum :
  (1 <= pageNum <= numPages pdf)%nat ->
  sat (Produces (inDocument w entities fh pdf))
    (scanPage w fuel entities fh pdf pageNum).
Proof.
  intros Hpn. unfold scanPage.
  apply sat_bind_settle; [typeclasses eauto|]. intros page Hpage.
  apply sat_bind_settle; [typeclasses eauto|]. intros items Hitems.
  eapply Produces_mono; [|by apply (found_forEntities _ _ _ _ entities entities)].
  intros m [Hin Hf]. pose proof Hf as [_ _ _ Hp _].
  split; [done|]. rewrite Hp. split; [done|]. by exists page, items.
Qed.

Lemma found_forPages fuel entities fh pdf todo : forall pageNum,
  (1 <= pageNum)%nat -> (pageNum + todo = S (numPages pdf))%nat ->
  sat (Produces (inDocument w entities fh pdf))
    (forPages w fuel entities fh pdf pageNum todo).
Proof.
  induction todo as [|todo IH]; intros pageNum H1 Hn; cbn [forPages]; [sat_step|].
  sat_step; [apply found_scanPage; lia|apply IH; lia].
Qed.

Lemma found_processFile fuel entities fh :
  sat (Produces (genuine w entities [fh])) (processFile w fuel entities fh).
Proof.
  unfold processFile.
  sat_step; [sat_step; unchanged|]. sat_step; [sat_step; unchanged|].
  apply sat_bind_settle; [typeclasses eauto|]. intros file Hfile.
  apply sat_bind_settle; [typeclasses eauto|]. intros buf Hbuf.
  sat_step; [|apply produces_afterDocument].
  apply blind_catch_log; [typeclasses eauto..|unchanged|].
  unfold scanDocument.
  apply sat_bind_settle; [typeclasses eauto|]. intros pdf Hpdf.
  eapply Produces_mono; [|apply found_forPages; lia].
  intros m Hm. pose proof Hm as (_ & _ & page & items & _ & _ & [_ Hh _ _ _]).
  split; [rewrite Hh; by left|]. exists file, buf, pdf. by rewrite Hh.
Qed.

Lemma found_forAwait fuel entities files : forall all,
  files ⊆ all ->
  sat (Produces (genuine w entities all)) (forAwait w fuel entities files).
Proof.
  induction files as [|fh files IH]; intros all Hsub; cbn [forAwait];
    [sat_step; sat_step|].
  sat_step; [sat_step; sat_step|]. sat_step; [sat_step|].
  destruct a0; [sat_step|]. sat_step.
  - eapply Produces_mono; [|apply found_processFile].
    intros m [Hin Hrest]. split; [|done].
    apply Hsub. apply list_elem_of_singleton in Hin. rewrite Hin. by left.
  - apply IH. intros x Hx. apply Hsub. by right.
Qed.

End WithWorld.

(** X16: every record a scan adds to the store is genuine.  Its entity
    is one of the list the scan was started with; its file is one the
    walk over the folder yields, and the record carries that file's
    name; its page number is a page of the document the file decodes
    to; and the entity occurs in the text of that page, at a position
    around which the snippet of the record is cut. *)
Theorem scan_records_genuine w fuel dirHandle s :
  exists new,
    (records (store (processDirectory w fuel dirHandle s).2)
       = records (store s) ++ new \/
     records (store (processDirectory w fuel dirHandle s).2) = new) /\
    Forall (fun kv => genuine w (csvContent (view s))
                        (getFilesRecursively w dirHandle) kv.2) new.
Proof.
  unfold processDirectory. rewrite !bind_gets.
  destruct (csvContent (view s)) as [|e entities] eqn:Hcsv.
  { exists []. split; [left; by rewrite app_nil_r|constructor]. }
  match goal with |- context [store (?b s).2] =>
    cut (sat (Produces (genuine w (e :: entities) (getFilesRecursively w dirHandle))) b);
      [intros Hb; exact (Hb s)|]
  end.
  sat_step; [sat_step; unchanged|]. sat_step; [sat_step; unchanged|].
  sat_step; [sat_step|].
  sat_step.
  { destruct (bool_decide _); [|sat_step]. destruct (confirm w _); [|sat_step].
    sat_step.
    { sat_step. unfold LocalDB.clear. sat_step; [apply produces_ensureInit|].
      apply produces_request. intros st. exists []. split; [by right|constructor]. }
    repeat (sat_step; [sat_step; unchanged|]). sat_step. unchanged. }
  sat_step; [sat_step; unchanged|]. sat_step; [sat_step; unchanged|].
  sat_step.
  - apply blind_catch_log; [typeclasses eauto..|unchanged|].
    by apply found_forAwait.
  - sat_step; [sat_step; unchanged|]. sat_step. apply produces_refreshStats.
Qed.

End Provenance.

(** ** The scan as a whole *)

Module ScanTotal.
Import Logic ScanFacts.

(** The fuel the loops over one page need: the length of its text
    plus two. *)
Definition pageBound (page : PDFPage) : nat :=
  match getTextContent page with
  | Resolved items => (length (join (str " ") (item_str <$> items)) + 2)%nat
  | Rejected _ => 0%nat
  end.

(** The largest bound among the pages [1 .. numPages] of a document. *)
Definition documentBound (pdf : PDFDocument) : nat :=
  max_list ((fun n => match getPage pdf n with
                      | Resolved page => pageBound page
                      | Rejected _ => 0%nat
                      end) <$> seq 1 (numPages pdf)).

(** The bound of the document a file decodes to, if it does. *)
Definition fileBound (w : World) (fh : FileHandle) : nat :=
  match fh_getFile fh with
  | Resolved file =>
      match file_arrayBuffer file with
      | Resolved buf =>
          match getDocument w buf with
          | Resolved pdf => documentBound pdf
          | Rejected _ => 0%nat
          end
      | Rejected _ => 0%nat
      end
  | Rejected _ => 0%nat
  end.

(** The largest bound among the files the walk over a folder yields. *)
Definition folderBound (w : World) (dirHandle : Entry) : nat :=
  max_list (fileBound w <$> getFilesRecursively w dirHandle).

(** The bound of the folder the picker gives, if it gives one. *)
Definition scanBound (w : World) : nat :=
  match showDirectoryPicker w with
  | Some (Resolved dirHandle) => folderBound w dirHandle
  | _ => 0%nat
  end.

Lemma completes_bind_settle {A B} (o : Outcome A) (k : A -> M B) :
  (forall a, o = Resolved a -> completes (k a)) ->
  completes (bind (await (settle o)) k).
Proof.
  intros Hk s. unfold bind, await.
  destruct o as [a|e]; cbn [settle ret throw fst snd]; [by apply Hk|done].
Qed.

Section WithWorld.
Variable w : World.
Variable fuel : nat.
Variable entities : list jsstring.
Hypothesis entities_nonempty : Forall (fun e => e <> []) entities.

Lemma completes_forPages fh pdf todo : forall pageNum,
  (1 <= pageNum)%nat -> (pageNum + todo = S (numPages pdf))%nat ->
  (documentBound pdf <= fuel)%nat ->
  completes (forPages w fuel entities fh pdf pageNum todo).
Proof.
  induction todo as [|todo IH]; intros pageNum H1 Hn Hb; cbn [forPages];
    [apply completes_ret|].
  apply completes_bind; [|intros _; apply IH; [lia|lia|done]].
  unfold scanPage.
  apply completes_bind_settle. intros page Hpage.
  apply completes_bind_settle. intros items Hitems.
  apply forEntities_completes; [done|].
  assert (pageBound page <= documentBound pdf)%nat as Hle.
  { apply max_list_elem_of_le. apply list_elem_of_fmap. exists pageNum.
    split; [by rewrite Hpage|]. apply elem_of_seq. lia. }
  unfold pageBound in Hle. rewrite Hitems in Hle. lia.
Qed.

Lemma completes_afterDocument : completes (afterDocument w).
Proof.
  unfold afterDocument.
  repeat first [apply completes_refreshStats | completes_step].
Qed.

Lemma completes_processFile fh :
  (fileBound w fh <= fuel)%nat ->
  completes (processFile w fuel entities fh).
Proof.
  intros Hb. unfold processFile.
  completes_step; [completes_step|]. completes_step; [completes_step|].
  apply completes_bind_settle. intros file Hfile.
  apply completes_bind_settle. intros buf Hbuf.
  completes_step; [|apply completes_afterDocument].
  completes_step; [|completes_step].
  unfold scanDocument. apply completes_bind_settle. intros pdf Hpdf.
  unfold fileBound in Hb. rewrite Hfile, Hbuf, Hpdf in Hb.
  apply completes_forPages; [lia|lia|done].
Qed.

Lemma completes_forAwait files :
  Forall (fun fh => fileBound w fh <= fuel)%nat files ->
  completes (forAwait w fuel entities files).
Proof.
  induction 1 as [|fh files Hfh Hfiles IH]; cbn [forAwait].
  - completes_step. completes_step.
  - completes_step; [completes_step; completes_step|].
    completes_step; [completes_step|]. destruct a0; [completes_step|].
    completes_step; [by apply completes_processFile|apply IH].
Qed.

End WithWorld.

Lemma folderBound_files w fuel dirHandle :
  (folderBound w dirHandle <= fuel)%nat ->
  Forall (fun fh => fileBound w fh <= fuel)%nat (getFilesRecursively w dirHandle).
Proof.
  intros Hb. apply Forall_forall. intros fh Hfh.
  assert (fileBound w fh <= folderBound w dirHandle)%nat; [|lia].
  apply max_list_elem_of_le. by apply list_elem_of_fmap_2.
Qed.

Lemma processDirectory_completes w fuel dirHandle s :
  Forall (fun e => e <> []) (csvContent (view s)) ->
  (folderBound w dirHandle <= fuel)%nat ->
  (processDirectory w fuel dirHandle s).1 <> OutOfFuel.
Proof.
  intros Hent Hb. apply folderBound_files in Hb.
  unfold processDirectory. rewrite Provenance.bind_gets.
  destruct (csvContent (view s)) as [|e entities]; [done|].
  match goal with |- (?b s).1 <> _ => cut (completes b); [intros Hc; apply Hc|] end.
  repeat first
    [ apply StoreMore.completes_clear
    | apply completes_refreshStats
    | by apply completes_forAwait
    | completes_step ].
Qed.

(** X17: with no empty entity in the list, the handler of the folder
    button always returns, and returns normally: whatever the picker
    gives, whatever the folder holds and whatever fails on the way, no
    loop of the scan runs for ever and no rejection leaves the handler.
    The fuel that suffices is the length of the longest page text among
    the documents of the picked folder, plus two; every larger one
    does as well. *)
Theorem scan_returns w s :
  Forall (fun e => e <> []) (csvContent (view s)) ->
  exists enough,
    enough = scanBound w /\
    forall fuel, (enough <= fuel)%nat -> (handleFolderSelect w fuel s).1 = Ok tt.
Proof.
  intros Hent. exists (scanBound w). split; [done|]. intros fuel Hfuel.
  pose proof (handleFolderSelect_no_throw w fuel s) as Hnt.
  assert ((handleFolderSelect w fuel s).1 <> OutOfFuel) as Hcut.
  { unfold handleFolderSelect, scanBound in *.
    destruct (showDirectoryPicker w) as [picked|]; [|done].
    unfold tryCatch, bind, await.
    destruct picked as [dirHandle|e]; cbn [settle ret throw fst snd]; [|done].
    pose proof (processDirectory_completes w fuel dirHandle (suspend (suspend s)))
      as Hpd.
    rewrite !view_suspend in Hpd. specialize (Hpd Hent Hfuel).
    by destruct (processDirectory w fuel dirHandle (suspend (suspend s)))
      as [[[]| e |] s1]. }
  destruct (handleFolderSelect w fuel s).1 as [[]| e |]; [done|by destruct (Hnt e)|done].
Qed.

(** X18: the entities of an uploaded list are never empty, so the
    matching of a page against an uploaded list ends whenever the fuel
    covers the text of the page: it returns, or rejects with the error
    of a request to the store. *)
Theorem uploaded_list_terminates w text s0 page fh pageNum fuel s :
  (length page + 2 <= fuel)%nat ->
  let r := forEntities w fuel
             (csvContent (view (handleCsvUpload (Some (Resolved text)) s0).2))
             page fh pageNum s in
  r.1 = Ok tt \/ exists e, r.1 = Throw e.
Proof.
  intros Hfuel. cbv zeta. apply completes_unit.
  apply forEntities_completes; [|done].
  apply Forall_forall. intros e He.
  unfold handleCsvUpload, await, modify in He. cbn [snd] in He.
  rewrite view_set_view in He. cbn [csvContent setCsvContent] in He.
  by apply CsvFacts.parseEntities_clean in He as [Hne _].
Qed.

End ScanTotal.

(** ** How a scan starts and ends *)

Module ScanEnds.
Import Logic ScanFacts.

Definition clearQuestion : jsstring :=
  str "Sollen alte Ergebnisse vorher gel" ++ [246] ++ str "scht werden?".

(** The scan found old results and the user had them cleared. *)
Definition clearsFirst (w : World) (s : State) : Prop :=
  (0 < size (entityCounts (view s)))%nat /\ confirm w clearQuestion = true.

Definition busy (s : State) : bool := isProcessing (view s).

Lemma busy_suspend s : busy (suspend s) = busy s.
Proof. unfold busy. by autorewrite with state. Qed.

Lemma busy_set_store g s : busy (set_store g s) = busy s.
Proof. reflexivity. Qed.

#[local] Instance busy_evolution : Evolution (Keeps busy) :=
  Frames.Keeps_evolution busy busy_suspend.
#[local] Existing Instance Keeps_blind.

Section WithWorld.
Variable w : World.

Lemma busy_refreshStats s : busy (refreshStats w s).2 = busy s.
Proof.
  assert (sat (Keeps busy) (refreshStats w)) as H; [|apply H].
  unfold refreshStats. sat_step; [|by sat_step].
  sat_step. apply Frames.keeps_getMatchesGrouped;
    [apply busy_suspend|apply busy_set_store].
Qed.

(** A statistics refresh that resolves shows the tally of the store. *)
Lemma refreshStats_Ok s s' :
  refreshStats w s = (Ok tt, s') ->
  entityCounts (view s') = tally w (store_getAll (store s')).
Proof.
  unfold refreshStats, LocalDB.getMatchesGrouped, LocalDB.ensureInit, LocalDB.init,
    bind, gets, await, tryCatch, ret, throw, modify, idbRequest.
  rewrite !store_suspend.
  destruct (dbOpen (store s)) eqn:Ho; cbn.
  - rewrite ?store_suspend. destruct (idbFault w _); [done|]. by intros [= <-].
  - rewrite ?store_suspend, ?Ho. cbn. rewrite ?store_suspend.
    destruct (idbFault w _); [done|]. cbn.
    destruct (idbFault w _); [done|]. by intros [= <-].
Qed.

(** The [finally] block of the scan. *)
Definition finalBlock : M unit :=
  bind (modify (set_view (setIsProcessing false))) (fun _ => await (refreshStats w)).

Lemma finalBlock_idle s : busy (finalBlock s).2 = false.
Proof.
  unfold finalBlock, bind, modify, await. cbn [fst snd].
  rewrite busy_refreshStats, busy_suspend. reflexivity.
Qed.

Lemma finalBlock_Ok s s' :
  finalBlock s = (Ok tt, s') ->
  entityCounts (view s') = tally w (store_getAll (store s')).
Proof.
  unfold finalBlock, bind, modify, await. cbn [fst snd]. apply refreshStats_Ok.
Qed.

Lemma tryFinally_final (main : M unit) s :
  match (tryFinally main finalBlock s).1 with
  | Ok _ =>
      busy (tryFinally main finalBlock s).2 = false /\
      entityCounts (view (tryFinally main finalBlock s).2)
      = tally w (store_getAll (store (tryFinally main finalBlock s).2))
  | Throw _ => busy (tryFinally main finalBlock s).2 = false
  | OutOfFuel => True
  end.
Proof.
  unfold tryFinally. destruct (main s) as [[[]| e |] s1]; [| |done];
    pose proof (finalBlock_idle s1) as Hidle;
    pose proof (finalBlock_Ok s1) as Hok;
    destruct (finalBlock s1) as [[[]| e' |] s2]; cbn [fst snd] in *; auto.
Qed.

End WithWorld.

(** X19: how a scan leaves the page.  A scan that returns normally
    leaves it idle, showing as counts the tally of what the store holds.
    A scan that rejects leaves it idle too, except when the rejection
    comes from clearing the old results: then nothing was cleared and
    the page is left busy. *)
Theorem scan_end_state w fuel dirHandle s :
  csvContent (view s) <> [] ->
  match (processDirectory w fuel dirHandle s).1 with
  | Ok _ =>
      isProcessing (view (processDirectory w fuel dirHandle s).2) = false /\
      entityCounts (view (processDirectory w fuel dirHandle s).2)
      = tally w (store_getAll (store (processDirectory w fuel dirHandle s).2))
  | Throw _ =>
      isProcessing (view (processDirectory w fuel dirHandle s).2) = false \/
      (clearsFirst w s /\
       isProcessing (view (processDirectory w fuel dirHandle s).2) = true /\
       records (store (processDirectory w fuel dirHandle s).2) = records (store s))
  | OutOfFuel => True
  end.
Proof.
  intros Hcsv. remember (processDirectory w fuel dirHandle s) as r eqn:Hr.
  unfold processDirectory in Hr. rewrite Provenance.bind_gets in Hr.
  destruct (csvContent (view s)) as [|e entities]; [done|]. clear Hcsv.
  match type of Hr with context [tryFinally ?m _] => set (main := m) in Hr end.
  change (bind (modify (set_view (setIsProcessing false)))
            (fun _ => await (refreshStats w))) with (finalBlock w) in Hr.
  set (rest := bind (modify (set_fileCount 0))
                 (fun _ => bind (modify (set_matchCount 0))
                    (fun _ => tryFinally main (finalBlock w)))) in Hr.
  assert (forall s2,
            match (rest s2).1 with
            | Ok _ =>
                busy (rest s2).2 = false /\
                entityCounts (view (rest s2).2)
                = tally w (store_getAll (store (rest s2).2))
            | Throw _ => busy (rest s2).2 = false
            | OutOfFuel => True
            end) as Hrest.
  { intros s2. apply (tryFinally_final w main). }
  clearbody rest. clear main.
  unfold bind at 1 2, modify at 1 2 in Hr. cbn [fst snd] in Hr.
  rewrite Provenance.bind_gets in Hr.
  set (s1 := set_abort false (set_view (setIsProcessing true) s)) in Hr.
  change (entityCounts (view s1)) with (entityCounts (view s)) in Hr.
  unfold bind at 1 in Hr.
  assert (forall s3, r = rest s3 ->
            match r.1 with
            | Ok _ =>
                isProcessing (view r.2) = false /\
                entityCounts (view r.2) = tally w (store_getAll (store r.2))
            | Throw _ =>
                isProcessing (view r.2) = false \/
                (clearsFirst w s /\ isProcessing (view r.2) = true /\
                 records (store r.2) = records (store s))
            | OutOfFuel => True
            end) as Hgo.
  { intros s3 ->. specialize (Hrest s3).
    destruct (rest s3) as [[[]| x |] s4]; cbn [fst snd] in *; [done|by left|done]. }
  destruct (bool_decide (0 < size (entityCounts (view s)))%nat) eqn:Hsize;
    [destruct (confirm w _) eqn:Hconf|].
  - unfold bind at 1, await at 1 in Hr.
    pose proof (Frames.keeps_clear view view_suspend view_set_store w (suspend s1))
      as Hv.
    pose proof (StoreMore.clear_Throw w (suspend s1)) as Hthrow.
    destruct (LocalDB.clear w (suspend s1)) as [[[]| x |] s2]; cbn [fst snd] in Hr.
    + unfold bind, modify in Hr. cbn [fst snd] in Hr. by apply (Hgo _ Hr).
    + subst r. cbn [fst snd]. right.
      unfold ScanFacts.Keeps in Hv. cbn [fst snd] in Hv.
      destruct (Hthrow s2 x eq_refl) as [Hrec _].
      split; [split; [by apply bool_decide_eq_true_1 in Hsize|exact Hconf]|].
      rewrite Hv, Hrec. by autorewrite with state.
    + by subst r.
  - cbn [ret fst snd] in Hr. by apply (Hgo _ Hr).
  - cbn [ret fst snd] in Hr. by apply (Hgo _ Hr).
Qed.

(** X20: a click on Stop that came before the scan, or was left over
    from an earlier one, does not cancel the scan: it starts by lowering
    the flag. *)
Theorem stale_stop_ignored w fuel dirHandle s :
  csvContent (view s) <> [] ->
  processDirectory w fuel dirHandle (stopProcessing s)
  = processDirectory w fuel dirHandle (set_abort false s).
Proof.
  intros Hcsv. unfold processDirectory. rewrite !Provenance.bind_gets.
  change (csvContent (view (stopProcessing s))) with (csvContent (view s)).
  change (csvContent (view (set_abort false s))) with (csvContent (view s)).
  destruct (csvContent (view s)) as [|e entities]; [done|].
  unfold bind at 1 2, modify at 1 2. cbn [fst snd].
  symmetry. unfold bind at 1 2, modify at 1 2. cbn [fst snd].
  reflexivity.
Qed.

(** X21: the one way a scan leaves the page busy.  Old results are
    there, the user has them cleared, and the request that clears them
    fails: the handler of the folder button returns normally with the
    error on the console, nothing is cleared, no file is scanned, and
    the page still shows the scan as running. *)
Theorem failed_clear_leaves_busy w fuel dirHandle s x :
  showDirectoryPicker w = Some (Resolved dirHandle) ->
  csvContent (view s) <> [] ->
  clearsFirst w s ->
  dbOpen (store s) = true ->
  idbFault w (requests (store s)) = Some x ->
  let r := handleFolderSelect w fuel s in
  r.1 = Ok tt /\
  isProcessing (view r.2) = true /\
  records (store r.2) = records (store s) /\
  entityCounts (view r.2) = entityCounts (view s) /\
  fileCount r.2 = fileCount s /\
  console r.2
  = console s ++ [ConsoleError (Some (str "Zugriff verweigert oder Fehler:")) x].
Proof.
  intros Hpick Hcsv [Hsize Hconf] Ho Hf. cbv zeta.
  set (s1 := set_abort false (set_view (setIsProcessing true) (suspend (suspend s)))).
  assert (processDirectory w fuel dirHandle (suspend (suspend s))
          = (Throw x,
             set_store (fun st => mkStore (records st) (keyGen st)
                                    (S (requests (store s))) (dbOpen st))
               (suspend s1))) as Hpd.
  { unfold processDirectory. rewrite Provenance.bind_gets, !view_suspend.
    destruct (csvContent (view s)) as [|e entities]; [done|].
    match goal with |- context [tryFinally ?m ?f] => generalize (tryFinally m f) end.
    intros rest.
    unfold bind at 1 2, modify at 1 2. cbn [fst snd]. fold s1.
    rewrite Provenance.bind_gets.
    change (entityCounts (view s1)) with (entityCounts (view (suspend (suspend s)))).
    rewrite !view_suspend, (bool_decide_eq_true_2 _ Hsize).
    fold clearQuestion. rewrite Hconf.
    unfold bind at 1 2, await at 1, LocalDB.clear, bind at 1, LocalDB.ensureInit.
    rewrite Provenance.bind_gets.
    assert (store (suspend s1) = store s) as Hst
      by (unfold s1; by autorewrite with state).
    rewrite Hst, Ho. unfold ret at 1, idbRequest. by rewrite Hst, Hf. }
  unfold handleFolderSelect. rewrite Hpick.
  unfold tryCatch, bind, await. cbn [settle ret fst snd]. rewrite Hpd.
  unfold modify. cbn [fst snd]. unfold s1. by autorewrite with state.
Qed.

End ScanEnds.

(** ** Choosing an entity *)

Module SelectFacts.
Import Logic ScanFacts.

Section WithWorld.
Variable w : World.

Lemma getMatchesForEntity_result e s :
  match (LocalDB.getMatchesForEntity w e s).1 with
  | Ok ms => ms = index_getAll e (store s)
  | Throw _ => True
  | OutOfFuel => False
  end /\
  records (store (LocalDB.getMatchesForEntity w e s).2) = records (store s) /\
  view (LocalDB.getMatchesForEntity w e s).2 = view s.
Proof.
  unfold LocalDB.getMatchesForEntity, LocalDB.ensureInit, LocalDB.init, bind, gets,
    await, tryCatch, ret, throw, idbRequest.
  destruct (dbOpen (store s)) eqn:Ho; cbn.
  - destruct (idbFault w _); cbn; [done|].
    split; [|done]. unfold index_getAll, store_getAll. done.
  - rewrite ?store_suspend, ?Ho. cbn. rewrite ?store_suspend.
    destruct (idbFault w _); cbn; [by autorewrite with state|].
    destruct (idbFault w _); cbn; [by autorewrite with state|].
    autorewrite with state. split; [|done]. unfold index_getAll, store_getAll. done.
Qed.

End WithWorld.

(** X22: [handleSelectEntity].  Choosing the entity that is active
    closes it: no entity is active and the list of matches is empty.
    Choosing another one makes it the active entity and loads its
    matches, those records of the store whose entity it is, in the order
    of their keys; the store is only read.  When loading rejects, the
    entity has been made active all the same. *)
Theorem handleSelectEntity_cases w e s :
  (activeEntity (view s) = Some e ->
   handleSelectEntity w e s = (Ok [], set_view (setActiveEntity None) s)) /\
  (activeEntity (view s) <> Some e ->
   activeEntity (view (handleSelectEntity w e s).2) = Some e /\
   records (store (handleSelectEntity w e s).2) = records (store s) /\
   match (handleSelectEntity w e s).1 with
   | Ok ms =>
       ms = filter (fun m => entity m = e) (snd <$> records (store s))
   | Throw _ => True
   | OutOfFuel => False
   end).
Proof.
  unfold handleSelectEntity. rewrite !Provenance.bind_gets. split; intros Ha.
  - by rewrite (bool_decide_eq_true_2 _ Ha).
  - rewrite (bool_decide_eq_false_2 _ Ha).
    unfold bind, modify, await. cbn [fst snd].
    pose proof (getMatchesForEntity_result w e
                  (suspend (set_view (setActiveEntity (Some e)) s)))
      as (Hres & Hrec & Hview).
    destruct (LocalDB.getMatchesForEntity w e _) as [[ms| x |] s1];
      cbn [fst snd ret] in *; rewrite Hrec, Hview; autorewrite with state;
      (split; [done|]); (split; [done|]); [|done|done].
    rewrite Hres. unfold index_getAll, store_getAll. by autorewrite with state.
Qed.

End SelectFacts.

(** ** A file that cannot be read *)

Module Unreadable.
Import Logic ScanFacts.

(** The file behind the handle cannot be had, or its bytes cannot. *)
Definition unreadable (fh : FileHandle) (e : Thrown) : Prop :=
  fh_getFile fh = Rejected e \/
  exists file, fh_getFile fh = Resolved file /\ file_arrayBuffer file = Rejected e.

Lemma forAwait_unreadable w fuel entities fh rest s e :
  abortControllerRef (suspend s) = false ->
  unreadable fh e ->
  exists s1,
    forAwait w fuel entities (fh :: rest) s = (Throw e, s1) /\
    console s1 = console s /\ records (store s1) = records (store s) /\
    matchCount s1 = matchCount s /\ fileCount s1 = S (fileCount s) /\
    filesProcessed (stats (view s1)) = S (fileCount s).
Proof.
  intros Hab Hun.
  rewrite forAwait_cons, Hab. unfold bind at 1, processFile.
  unfold bind at 1 2 3, modify at 1 2, await at 1. cbn [fst snd].
  destruct Hun as [Hf|(file & Hf & Hb)]; rewrite Hf; cbn [settle ret throw fst snd].
  - eexists. split; [reflexivity|]. by autorewrite with state.
  - unfold bind at 1, await at 1. rewrite Hb. cbn [settle ret throw fst snd].
    eexists. split; [reflexivity|]. by autorewrite with state.
Qed.

(** X23: a file that cannot be read ends the scan.  Unlike a document
    that fails to decode, it is read outside the inner [try]: the loop
    over the files is left, the files after it are not scanned, and the
    error is written to the console without a label.  The file is
    counted as processed and adds no record. *)
Theorem unreadable_file_ends_scan w fuel entities fh rest s e :
  abortControllerRef (suspend s) = false ->
  unreadable fh e ->
  (forAwait w fuel entities (fh :: rest) s).1 = Throw e /\
  let r := tryCatch (forAwait w fuel entities (fh :: rest))
             (fun err => modify (log (ConsoleError None err))) s in
  r.1 = Ok tt /\
  console r.2 = console s ++ [ConsoleError None e] /\
  records (store r.2) = records (store s) /\
  matchCount r.2 = matchCount s /\
  fileCount r.2 = S (fileCount s) /\
  filesProcessed (stats (view r.2)) = S (fileCount s).
Proof.
  intros Hab Hun. cbv zeta.
  destruct (forAwait_unreadable w fuel entities fh rest s e Hab Hun)
    as (s1 & Hrun & H).
  unfold tryCatch. rewrite Hrun. cbn [fst snd]. split; [done|].
  unfold modify. cbn [fst snd]. autorewrite with state.
  destruct H as (-> & -> & -> & -> & ->). done.
Qed.

End Unreadable.

(** ** A document that fails *)

Module DocumentFailure.
Import Logic ScanLogic ScanFacts Provenance Unreadable.

(** The run appends records to the store. *)
Definition Appends : Rel :=
  fun s _ s' => exists new, records (store s') = records (store s) ++ new.

#[local] Instance Appends_evolution : Evolution Appends.
Proof.
  split.
  - intros s c. exists []. by rewrite app_nil_r.
  - intros s s1 s2 c [n1 H1] [n2 H2]. exists (n1 ++ n2).
    by rewrite H2, H1, app_assoc.
  - intros s. exists []. by rewrite store_suspend, app_nil_r.
Qed.

#[local] Instance Appends_blind : Blind Appends.
Proof. split. by intros s c c' s' H. Qed.

#[local] Existing Instance Produces_evolution.
#[local] Existing Instance Produces_blind.
#[local] Existing Instance Keeps_blind.

(** What the loop over the pages has no business with. *)
Definition desk (s : State) := (console s, fileCount s).

Lemma desk_suspend s : desk (suspend s) = desk s.
Proof. unfold desk. by autorewrite with state. Qed.

#[local] Instance desk_evolution : Evolution (Keeps desk) :=
  Frames.Keeps_evolution desk desk_suspend.

Ltac appends_frame :=
  intros; exists []; autorewrite with state; by rewrite app_nil_r.

Definition failureLabel (fh : FileHandle) : jsstring :=
  str "Fehler bei " ++ fh_name fh ++ str ":".

(** The state in which the inner [try] of a document starts: the file
    is counted and named in the statistics, its bytes are read. *)
Definition opened (fh : FileHandle) (s : State) : State :=
  suspend (suspend
    (set_view (setStats (fun prev =>
       mkStats (S (fileCount s)) (matchesFound prev) (fh_name fh)))
       (set_fileCount (S (fileCount s)) s))).

Section WithWorld.
Variable w : World.

Lemma appends_request {A} (op : Store -> A * Store) :
  (forall st, exists new, records (op st).2 = records st ++ new) ->
  sat Appends (idbRequest w op).
Proof.
  intros Hop s. unfold idbRequest. destruct (idbFault w _); [appends_frame|].
  destruct (Hop (mkStore (records (store s)) (keyGen (store s))
                   (S (requests (store s))) (dbOpen (store s)))) as [new Hnew].
  destruct (op _) as [a st']. exists new. by autorewrite with state.
Qed.

Lemma appends_processFile fuel entities fh :
  sat Appends (processFile w fuel entities fh).
Proof.
  apply sat_processFile; try appends_frame.
  - typeclasses eauto.
  - intros A f. apply appends_request. intros st. exists []. by rewrite app_nil_r.
  - intros. apply appends_request. intros st. by eexists [_].
  - apply blind_init; [typeclasses eauto..|].
    apply appends_request. intros st. exists []. by rewrite app_nil_r.
  - intros m label. apply blind_catch_log; [typeclasses eauto..|]. appends_frame.
Qed.

Lemma desk_request {A} (op : Store -> A * Store) :
  sat (Keeps desk) (idbRequest w op).
Proof. by apply Frames.keeps_request. Qed.

Lemma desk_scanDocument fuel entities fh buf :
  sat (Keeps desk) (scanDocument w fuel entities fh buf).
Proof.
  apply sat_scanDocument; try done.
  - typeclasses eauto.
  - intros. apply desk_request.
  - apply blind_init; [typeclasses eauto..|]. apply desk_request.
Qed.

Lemma processFile_read fuel entities fh s file buf :
  fh_getFile fh = Resolved file ->
  file_arrayBuffer file = Resolved buf ->
  processFile w fuel entities fh s
  = bind (tryCatch (scanDocument w fuel entities fh buf)
            (fun e => modify (log (ConsoleError (Some (failureLabel fh)) e))))
      (fun _ => afterDocument w) (opened fh s).
Proof.
  intros Hfile Hbuf.
  unfold processFile, bind at 1 2 3 4, modify at 1 2, await at 1 2.
  cbn [fst snd]. rewrite Hfile. cbn [settle ret fst snd].
  rewrite Hbuf. cbn [settle ret fst snd]. reflexivity.
Qed.

(** The records a document contributed are its own. *)
Lemma processFile_contributes fuel entities fh s :
  exists new,
    records (store (processFile w fuel entities fh s).2) = records (store s) ++ new /\
    Forall (fun kv => genuine w entities [fh] kv.2) new.
Proof.
  destruct (appends_processFile fuel entities fh s) as [new Hnew].
  destruct (found_processFile w fuel entities fh s) as (new' & [Hn|Hn] & Hall).
  - exists new. split; [done|]. rewrite Hnew in Hn.
    by apply app_inv_head in Hn as ->.
  - exists new. split; [done|]. rewrite Hnew in Hn. rewrite <- Hn in Hall.
    by apply Forall_app in Hall as [_ ?].
Qed.

End WithWorld.

(** C4: let the loop be about to take the document [fh] with
    the abort flag clear.  If the file or its bytes cannot be read, the
    loop is left with that error and nothing is added: the scan ends.
    If they can, then whatever becomes of the document, the records it
    contributes are appended to the earlier ones and are records of
    this document, and they are those stored when its scan ended,
    nothing being rolled back.  When its scan fails, be it at
    [getDocument], at a page, at the text of a page or at an insert,
    the failure is written to the console under the name of the
    document; the turn of the loop completes normally, the one
    exception being a failure of the periodic statistics refresh on a
    fifth document; and the scan goes on with the documents that
    follow.  When it is [getDocument] that rejects, the document
    contributes no record at all. *)
Theorem document_failure_contained w fuel entities fh rest s :
  abortControllerRef (suspend s) = false ->
  (forall e, unreadable fh e ->
     (forAwait w fuel entities (fh :: rest) s).1 = Throw e /\
     records (store (forAwait w fuel entities (fh :: rest) s).2) = records (store s)) /\
  (forall file buf,
     fh_getFile fh = Resolved file ->
     file_arrayBuffer file = Resolved buf ->
     let d := scanDocument w fuel entities fh buf (opened fh (suspend s)) in
     let r := processFile w fuel entities fh (suspend s) in
     (exists new,
        records (store r.2) = records (store s) ++ new /\
        Forall (fun kv => genuine w entities [fh] kv.2) new) /\
     records (store r.2) = records (store d.2) /\
     (forall e, d.1 = Throw e ->
        console r.2 = console s ++ [ConsoleError (Some (failureLabel fh)) e] /\
        (r.1 = Ok tt \/ (S (fileCount s) mod 5 = 0)%nat /\ exists e', r.1 = Throw e') /\
        (r.1 = Ok tt ->
         forAwait w fuel entities (fh :: rest) s
         = forAwait w fuel entities rest r.2)) /\
     (forall e, getDocument w buf = Rejected e ->
        d.1 = Throw e /\
        records (store r.2) = records (store s) /\
        matchCount r.2 = matchCount s)).
Proof.
  intros Hab. split.
  { intros e Hun.
    destruct (forAwait_unreadable w fuel entities fh rest s e Hab Hun)
      as (s1 & -> & _ & Hrec & _).
    by split. }
  intros file buf Hfile Hbuf. cbv zeta.
  pose proof (processFile_contributes w fuel entities fh (suspend s)) as Hnew.
  rewrite store_suspend in Hnew.
  pose proof (desk_scanDocument w fuel entities fh buf (opened fh (suspend s)))
    as Hdesk.
  unfold Keeps, desk in Hdesk.
  assert (console (opened fh (suspend s)) = console s /\
          fileCount (opened fh (suspend s)) = S (fileCount s) /\
          records (store (opened fh (suspend s))) = records (store s) /\
          matchCount (opened fh (suspend s)) = matchCount s)
    as (Hc0 & Hf0 & Hr0 & Hm0) by (unfold opened; by autorewrite with state).
  rewrite Hc0, Hf0 in Hdesk.
  rewrite (processFile_read w fuel entities fh (suspend s) file buf Hfile Hbuf) in *.
  unfold bind, tryCatch in *.
  destruct (scanDocument w fuel entities fh buf (opened fh (suspend s)))
    as [[[]| x |] s1] eqn:Hd; cbn [fst snd] in *.
  - destruct (afterDocument_completes w s1) as [_ Hl].
    apply ledger_eq in Hl as (Hrec & _). split; [done|]. split; [done|].
    split; [by intros e [=]|].
    intros e Hdoc. unfold scanDocument, bind, await in Hd.
    rewrite Hdoc in Hd. by cbn [settle throw fst snd] in Hd.
  - unfold modify in *. cbn [fst snd] in *.
    set (s2 := log (ConsoleError (Some (failureLabel fh)) x) s1) in *.
    destruct (afterDocument_completes w s2) as [Hcomp Hl].
    apply ledger_eq in Hl as (Hrec & Hmc & Hcon & _).
    assert (records (store s2) = records (store s1) /\
            console s2 = console s1 ++ [ConsoleError (Some (failureLabel fh)) x] /\
            fileCount s2 = fileCount s1 /\ matchCount s2 = matchCount s1)
      as (Hr2 & Hc2 & Hf2 & Hm2) by (unfold s2; by autorewrite with state).
    injection Hdesk as Hcon1 Hfc1.
    split; [done|]. split; [by rewrite Hrec|]. split.
    + intros e [= <-]. split; [by rewrite Hcon, Hc2, Hcon1|].
      rewrite Hf2, Hfc1 in Hcomp. split; [exact Hcomp|].
      intros Hok. rewrite forAwait_cons, Hab. unfold bind at 1.
      rewrite (processFile_read w fuel entities fh (suspend s) file buf Hfile Hbuf).
      unfold bind at 1, tryCatch. rewrite Hd.
      unfold modify. cbn [fst snd]. fold s2.
      destruct (afterDocument w s2) as [[[]| e' |] s3]; by cbn in *.
    + intros e Hdoc. unfold scanDocument, bind, await in Hd.
      rewrite Hdoc in Hd. cbn [settle throw fst snd] in Hd.
      injection Hd as <- <-. split; [done|].
      rewrite Hrec, Hmc, Hr2, Hm2. autorewrite with state. by rewrite Hr0, Hm0.
  - split; [done|]. split; [done|]. split; [by intros e [=]|].
    intros e Hdoc. unfold scanDocument, bind, await in Hd.
    rewrite Hdoc in Hd. by cbn [settle throw fst snd] in Hd.
Qed.

(** A document of two pages whose second page cannot be had. *)
Definition torn : PDFDocument :=
  mkPDF 2 (fun n =>
    if (n =? 1)%nat then Resolved (Example.pageOf (str "a cat"))
    else Rejected (Exception (str "UnknownErrorException"))).

Definition tornWorld : World :=
  mkWorld (fun c => [c]) (fun s => s) (fun key => key)
    (fun _ => Resolved torn) Example.transform (fun t => Z.of_nat t)
    (fun _ => None) (fun _ => true) None.

Definition tornFile : FileHandle := Example.pdf "torn.pdf" "%PDF".

(** C4 as stated fails: the document fails to decode on its second
    page and has contributed the record of its first. *)
Lemma later_page_failure_keeps_records :
  let s := Example.initial [str "cat"] in
  let d := scanDocument tornWorld 100 [str "cat"] tornFile (mkBuffer (str "%PDF"))
             (opened tornFile (suspend s)) in
  let r := processFile tornWorld 100 [str "cat"] tornFile (suspend s) in
  d.1 = Throw (Exception (str "UnknownErrorException")) /\
  records (store s) = [] /\
  (fun kv => (fileName kv.2, pageNumber kv.2, entity kv.2)) <$> records (store r.2)
  = [(str "torn.pdf", 1%nat, str "cat")].
Proof. by vm_compute. Qed.

End DocumentFailure.

(** ** A transaction that aborts when it is committed *)

Module TxFacts.

(** While every transaction commits, the operations are those of
    [LocalDB] as the scan uses them. *)
Lemma idbTransaction_commits w {A} (op : Store -> A * Store) s :
  Tx.idbTransaction w (fun _ => None) op s = idbRequest w op s.
Proof.
  unfold Tx.idbTransaction, idbRequest.
  destruct (idbFault w _); [done|]. by destruct (op _).
Qed.

Lemma addMatch_commits w m s :
  Tx.addMatch w (fun _ => None) m s = LocalDB.addMatch w m s.
Proof.
  unfold Tx.addMatch, LocalDB.addMatch, bind.
  destruct (LocalDB.ensureInit w s) as [[[]| e |] s1]; [|done..].
  apply idbTransaction_commits.
Qed.

Lemma clear_commits w s :
  Tx.clear w (fun _ => None) s = LocalDB.clear w s.
Proof.
  unfold Tx.clear, LocalDB.clear, bind.
  destruct (LocalDB.ensureInit w s) as [[[]| e |] s1]; [|done..].
  apply idbTransaction_commits.
Qed.

(** The operation resolved, wrote nothing and reported nothing. *)
Definition swallowed (r : Result unit * State) (s : State) : Prop :=
  r.1 = Ok tt /\
  records (store r.2) = records (store s) /\
  keyGen (store r.2) = keyGen (store s) /\
  console r.2 = console s /\
  alerts r.2 = alerts s.

(** C7: on the open database, a failure of the request of an insert
    is propagated: the insert rejects with the error of the request and
    stores nothing.  When request and transaction succeed the record is
    stored.  But when the request succeeds and the transaction aborts
    as it is committed, the failure is swallowed: the insert resolves,
    the record is not in the store, and nothing is written to the
    console or shown; and so it is for [clear], which resolves with
    every record still there. *)
Theorem commit_failure_swallowed w commitFault m s :
  dbOpen (store s) = true ->
  (forall e,
     idbFault w (requests (store s)) = Some e ->
     (Tx.addMatch w commitFault m s).1 = Throw e /\
     records (store (Tx.addMatch w commitFault m s).2) = records (store s)) /\
  (idbFault w (requests (store s)) = None ->
   commitFault (requests (store s)) = None ->
   (Tx.addMatch w commitFault m s).1 = Ok tt /\
   records (store (Tx.addMatch w commitFault m s).2)
   = records (store s) ++ [(keyGen (store s), m)]) /\
  (forall e,
     idbFault w (requests (store s)) = None ->
     commitFault (requests (store s)) = Some e ->
     swallowed (Tx.addMatch w commitFault m s) s /\
     swallowed (Tx.clear w commitFault s) s).
Proof.
  intros Ho.
  assert (forall B (k : unit -> M B), bind (LocalDB.ensureInit w) k s = k tt s) as Hk.
  { intros B k. unfold LocalDB.ensureInit, bind, gets. by rewrite Ho. }
  unfold Tx.addMatch, Tx.clear. rewrite !Hk. unfold Tx.idbTransaction, swallowed.
  split; [|split].
  - intros e ->. by cbn.
  - intros -> ->. by cbn.
  - intros e -> ->. by cbn.
Qed.

End TxFacts.

(** ** When a render shows a message *)

Module RenderVisible.
Import Logic ScanFacts RenderFacts RenderSafety.

#[local] Existing Instance bystanders_evolution.
#[local] Existing Instance Keeps_blind.

(** The page of the record cannot be loaded, painted or read: one of
    the operations awaited for it rejects with [err]. *)
Inductive pageFails (w : World) (m : MatchRecord) (err : Thrown) : Prop :=
  | fails_load : loadFails w m err -> pageFails w m err
  | fails_render file buf pdf page :
      fh_getFile (fileHandle m) = Resolved file ->
      file_arrayBuffer file = Resolved buf ->
      getDocument w buf = Resolved pdf ->
      getPage pdf (pageNumber m) = Resolved page ->
      page_render page = Rejected err -> pageFails w m err
  | fails_text file buf pdf page :
      fh_getFile (fileHandle m) = Resolved file ->
      file_arrayBuffer file = Resolved buf ->
      getDocument w buf = Resolved pdf ->
      getPage pdf (pageNumber m) = Resolved page ->
      page_render page = Resolved tt ->
      getTextContent page = Rejected err -> pageFails w m err.

(** One of the operations a render awaits rejects with [err]: the
    query of the permission, the request for it when it is not held,
    or, with the permission, one of those for the page. *)
Inductive attemptRejects (w : World) (m : MatchRecord) (err : Thrown) : Prop :=
  | rejects_query :
      fh_queryPermission (fileHandle m) = Rejected err -> attemptRejects w m err
  | rejects_request p :
      fh_queryPermission (fileHandle m) = Resolved p -> p <> Granted ->
      fh_requestPermission (fileHandle m) = Rejected err -> attemptRejects w m err
  | rejects_page :
      permitted m -> pageFails w m err -> attemptRejects w m err.

Section WithWorld.
Variable w : World.

Lemma renderPage_outcome m s :
  is_Some (canvas s) ->
  (exists err, pageFails w m err /\ (renderPage w m s).1 = Throw err) \/
  ((renderPage w m s).1 = Ok tt /\ forall err, ~ pageFails w m err).
Proof.
  intros [cv Hcv].
  destruct (fh_getFile (fileHandle m)) as [file|e] eqn:H1.
  2:{ left. exists e. split; [by apply fails_load, fails_getFile|].
      unfold renderPage, bind, await. by rewrite H1. }
  destruct (file_arrayBuffer file) as [buf|e] eqn:H2.
  2:{ left. exists e. split; [by apply fails_load, (fails_arrayBuffer w m e file)|].
      unfold renderPage, bind, await. rewrite H1. cbn [settle ret fst snd].
      by rewrite H2. }
  destruct (getDocument w buf) as [pdf|e] eqn:H3.
  2:{ left. exists e.
      split; [by apply fails_load, (fails_getDocument w m e file buf)|].
      unfold renderPage, bind, await. rewrite H1. cbn [settle ret fst snd].
      rewrite H2. cbn [settle ret fst snd]. by rewrite H3. }
  destruct (getPage pdf (pageNumber m)) as [page|e] eqn:H4.
  2:{ left. exists e.
      split; [by apply fails_load, (fails_getPage w m e file buf pdf)|].
      unfold renderPage, bind, await. rewrite H1. cbn [settle ret fst snd].
      rewrite H2. cbn [settle ret fst snd]. rewrite H3. cbn [settle ret fst snd].
      by rewrite H4. }
  assert ((renderPage w m s).1
          = match page_render page with
            | Resolved _ =>
                match getTextContent page with
                | Resolved _ => Ok tt
                | Rejected e => Throw e
                end
            | Rejected e => Throw e
            end) as Hrun.
  { unfold renderPage, bind, await, gets, modify.
    rewrite H1. cbn [settle ret fst snd]. rewrite H2. cbn [settle ret fst snd].
    rewrite H3. cbn [settle ret fst snd]. rewrite H4. cbn [settle ret fst snd].
    rewrite !canvas_suspend, Hcv.
    destruct (page_render page) as [[]|e]; cbn [settle ret throw fst snd]; [|done].
    destruct (getTextContent page) as [items|e]; cbn [settle ret throw fst snd];
      [|done].
    by rewrite MatcherFacts.createExactMatchRegex_program. }
  rewrite Hrun.
  destruct (page_render page) as [[]|e] eqn:H5.
  2:{ left. exists e. split; [by apply (fails_render w m e file buf pdf page)|done]. }
  destruct (getTextContent page) as [items|e] eqn:H6.
  2:{ left. exists e. split; [by apply (fails_text w m e file buf pdf page)|done]. }
  right. split; [done|]. intros err Hfail.
  destruct Hfail as [Hl|f b d pg G1 G2 G3 G4 G5|f b d pg G1 G2 G3 G4 G5 G6].
  - destruct Hl as [G1|f G1 G2|f b G1 G2 G3|f b d G1 G2 G3 G4]; congruence.
  - congruence.
  - congruence.
Qed.

(** The body of the [try] of [loadAndRenderMatch]. *)
Definition attempt (m : MatchRecord) : M unit :=
  bind (await (settle (fh_queryPermission (fileHandle m))))
    (fun permission =>
       match permission with
       | Granted => renderPage w m
       | _ =>
           bind (await (settle (fh_requestPermission (fileHandle m))))
             (fun request =>
                match request with
                | Granted => renderPage w m
                | _ => ret tt
                end)
       end).

Lemma keeps_attempt m : sat (Keeps bystanders) (attempt m).
Proof.
  unfold attempt. sat_step; [sat_step; sat_step|].
  destruct a; [apply keeps_renderPage|..];
    (sat_step; [sat_step; sat_step|]);
    (destruct a; [apply keeps_renderPage|sat_step..]).
Qed.

Lemma attempt_outcome m s :
  is_Some (canvas s) ->
  (exists err, attemptRejects w m err /\ (attempt m s).1 = Throw err) \/
  ((attempt m s).1 = Ok tt /\ forall err, ~ attemptRejects w m err).
Proof.
  intros Hcv.
  assert (forall s', is_Some (canvas s') ->
            permitted m ->
            (exists err, attemptRejects w m err /\ (renderPage w m s').1 = Throw err) \/
            ((renderPage w m s').1 = Ok tt /\ forall err, ~ pageFails w m err))
    as Hpage.
  { intros s' Hcv' Hperm.
    destruct (renderPage_outcome m s' Hcv') as [(err & Hf & Hr)|Hok]; [left|by right].
    exists err. split; [by apply rejects_page|done]. }
  assert (forall s', is_Some (canvas (suspend s')) <-> is_Some (canvas s')) as Hsus.
  { intros s'. by rewrite canvas_suspend. }
  unfold attempt, bind, await.
  destruct (fh_queryPermission (fileHandle m)) as [p|e] eqn:Hq;
    cbn [settle ret throw fst snd].
  2:{ left. exists e. split; [by apply rejects_query|done]. }
  assert (forall q,
            fh_requestPermission (fileHandle m) = Resolved q -> q <> Granted ->
            p <> Granted ->
            forall err, ~ attemptRejects w m err) as Hdenied.
  { intros q Hrq Hqn Hpn err Ha.
    destruct Ha as [G|p' G1 G2 G3|Hp Hf]; [congruence|congruence|].
    destruct Hp as [G|(p' & G1 & G2)]; congruence. }
  assert (forall s', is_Some (canvas s') -> p <> Granted ->
            (exists err, attemptRejects w m err /\
               (bind (await (settle (fh_requestPermission (fileHandle m))))
                  (fun request =>
                     match request with
                     | Granted => renderPage w m
                     | _ => ret tt
                     end) s').1 = Throw err) \/
            ((bind (await (settle (fh_requestPermission (fileHandle m))))
                  (fun request =>
                     match request with
                     | Granted => renderPage w m
                     | _ => ret tt
                     end) s').1 = Ok tt /\
             forall err, ~ attemptRejects w m err)) as Hask.
  { intros s' Hcv' Hpn. unfold bind, await.
    destruct (fh_requestPermission (fileHandle m)) as [q|e] eqn:Hrq;
      cbn [settle ret throw fst snd].
    2:{ left. exists e. split; [by apply (rejects_request w m e p)|done]. }
    destruct q.
    - destruct (Hpage (suspend s')) as [Hl|[Hok Hno]];
        [by apply Hsus|right; by exists p|by left|].
      right. split; [done|]. intros err Ha.
      destruct Ha as [G|p' G1 G2 G3|Hp Hf]; [congruence|congruence|].
      by apply (Hno err).
    - right. split; [done|]. by apply (Hdenied Denied).
    - right. split; [done|]. by apply (Hdenied Prompt). }
  destruct p.
  - destruct (Hpage (suspend s)) as [Hl|[Hok Hno]];
      [by apply Hsus|by left|by left|].
    right. split; [done|]. intros err Ha.
    destruct Ha as [G|p' G1 G2 G3|Hp Hf]; [congruence|congruence|].
    by apply (Hno err).
  - apply Hask; [by apply Hsus|done].
  - apply Hask; [by apply Hsus|done].
Qed.

Lemma loadAndRenderMatch_attempt m s :
  loadAndRenderMatch w m s
  = if negb (pdfLibReady (view s)) || negb (bool_decide (is_Some (canvas s)))
    then (Ok tt, set_view (setSelectedMatch (Some m)) s)
    else
      tryCatch (attempt m)
        (fun err =>
           bind (modify (log (ConsoleError (Some loadErrorLabel) err)))
             (fun _ => modify (show_alert loadErrorAlert)))
        (set_view (setSelectedMatch (Some m)) s).
Proof.
  unfold loadAndRenderMatch, bind at 1 2 3, modify at 1, gets at 1 2.
  cbn [fst snd]. rewrite view_set_view, canvas_set_view.
  cbn [pdfLibReady setSelectedMatch].
  by destruct (negb _ || negb _).
Qed.

End WithWorld.

(** C8: when the read permission is neither held nor granted
    on request, the render returns normally after recording the
    selection; the canvas is left as it was and nothing is reported,
    neither by an alert nor on the console.  A render reports at all,
    by the one alert and with the error on the console, only when the
    engine is ready, the canvas is mounted and one of the operations it
    awaits rejects; and then it always does. *)
Theorem render_reports_rejections w m s :
  let r := loadAndRenderMatch w m s in
  (permissionDenied m ->
   r.1 = Ok tt /\
   selectedMatch (view r.2) = Some m /\
   canvas r.2 = canvas s /\
   alerts r.2 = alerts s /\
   console r.2 = console s) /\
  ((alerts r.2 = alerts s /\ console r.2 = console s) \/
   (exists err,
      attemptRejects w m err /\
      pdfLibReady (view s) = true /\ is_Some (canvas s) /\
      alerts r.2 = alerts s ++ [loadErrorAlert] /\
      console r.2 = console s ++ [ConsoleError (Some loadErrorLabel) err])) /\
  (pdfLibReady (view s) = true -> is_Some (canvas s) ->
   forall err, attemptRejects w m err ->
     alerts r.2 = alerts s ++ [loadErrorAlert]).
Proof.
  cbv zeta. split; [intros Hden; apply (render_denied_silent w m s Hden)|].
  rewrite loadAndRenderMatch_attempt.
  destruct (pdfLibReady (view s)) eqn:Hready; cbn [negb orb].
  2:{ split; [left; by autorewrite with state|]. by intros [=]. }
  destruct (decide (is_Some (canvas s))) as [Hcv|Hcv].
  2:{ rewrite (bool_decide_eq_false_2 _ Hcv). cbn [negb].
      split; [left; by autorewrite with state|]. by intros _ Hc. }
  rewrite (bool_decide_eq_true_2 _ Hcv). cbn [negb]. unfold tryCatch.
  set (s1 := set_view (setSelectedMatch (Some m)) s).
  pose proof (keeps_attempt w m s1) as Hk.
  pose proof (attempt_outcome w m s1 Hcv) as Hout.
  unfold Keeps, bystanders in Hk.
  destruct (attempt w m s1) as [[[]| e |] s2]; cbn [fst snd] in *;
    assert (console s2 = console s /\ alerts s2 = alerts s) as [E1 E2]
      by (by injection Hk).
  - destruct Hout as [(err & _ & [=])|[_ Hno]].
    split; [by left|]. intros _ _ err Ha. by destruct (Hno err).
  - unfold bind, modify. cbn [fst snd]. autorewrite with state. rewrite E1, E2.
    destruct Hout as [(err & Ha & [= <-])|[[=] _]].
    split; [right; by exists e|done].
  - by destruct Hout as [(err & _ & [=])|[[=] _]].
Qed.

End RenderVisible.

(** * More instances on the example world *)

Module MoreInstances.
Import Matcher MatcherFacts MatcherMore.

Abbreviation up := (unicodeUpper Example.world).

Lemma upper_cat_not_empty : str "Cat" <> [].
Proof. by vm_compute. Qed.

Lemma cat_occurs : occursAt up (str "Cat") (str "The Catalog cat sat") 12.
Proof.
  apply (matches_occursAt up (str "Cat") (str "The Catalog cat sat") 12 15).
  - vm_compute. lia.
  - by vm_compute.
Qed.

Lemma findAll_complete_witness :
  exists m, m ∈ [mkExec 12 (str "cat")] /\
            (index m <= 12 < index m + length (str "Cat"))%nat.
Proof.
  exact (findAll_complete up 30 (str "Cat") (str "The Catalog cat sat")
           [mkExec 12 (str "cat")] 12 upper_cat_not_empty Instances.cat_in_catalog
           cat_occurs).
Defined.

Lemma cat_same_letters : sameLetters (str "cat") (str "CAT").
Proof. by vm_compute. Qed.

Lemma text_same_letters : sameLetters (str "a Cat") (str "A cAT").
Proof. by vm_compute. Qed.

Lemma findAll_ignores_case_witness :
  option_map (map index) (findAll up 10 (str "cat") (str "a Cat"))
  = option_map (map index) (findAll up 10 (str "CAT") (str "A cAT")).
Proof.
  exact (findAll_ignores_case up 10 (str "cat") (str "CAT") (str "a Cat")
           (str "A cAT") cat_same_letters text_same_letters).
Defined.

Lemma cat_inside : (12 + length (str "cat") <= length (str "The Catalog cat sat"))%nat.
Proof. vm_compute. lia. Qed.

Lemma snippet_anatomy_witness :
  snippetOf (str "The Catalog cat sat") (str "cat") (Z.of_nat 12)
  = str "..." ++ drop (12 - 30) (take 12 (str "The Catalog cat sat"))
      ++ take (length (str "cat")) (drop 12 (str "The Catalog cat sat"))
      ++ take 30 (drop (12 + length (str "cat")) (str "The Catalog cat sat"))
      ++ str "..." /\
  length (snippetOf (str "The Catalog cat sat") (str "cat") (Z.of_nat 12))
  = (3 + Nat.min 12 30 + length (str "cat")
     + Nat.min (length (str "The Catalog cat sat") - (12 + length (str "cat"))) 30
     + 3)%nat.
Proof.
  exact (SnippetMore.snippet_anatomy (str "The Catalog cat sat") (str "cat") 12
           cat_inside).
Defined.

Definition catHighlighter : RegExp := mkRegExp (programOf (str "cat")) false true 0.

Lemma catHighlighter_built :
  createExactMatchRegex (str "cat") false = Some catHighlighter.
Proof. apply createExactMatchRegex_program. Qed.

Lemma highlight_where_entity_occurs_witness :
  (forall a b,
     highlightItems Example.world catHighlighter (a ++ b) (Example.viewportAt 1) 1
     = highlightItems Example.world catHighlighter a (Example.viewportAt 1) 1
       ++ highlightItems Example.world catHighlighter b (Example.viewportAt 1) 1) /\
  (forall item,
     (exists j, occursAt up (str "cat") (item_str item) j) ->
     exists x y width height,
       highlightItems Example.world catHighlighter [item] (Example.viewportAt 1) 1
       = [FillRect (str "rgba(255, 255, 0, 0.4)") x y width height]) /\
  (forall item,
     ~ (exists j, occursAt up (str "cat") (item_str item) j) ->
     highlightItems Example.world catHighlighter [item] (Example.viewportAt 1) 1 = []).
Proof.
  exact (RenderMore.highlight_where_entity_occurs Example.world (str "cat")
           catHighlighter (Example.viewportAt 1) 1 catHighlighter_built).
Defined.

(** One item is highlighted, the other is not. *)
Example highlight_two_items :
  length (highlightItems Example.world catHighlighter
            [mkItem (str "The Catalog") [1; 0; 0; 1; 72; 700]%float 60 12;
             mkItem (str "cat sat") [1; 0; 0; 1; 140; 700]%float 40 12]
            (Example.viewportAt 1) 1) = 1%nat.
Proof. by vm_compute. Qed.

(** *** The store *)

Definition catRecord : MatchRecord := Example.recordOf "cat" Instances.docA.



Lemma catRecord_added_dbts :
  DbTs.addMatch Example.world catRecord Instances.start
  = (Ok tt, (DbTs.addMatch Example.world catRecord Instances.start).2).
Proof. by vm_compute. Qed.

Lemma dbts_addMatch_then_read_witness :
  records (store (DbTs.addMatch Example.world catRecord Instances.start).2)
  = records (store Instances.start) ++ [(keyGen (store Instances.start), catRecord)] /\
  (DbTs.getMatchesForEntity Example.world (entity catRecord)
     (DbTs.addMatch Example.world catRecord Instances.start).2).1
  = Ok (index_getAll (entity catRecord) (store Instances.start) ++ [catRecord]) /\
  (forall e, e <> entity catRecord ->
     (DbTs.getMatchesForEntity Example.world e
        (DbTs.addMatch Example.world catRecord Instances.start).2).1
     = Ok (index_getAll e (store Instances.start))) /\
  (DbTs.getAllEntitiesGrouped Example.world
     (DbTs.addMatch Example.world catRecord Instances.start).2).1
  = Ok (tally Example.world (store_getAll (store Instances.start) ++ [catRecord])).
Proof.
  exact (StoreMore.dbts_addMatch_then_read Example.world catRecord Instances.start
           (DbTs.addMatch Example.world catRecord Instances.start).2
           catRecord_added_dbts eq_refl eq_refl).
Defined.

(** The database cannot be opened. *)
Definition offlineWorld : World := Example.worldWith (Example.failing 0) None.

Definition closed : State :=
  set_store (fun st => mkStore (records st) (keyGen st) (requests st) false)
    Instances.start.

Lemma closed_database_rejects_witness :
  (forall m, StoreMore.rejectsClosed (LocalDB.addMatch offlineWorld m) closed) /\
  StoreMore.rejectsClosed (LocalDB.clear offlineWorld) closed /\
  (forall e, StoreMore.rejectsClosed (LocalDB.getMatchesForEntity offlineWorld e) closed) /\
  StoreMore.rejectsClosed (LocalDB.getMatchesGrouped offlineWorld) closed.
Proof.
  exact (StoreMore.closed_database_rejects offlineWorld closed
           (Exception (str "QuotaExceededError")) eq_refl eq_refl).
Defined.

(** *** Rendering *)

Definition movedRecord : MatchRecord := Example.recordOf "cat" Instances.movedPdf.

Lemma start_ready : pdfLibReady (view Instances.start) = true.
Proof. reflexivity. Qed.

Lemma start_canvas : is_Some (canvas Instances.start).
Proof. by eexists. Qed.

Lemma movedRecord_permitted : RenderSafety.permitted movedRecord.
Proof. by left. Qed.

Lemma movedRecord_fails :
  RenderSafety.loadFails Example.world movedRecord (Exception (str "NotFoundError")).
Proof. by apply RenderSafety.fails_getFile. Qed.

Lemma render_load_failure_witness :
  let r := loadAndRenderMatch Example.world movedRecord Instances.start in
  canvas r.2 = canvas Instances.start /\
  alerts r.2 = alerts Instances.start ++ [RenderSafety.loadErrorAlert] /\
  console r.2
  = console Instances.start
    ++ [ConsoleError (Some RenderSafety.loadErrorLabel)
          (Exception (str "NotFoundError"))].
Proof.
  exact (RenderSafety.render_load_failure Example.world movedRecord Instances.start
           (Exception (str "NotFoundError")) start_ready start_canvas
           movedRecord_permitted movedRecord_fails).
Defined.

(** *** The uploaded list *)

Definition csvText : jsstring := str "cat, dog" ++ [13; 10] ++ str " (cat) ,," ++ [10].

Example csvText_parsed :
  parseEntities csvText = [str "cat"; str "dog"; str "(cat)"].
Proof. by vm_compute. Qed.

Lemma dog_uploaded :
  str "dog"
  ∈ csvContent (view (handleCsvUpload (Some (Resolved csvText)) Instances.start).2).
Proof. apply list_elem_of_In. vm_compute. right. by left. Qed.

Lemma uploaded_entities_clean_witness :
  str "dog" <> [] /\ CsvFacts.clean (str "dog") /\
  exists before after, csvText = before ++ str "dog" ++ after.
Proof.
  exact (CsvFacts.uploaded_entities_clean csvText (str "dog") Instances.start
           dog_uploaded).
Defined.

Lemma comma_space_gap : CsvFacts.gap [44; 32].
Proof. constructor; [by right|]. constructor; [by left|]. constructor. Qed.

Lemma comma_space_separates : Exists (fun c => isSeparator c = true) [44; 32].
Proof. by left. Qed.

Lemma cat_dog_clean : Forall CsvFacts.clean [str "cat"; str "dog"].
Proof.
  repeat constructor; try (by eexists); by repeat constructor.
Qed.

Lemma upload_reads_back_witness :
  csvContent
    (view (handleCsvUpload
             (Some (Resolved (join [44; 32] [str "cat"; str "dog"])))
             Instances.start).2)
  = [str "cat"; str "dog"].
Proof.
  exact (CsvFacts.upload_reads_back [44; 32] [str "cat"; str "dog"] Instances.start
           comma_space_gap comma_space_separates cat_dog_clean).
Defined.

Lemma page_covered : (length (str "a cat") + 2 <= 10)%nat.
Proof. vm_compute. lia. Qed.

Lemma uploaded_list_terminates_witness :
  let r := forEntities Example.world 10
             (csvContent
                (view (handleCsvUpload (Some (Resolved csvText)) Instances.start).2))
             (str "a cat") Instances.docA 1 Instances.start in
  r.1 = Ok tt \/ exists e, r.1 = Throw e.
Proof.
  exact (ScanTotal.uploaded_list_terminates Example.world csvText Instances.start
           (str "a cat") Instances.docA 1 10 Instances.start page_covered).
Defined.

(** *** The scan *)

Lemma start_entities_nonempty :
  Forall (fun e => e <> []) (csvContent (view Instances.start)).
Proof. by repeat constructor. Qed.

Lemma scan_returns_witness :
  exists enough,
    enough = ScanTotal.scanBound Example.scanWorld /\
    forall fuel, (enough <= fuel)%nat ->
      (handleFolderSelect Example.scanWorld fuel Instances.start).1 = Ok tt.
Proof.
  exact (ScanTotal.scan_returns Example.scanWorld Instances.start
           start_entities_nonempty).
Defined.

(** The longest page text of the example folder has 31 characters. *)
Example scanWorld_bound : ScanTotal.scanBound Example.scanWorld = 33%nat.
Proof. by vm_compute. Qed.

Lemma start_has_entities : csvContent (view Instances.start) <> [].
Proof. by vm_compute. Qed.

Lemma scan_end_state_witness :
  match (processDirectory Example.world 100 Example.folder Instances.start).1 with
  | Ok _ =>
      isProcessing
        (view (processDirectory Example.world 100 Example.folder Instances.start).2)
      = false /\
      entityCounts
        (view (processDirectory Example.world 100 Example.folder Instances.start).2)
      = tally Example.world
          (store_getAll
             (store (processDirectory Example.world 100 Example.folder
                       Instances.start).2))
  | Throw _ =>
      isProcessing
        (view (processDirectory Example.world 100 Example.folder Instances.start).2)
      = false \/
      (ScanEnds.clearsFirst Example.world Instances.start /\
       isProcessing
         (view (processDirectory Example.world 100 Example.folder Instances.start).2)
       = true /\
       records
         (store (processDirectory Example.world 100 Example.folder Instances.start).2)
       = records (store Instances.start))
  | OutOfFuel => True
  end.
Proof.
  exact (ScanEnds.scan_end_state Example.world 100 Example.folder Instances.start
           start_has_entities).
Defined.

Lemma stale_stop_ignored_witness :
  processDirectory Example.world 100 Example.folder (stopProcessing Instances.start)
  = processDirectory Example.world 100 Example.folder (set_abort false Instances.start).
Proof.
  exact (ScanEnds.stale_stop_ignored Example.world 100 Example.folder Instances.start
           start_has_entities).
Defined.

(** Old results are shown and the request that clears them fails. *)
Definition cloggedWorld : World :=
  Example.worldWith (Example.failing 0) (Some (Resolved Example.folder)).

Definition withOldResults : State :=
  set_view (setEntityCounts {[ str "cat" := VNum 1 ]}) Instances.start.

Lemma cloggedWorld_picks :
  showDirectoryPicker cloggedWorld = Some (Resolved Example.folder).
Proof. reflexivity. Qed.

Lemma withOldResults_entities : csvContent (view withOldResults) <> [].
Proof. by vm_compute. Qed.

Lemma withOldResults_clears : ScanEnds.clearsFirst cloggedWorld withOldResults.
Proof. split; [vm_compute; lia|reflexivity]. Qed.

Lemma failed_clear_leaves_busy_witness :
  let r := handleFolderSelect cloggedWorld 100 withOldResults in
  r.1 = Ok tt /\
  isProcessing (view r.2) = true /\
  records (store r.2) = records (store withOldResults) /\
  entityCounts (view r.2) = entityCounts (view withOldResults) /\
  fileCount r.2 = fileCount withOldResults /\
  console r.2
  = console withOldResults
    ++ [ConsoleError (Some (str "Zugriff verweigert oder Fehler:"))
          (Exception (str "QuotaExceededError"))].
Proof.
  exact (ScanEnds.failed_clear_leaves_busy cloggedWorld 100 Example.folder
           withOldResults (Exception (str "QuotaExceededError"))
           cloggedWorld_picks withOldResults_entities withOldResults_clears
           eq_refl eq_refl).
Defined.

Lemma movedPdf_unreadable :
  Unreadable.unreadable Instances.movedPdf (Exception (str "NotFoundError")).
Proof. by left. Qed.

Lemma unreadable_file_ends_scan_witness :
  (forAwait Example.world 100 Example.entities
     (Instances.movedPdf :: [Instances.docB]) Instances.start).1
  = Throw (Exception (str "NotFoundError")) /\
  let r := tryCatch (forAwait Example.world 100 Example.entities
                       (Instances.movedPdf :: [Instances.docB]))
             (fun err => modify (log (ConsoleError None err))) Instances.start in
  r.1 = Ok tt /\
  console r.2
  = console Instances.start ++ [ConsoleError None (Exception (str "NotFoundError"))] /\
  records (store r.2) = records (store Instances.start) /\
  matchCount r.2 = matchCount Instances.start /\
  fileCount r.2 = S (fileCount Instances.start) /\
  filesProcessed (stats (view r.2)) = S (fileCount Instances.start).
Proof.
  exact (Unreadable.unreadable_file_ends_scan Example.world 100 Example.entities
           Instances.movedPdf [Instances.docB] Instances.start
           (Exception (str "NotFoundError")) Instances.start_flag_clear
           movedPdf_unreadable).
Defined.

(** *** Occurrences, failing documents and transactions *)

Lemma findAll_exact_witness :
  StronglySorted (fun a b => (index a + length (str "Cat") <= index b)%nat)
    [mkExec 12 (str "cat")] /\
  Forall (Occurrence up (str "Cat") (str "The Catalog cat sat"))
    [mkExec 12 (str "cat")] /\
  (forall m k c,
     m ∈ [mkExec 12 (str "cat")] -> str "Cat" !! k = Some c -> isSpecial c = true ->
     str "The Catalog cat sat" !! (index m + k)%nat = Some c) /\
  (forall m, m ∈ [mkExec 12 (str "cat")] ->
     (startsWithWord (str "Cat") = true ->
      forall i c, index m = S i -> str "The Catalog cat sat" !! i = Some c ->
        ~ (48 <= c <= 57 \/ 65 <= c <= 90 \/ 97 <= c <= 122 \/ c = 95)) /\
     (endsWithWord (str "Cat") = true ->
      forall c,
        str "The Catalog cat sat" !! (index m + length (str "Cat"))%nat = Some c ->
        ~ (48 <= c <= 57 \/ 65 <= c <= 90 \/ 97 <= c <= 122 \/ c = 95))) /\
  (str "Cat" <> [] ->
   forall j,
     (j + length (str "Cat") <= length (str "The Catalog cat sat"))%nat ->
     sameLetters (take (length (str "Cat")) (drop j (str "The Catalog cat sat")))
       (str "Cat") ->
     boundaryOk (str "Cat") (str "The Catalog cat sat") j ->
     exists m, m ∈ [mkExec 12 (str "cat")] /\
               (index m <= j < index m + length (str "Cat"))%nat).
Proof.
  exact (MatcherExact.findAll_exact up 30 (str "Cat") (str "The Catalog cat sat")
           [mkExec 12 (str "cat")] Instances.cat_in_catalog).
Defined.

Lemma document_failure_contained_witness :
  (forall e, Unreadable.unreadable Instances.broken e ->
     (forAwait Example.world 100 Example.entities
        (Instances.broken :: [Instances.docB]) Instances.start).1 = Throw e /\
     records (store (forAwait Example.world 100 Example.entities
                       (Instances.broken :: [Instances.docB]) Instances.start).2)
     = records (store Instances.start)) /\
  (forall file buf,
     fh_getFile Instances.broken = Resolved file ->
     file_arrayBuffer file = Resolved buf ->
     let d := scanDocument Example.world 100 Example.entities Instances.broken buf
                (DocumentFailure.opened Instances.broken (suspend Instances.start)) in
     let r := processFile Example.world 100 Example.entities Instances.broken
                (suspend Instances.start) in
     (exists new,
        records (store r.2) = records (store Instances.start) ++ new /\
        Forall (fun kv => Provenance.genuine Example.world Example.entities
                            [Instances.broken] kv.2) new) /\
     records (store r.2) = records (store d.2) /\
     (forall e, d.1 = Throw e ->
        console r.2
        = console Instances.start
          ++ [ConsoleError (Some (DocumentFailure.failureLabel Instances.broken)) e] /\
        (r.1 = Ok tt \/
         (S (fileCount Instances.start) mod 5 = 0)%nat /\ exists e', r.1 = Throw e') /\
        (r.1 = Ok tt ->
         forAwait Example.world 100 Example.entities
           (Instances.broken :: [Instances.docB]) Instances.start
         = forAwait Example.world 100 Example.entities [Instances.docB] r.2)) /\
     (forall e, getDocument Example.world buf = Rejected e ->
        d.1 = Throw e /\
        records (store r.2) = records (store Instances.start) /\
        matchCount r.2 = matchCount Instances.start)).
Proof.
  exact (DocumentFailure.document_failure_contained Example.world 100
           Example.entities Instances.broken [Instances.docB] Instances.start
           Instances.start_flag_clear).
Defined.

(** The torn document is logged and the next document is scanned. *)
Example torn_then_next :
  let r := forAwait DocumentFailure.tornWorld 100 [str "cat"]
             [DocumentFailure.tornFile; Instances.docB]
             (Example.initial [str "cat"]) in
  r.1 = Ok tt /\
  length (console r.2) = 2%nat /\
  filesProcessed (stats (view r.2)) = 2%nat.
Proof. by vm_compute. Qed.

Lemma start_open : dbOpen (store Instances.start) = true.
Proof. reflexivity. Qed.

Lemma commit_failure_swallowed_witness :
  (forall e,
     idbFault Example.world (requests (store Instances.start)) = Some e ->
     (Tx.addMatch Example.world (Example.failing 0) catRecord Instances.start).1
     = Throw e /\
     records (store (Tx.addMatch Example.world (Example.failing 0) catRecord
                       Instances.start).2)
     = records (store Instances.start)) /\
  (idbFault Example.world (requests (store Instances.start)) = None ->
   Example.failing 0 (requests (store Instances.start)) = None ->
   (Tx.addMatch Example.world (Example.failing 0) catRecord Instances.start).1
   = Ok tt /\
   records (store (Tx.addMatch Example.world (Example.failing 0) catRecord
                     Instances.start).2)
   = records (store Instances.start)
     ++ [(keyGen (store Instances.start), catRecord)]) /\
  (forall e,
     idbFault Example.world (requests (store Instances.start)) = None ->
     Example.failing 0 (requests (store Instances.start)) = Some e ->
     TxFacts.swallowed
       (Tx.addMatch Example.world (Example.failing 0) catRecord Instances.start)
       Instances.start /\
     TxFacts.swallowed
       (Tx.clear Example.world (Example.failing 0) Instances.start)
       Instances.start).
Proof.
  exact (TxFacts.commit_failure_swallowed Example.world (Example.failing 0)
           catRecord Instances.start start_open).
Defined.

(** The insert resolves and the record is not there. *)
Example lost_insert :
  let r := Tx.addMatch Example.world (Example.failing 0) catRecord Instances.start in
  r.1 = Ok tt /\ records (store r.2) = [] /\ console r.2 = [] /\ alerts r.2 = [].
Proof. by vm_compute. Qed.

End MoreInstances.
